(** * Identity and access core of the elder-health API

    A shallow embedding of
    - [src/unnamed/part_000] (the QR utilities: [createProfileQRData],
      [parseQRData], [validateQRFormat]),
    - [src/middleware/auth.js] ([generateToken], [verifyToken],
      [authenticate], [sensitiveOperationLimit]),
    - the login handler of [src/routes/profiles.js],
    together with the parts of the JavaScript run time they rest on
    ([JSON.parse], [JSON.stringify], string primitives) and of the
    [jsonwebtoken] library ([jwt.sign], [jwt.verify]). *)

From stdpp Require Import base numbers list option gmap strings.
From Stdlib Require Import ZArith NArith Ascii Lia.

Open Scope N_scope.

(** ** JavaScript strings

    A JavaScript string is a sequence of UTF-16 code units.  A code unit is a
    number below 65536, kept here as an [N]. *)

Abbreviation jsstring := (list N).

(** A string literal of the source, as its code units (ASCII literals only). *)
Definition js (s : string) : jsstring :=
  map N_of_ascii (String.list_ascii_of_string s).

Definition is_digit (c : N) : bool := (48 <=? c) && (c <=? 57).

Definition jsstring_eqb (a b : jsstring) : bool := bool_decide (a = b).

(** [s.startsWith(p)] *)
Fixpoint startsWith (p s : jsstring) : bool :=
  match p, s with
  | [], _ => true
  | _ :: _, [] => false
  | a :: p', b :: s' => (a =? b) && startsWith p' s'
  end.

(** [s.substring(n)] for a non-negative [n]. *)
Definition substring (n : nat) (s : jsstring) : jsstring := drop n s.

(** [s.replace(pat, rep)] with a string pattern: the first occurrence of
    [pat] is replaced, the rest of [s] is kept. *)
Fixpoint replace (pat rep s : jsstring) : jsstring :=
  if startsWith pat s then rep ++ drop (length pat) s
  else match s with
       | [] => []
       | c :: s' => c :: replace pat rep s'
       end.

(** [s.split(sep)] for a one-unit separator. *)
Fixpoint split (sep : N) (s : jsstring) : list jsstring :=
  match s with
  | [] => [[]]
  | c :: s' =>
      if c =? sep then [] :: split sep s'
      else match split sep s' with
           | seg :: segs => (c :: seg) :: segs
           | [] => [[c]]
           end
  end.

(** *** Numbers as text *)

(** The decimal digits of [n], most significant first, in front of [acc]. *)
Fixpoint decimal_digits (fuel : nat) (n : N) (acc : jsstring) : jsstring :=
  match fuel with
  | O => acc
  | S fuel' =>
      let acc' := (48 + n mod 10) :: acc in
      if n <? 10 then acc' else decimal_digits fuel' (n / 10) acc'
  end.

Definition N_toString (n : N) : jsstring :=
  decimal_digits (S (N.to_nat (N.log2 n))) n [].

(** [String(n)] for an integer-valued number [n] below [10^21] in magnitude,
    where [Number::toString] writes every digit. *)
Definition Z_toString (n : Z) : jsstring :=
  if (n <? 0)%Z then 45 :: N_toString (Z.to_N (- n)) else N_toString (Z.to_N n).

(** The value of a run of decimal digits read after the value [acc]. *)
Fixpoint digits_value (acc : N) (ds : jsstring) : N :=
  match ds with
  | [] => acc
  | d :: ds' => digits_value (10 * acc + (d - 48)) ds'
  end.

(** The longest prefix of decimal digits, and what follows it. *)
Fixpoint span_digits (s : jsstring) : jsstring * jsstring :=
  match s with
  | c :: s' =>
      if is_digit c then let '(ds, rest) := span_digits s' in (c :: ds, rest)
      else ([], s)
  | [] => ([], [])
  end.

(** ** JSON values

    Numbers: [JNum n] is the integer-valued number [n]; [JReal m e], with
    [e < 0], is the non-integer [m * 10^e].  Floating-point rounding is not
    modelled: a numeral stands for its exact decimal value.

    Objects keep their properties in insertion order, one entry per name
    (the move of index-like names to the front is not modelled; nothing
    below enumerates an object that was parsed). *)

#[warnings="-register-all"]
Inductive JValue : Type :=
| JNull
| JBool (b : bool)
| JNum (n : Z)
| JReal (m e : Z)
| JStr (s : jsstring)
| JArr (items : list JValue)
| JObj (fields : list (jsstring * JValue)).

(** The value of an own property, [None] standing for [undefined]. *)
Fixpoint obj_get (k : jsstring) (fields : list (jsstring * JValue)) : option JValue :=
  match fields with
  | [] => None
  | (k', v) :: fields' => if jsstring_eqb k' k then Some v else obj_get k fields'
  end.

(** Defining a property: an existing name keeps its place and takes the new
    value, a new name goes last. *)
Fixpoint obj_set (k : jsstring) (v : JValue) (fields : list (jsstring * JValue))
  : list (jsstring * JValue) :=
  match fields with
  | [] => [(k, v)]
  | (k', v') :: fields' =>
      if jsstring_eqb k' k then (k, v) :: fields' else (k', v') :: obj_set k v fields'
  end.

(** [ToBoolean]: [undefined], [null], [false], [0] and the empty string are
    falsy, everything else is truthy. *)
Definition truthy (v : option JValue) : bool :=
  match v with
  | None => false
  | Some JNull => false
  | Some (JBool b) => b
  | Some (JNum n) => negb (n =? 0)%Z
  | Some (JReal _ _) => true
  | Some (JStr s) => match s with [] => false | _ => true end
  | Some (JArr _) => true
  | Some (JObj _) => true
  end.

(** [v === s] for a string [s]. *)
Definition strict_eq_string (v : option JValue) (s : jsstring) : bool :=
  match v with
  | Some (JStr s') => jsstring_eqb s' s
  | _ => false
  end.

(** ** [JSON.stringify] *)

Definition hex_digit (d : N) : N := if d <? 10 then 48 + d else 87 + d.

(** [\uXXXX], four lower-case hexadecimal digits. *)
Definition unicode_escape (c : N) : jsstring :=
  [92; 117; hex_digit (c / 4096 mod 16); hex_digit (c / 256 mod 16);
   hex_digit (c / 16 mod 16); hex_digit (c mod 16)].

Definition is_high_surrogate (c : N) : bool := (55296 <=? c) && (c <=? 56319).
Definition is_low_surrogate (c : N) : bool := (56320 <=? c) && (c <=? 57343).

(** The text of one code unit that is not a surrogate. *)
Definition quote_unit (c : N) : jsstring :=
  if c =? 8 then [92; 98]
  else if c =? 9 then [92; 116]
  else if c =? 10 then [92; 110]
  else if c =? 12 then [92; 102]
  else if c =? 13 then [92; 114]
  else if c =? 34 then [92; 34]
  else if c =? 92 then [92; 92]
  else if c <? 32 then unicode_escape c
  else [c].

(** The body of [QuoteJSONString]: a surrogate pair is copied, a lone
    surrogate is escaped. *)
Fixpoint quote_units (s : jsstring) : jsstring :=
  match s with
  | [] => []
  | c :: rest =>
      if is_high_surrogate c then
        match rest with
        | d :: rest' =>
            if is_low_surrogate d then c :: d :: quote_units rest'
            else unicode_escape c ++ quote_units rest
        | [] => unicode_escape c
        end
      else if is_low_surrogate c then unicode_escape c ++ quote_units rest
      else quote_unit c ++ quote_units rest
  end.

Definition quote (s : jsstring) : jsstring := 34 :: quote_units s ++ [34].

(** [items.join(",")] over already serialised items. *)
Fixpoint join_comma (items : list jsstring) : jsstring :=
  match items with
  | [] => []
  | [x] => x
  | x :: items' => x ++ 44 :: join_comma items'
  end.

(** [JSON.stringify(v)] without indentation.  A non-integer number is
    written as its mantissa and exponent, not in the shortest form
    [Number::toString] picks; no value serialised below holds one. *)
Fixpoint JSON_stringify (v : JValue) : jsstring :=
  match v with
  | JNull => js "null"
  | JBool true => js "true"
  | JBool false => js "false"
  | JNum n => Z_toString n
  | JReal m e => Z_toString m ++ 101 :: Z_toString e
  | JStr s => quote s
  | JArr items => 91 :: join_comma (map JSON_stringify items) ++ [93]
  | JObj fields =>
      123 :: join_comma (map (fun kv => quote (fst kv) ++ 58 :: JSON_stringify (snd kv)) fields)
          ++ [125]
  end.

(** ** [JSON.parse]

    A recursive-descent reader of the JSON grammar (ECMA-404).  Nested values
    are read under a fuel bound; [JSON_parse] supplies more fuel than the
    text can use ([parse_value_fuel] below). *)

Inductive presult (A : Type) : Type :=
| Parsed (a : A) (rest : jsstring)
| SyntaxError
| OutOfFuel.
Arguments Parsed {A} a rest.
Arguments SyntaxError {A}.
Arguments OutOfFuel {A}.

Definition is_ws (c : N) : bool :=
  (c =? 32) || (c =? 9) || (c =? 10) || (c =? 13).

Fixpoint skip_ws (s : jsstring) : jsstring :=
  match s with
  | c :: s' => if is_ws c then skip_ws s' else s
  | [] => []
  end.

Definition hex_value (c : N) : option N :=
  if is_digit c then Some (c - 48)
  else if (97 <=? c) && (c <=? 102) then Some (c - 87)
  else if (65 <=? c) && (c <=? 70) then Some (c - 55)
  else None.

Definition hex4_value (a b c d : N) : option N :=
  match hex_value a, hex_value b, hex_value c, hex_value d with
  | Some x, Some y, Some z, Some w => Some (4096 * x + 256 * y + 16 * z + w)
  | _, _, _, _ => None
  end.

(** The units of a string literal, read after its opening quote. *)
Fixpoint parse_chars (s : jsstring) : presult jsstring :=
  match s with
  | [] => SyntaxError
  | c :: s' =>
      if c =? 34 then Parsed [] s'
      else if c =? 92 then
        match s' with
        | [] => SyntaxError
        | e :: s'' =>
            let unit (u : N) :=
              match parse_chars s'' with
              | Parsed us rest => Parsed (u :: us) rest
              | r => r
              end in
            if e =? 34 then unit 34
            else if e =? 92 then unit 92
            else if e =? 47 then unit 47
            else if e =? 98 then unit 8
            else if e =? 102 then unit 12
            else if e =? 110 then unit 10
            else if e =? 114 then unit 13
            else if e =? 116 then unit 9
            else if e =? 117 then
              match s'' with
              | h1 :: h2 :: h3 :: h4 :: s4 =>
                  match hex4_value h1 h2 h3 h4 with
                  | Some u =>
                      match parse_chars s4 with
                      | Parsed us rest => Parsed (u :: us) rest
                      | r => r
                      end
                  | None => SyntaxError
                  end
              | _ => SyntaxError
              end
            else SyntaxError
        end
      else if c <? 32 then SyntaxError
      else
        match parse_chars s' with
        | Parsed us rest => Parsed (c :: us) rest
        | r => r
        end
  end.

(** The number [m * 10^e]: an integer when it has no fractional part. *)
Definition decimal_number (m e : Z) : JValue :=
  if (0 <=? e)%Z then JNum (m * 10 ^ e)
  else if (m mod 10 ^ (- e) =? 0)%Z then JNum (m / 10 ^ (- e))
  else JReal m e.

(** The digits of the integer part: a lone [0], or a run not starting with
    [0]. *)
Definition parse_int_part (s : jsstring) : presult jsstring :=
  match s with
  | c :: s' =>
      if c =? 48 then Parsed [48] s'
      else if is_digit c then let '(ds, rest) := span_digits s in Parsed ds rest
      else SyntaxError
  | [] => SyntaxError
  end.

(** The digits after a decimal point, if there is one. *)
Definition parse_frac_part (s : jsstring) : presult jsstring :=
  match s with
  | c :: s' =>
      if c =? 46 then
        match span_digits s' with
        | ([], _) => SyntaxError
        | (ds, rest) => Parsed ds rest
        end
      else Parsed [] s
  | [] => Parsed [] s
  end.

(** The exponent, if there is one. *)
Definition parse_exp_part (s : jsstring) : presult Z :=
  match s with
  | c :: s' =>
      if (c =? 101) || (c =? 69) then
        let '(neg, s'') :=
          match s' with
          | sign :: t =>
              if sign =? 45 then (true, t)
              else if sign =? 43 then (false, t)
              else (false, s')
          | [] => (false, s')
          end in
        match span_digits s'' with
        | ([], _) => SyntaxError
        | (ds, rest) =>
            let x := Z.of_N (digits_value 0 ds) in
            Parsed (if neg then (- x)%Z else x) rest
        end
      else Parsed 0%Z s
  | [] => Parsed 0%Z s
  end.

Definition parse_number (s : jsstring) : presult JValue :=
  let '(neg, s1) :=
    match s with
    | c :: t => if c =? 45 then (true, t) else (false, s)
    | [] => (false, s)
    end in
  match parse_int_part s1 with
  | Parsed ids s2 =>
      match parse_frac_part s2 with
      | Parsed fds s3 =>
          match parse_exp_part s3 with
          | Parsed x s4 =>
              let m := Z.of_N (digits_value 0 (ids ++ fds)) in
              Parsed (decimal_number (if neg then (- m)%Z else m)
                                     (x - Z.of_nat (length fds))) s4
          | SyntaxError => SyntaxError
          | OutOfFuel => OutOfFuel
          end
      | SyntaxError => SyntaxError
      | OutOfFuel => OutOfFuel
      end
  | SyntaxError => SyntaxError
  | OutOfFuel => OutOfFuel
  end.

(** A keyword ([null], [true], [false]) at the head of [s]. *)
Definition parse_keyword (w : jsstring) (v : JValue) (s : jsstring) : presult JValue :=
  if startsWith w s then Parsed v (drop (length w) s) else SyntaxError.

Fixpoint parse_value (fuel : nat) (s : jsstring) {struct fuel} : presult JValue :=
  match fuel with
  | O => OutOfFuel
  | S fuel' =>
      match skip_ws s with
      | [] => SyntaxError
      | c :: s' =>
          if c =? 123 then
            match skip_ws s' with
            | c' :: rest =>
                if c' =? 125 then Parsed (JObj []) rest else parse_members fuel' s' []
            | [] => SyntaxError
            end
          else if c =? 91 then
            match skip_ws s' with
            | c' :: rest =>
                if c' =? 93 then Parsed (JArr []) rest else parse_elements fuel' s' []
            | [] => SyntaxError
            end
          else if c =? 34 then
            match parse_chars s' with
            | Parsed us rest => Parsed (JStr us) rest
            | SyntaxError => SyntaxError
            | OutOfFuel => OutOfFuel
            end
          else if c =? 110 then parse_keyword (js "null") JNull (c :: s')
          else if c =? 116 then parse_keyword (js "true") (JBool true) (c :: s')
          else if c =? 102 then parse_keyword (js "false") (JBool false) (c :: s')
          else parse_number (c :: s')
      end
  end

with parse_elements (fuel : nat) (s : jsstring) (acc : list JValue) {struct fuel}
  : presult JValue :=
  match fuel with
  | O => OutOfFuel
  | S fuel' =>
      match parse_value fuel' s with
      | Parsed v rest =>
          match skip_ws rest with
          | c :: rest' =>
              if c =? 44 then parse_elements fuel' rest' (acc ++ [v])
              else if c =? 93 then Parsed (JArr (acc ++ [v])) rest'
              else SyntaxError
          | [] => SyntaxError
          end
      | r => r
      end
  end

with parse_members (fuel : nat) (s : jsstring) (acc : list (jsstring * JValue))
       {struct fuel} : presult JValue :=
  match fuel with
  | O => OutOfFuel
  | S fuel' =>
      match skip_ws s with
      | q :: s1 =>
          if q =? 34 then
            match parse_chars s1 with
            | Parsed k s2 =>
                match skip_ws s2 with
                | colon :: s3 =>
                    if colon =? 58 then
                      match parse_value fuel' s3 with
                      | Parsed v rest =>
                          match skip_ws rest with
                          | c :: rest' =>
                              if c =? 44 then parse_members fuel' rest' (obj_set k v acc)
                              else if c =? 125 then Parsed (JObj (obj_set k v acc)) rest'
                              else SyntaxError
                          | [] => SyntaxError
                          end
                      | r => r
                      end
                    else SyntaxError
                | [] => SyntaxError
                end
            | SyntaxError => SyntaxError
            | OutOfFuel => OutOfFuel
            end
          else SyntaxError
      | [] => SyntaxError
      end
  end.

(** [JSON.parse(text)]: [None] when it throws a [SyntaxError]. *)
Definition JSON_parse (text : jsstring) : option JValue :=
  match parse_value (2 * length text + 2) text with
  | Parsed v rest => match skip_ws rest with [] => Some v | _ => None end
  | _ => None
  end.

(** ** QR payloads ([src/unnamed/part_000]) *)

Module QR.

(** What [parseQRData] returns, by return site:
    - [Structured data] is [{ success: true, data }] with the parsed object;
    - [Legacy id] is [{ success: true, data: { type: 'profile', id, legacy: true } }];
    - [Invalid error] is [{ success: false, error }]. *)
Inductive Outcome : Type :=
| Structured (data : JValue)
| Legacy (id : jsstring)
| Invalid (error : jsstring).

(** The object the caller receives. *)
Definition result_object (o : Outcome) : JValue :=
  match o with
  | Structured data => JObj [(js "success", JBool true); (js "data", data)]
  | Legacy id =>
      JObj [(js "success", JBool true);
            (js "data", JObj [(js "type", JStr (js "profile"));
                              (js "id", JStr id);
                              (js "legacy", JBool true)])]
  | Invalid error => JObj [(js "success", JBool false); (js "error", JStr error)]
  end.

(** [data.name] for one of the names [type], [id], [name], [app], none of
    which a prototype defines: an own property of an object, [undefined]
    ([None]) on any other value. *)
Definition prop (data : JValue) (name : jsstring) : option JValue :=
  match data with
  | JObj fields => obj_get name fields
  | _ => None
  end.

(** [createProfileQRData(profileId, profileName)].  [timestamp] is the
    reading of the clock as [new Date().toISOString()] renders it. *)
Definition createProfileQRData (profileId : JValue) (profileName timestamp : jsstring)
  : jsstring :=
  let qrData :=
    JObj [(js "type", JStr (js "profile"));
          (js "id", profileId);
          (js "name", JStr profileName);
          (js "timestamp", JStr timestamp);
          (js "app", JStr (js "lansia-health"))] in
  JSON_stringify qrData.

(** [/^QR\d+$/.test(s)] *)
Definition legacy_exact (s : jsstring) : bool :=
  match s with
  | q :: r :: d :: rest => (q =? 81) && (r =? 82) && is_digit d && forallb is_digit rest
  | _ => false
  end.

(** [/^QR\d+/.test(s)] *)
Definition legacy_prefix (s : jsstring) : bool :=
  match s with
  | q :: r :: d :: _ => (q =? 81) && (r =? 82) && is_digit d
  | _ => false
  end.

(** The [try] block of [parseQRData]; [None] when it throws ([JSON.parse]
    on bad text, or a property read on [null]). *)
Definition parse_structured (qrString : jsstring) : option Outcome :=
  match JSON_parse qrString with
  | None => None
  | Some JNull => None
  | Some data =>
      if negb (truthy (prop data (js "type")))
         || negb (truthy (prop data (js "id")))
         || negb (strict_eq_string (prop data (js "app")) (js "lansia-health"))
      then Some (Invalid (js "Invalid QR code format"))
      else Some (Structured data)
  end.

Definition parseQRData (qrString : jsstring) : Outcome :=
  match parse_structured qrString with
  | Some outcome => outcome
  | None =>
      if legacy_exact qrString then Legacy (replace (js "QR") [] qrString)
      else Invalid (js "Invalid QR code data")
  end.

(** The value of [a && b && c] in the [try] block of [validateQRFormat]:
    the first falsy operand, else the last one. *)
Definition validate_structured (qrString : jsstring) : option (option JValue) :=
  match JSON_parse qrString with
  | None => None
  | Some JNull => None
  | Some data =>
      if negb (truthy (prop data (js "type"))) then Some (prop data (js "type"))
      else if negb (truthy (prop data (js "id"))) then Some (prop data (js "id"))
      else Some (Some (JBool (strict_eq_string (prop data (js "app")) (js "lansia-health"))))
  end.

(** [validateQRFormat(qrString)] for a string argument.  The result is a
    JavaScript value ([None] for [undefined]). *)
Definition validateQRFormat (qrString : jsstring) : option JValue :=
  match qrString with
  | [] => Some (JBool false)
  | _ =>
      match validate_structured qrString with
      | Some v => v
      | None => Some (JBool (legacy_prefix qrString))
      end
  end.

(** [decode] yields Structured or Legacy. *)
Definition accepted (o : Outcome) : bool :=
  match o with
  | Structured _ | Legacy _ => true
  | Invalid _ => false
  end.

End QR.

(** ** The [jsonwebtoken] library

    The library is a dependency, not part of the repository.  This is a model
    of [jwt.sign] as [generateToken] calls it and of [jwt.verify] as
    [verifyToken] calls it, on a token and a secret that are strings and
    without options: the compact form [header.payload.signature], the
    decoding of [jws.decode] and [decode], and the checks of [jwt.verify] in
    the library's order, for the HMAC algorithms it admits under a secret
    that is not PEM key material.  Base64url and HMAC are left to an
    interface. *)

Module Jwt.

(** The HMAC algorithms, which are the ones [jwt.verify] admits for a secret
    that is a string. *)
Inductive Alg : Type := HS256 | HS384 | HS512.

Definition alg_name (alg : Alg) : jsstring :=
  match alg with
  | HS256 => js "HS256"
  | HS384 => js "HS384"
  | HS512 => js "HS512"
  end.

Class Primitives : Type := {
  (** base64url of the UTF-8 bytes of a text *)
  base64url : jsstring -> jsstring;
  (** [Buffer.from(segment, 'base64').toString('utf8')] *)
  decode_utf8 : jsstring -> jsstring;
  (** [Buffer.from(segment, 'base64').toString('binary')] *)
  decode_binary : jsstring -> jsstring;
  (** [hmac alg key message], the HMAC tag in base64url *)
  hmac : Alg -> jsstring -> jsstring -> jsstring
}.

(** The characters of base64url, [[a-zA-Z0-9\-_]]. *)
Definition is_base64url (c : N) : bool :=
  ((97 <=? c) && (c <=? 122)) || ((65 <=? c) && (c <=? 90))
  || ((48 <=? c) && (c <=? 57)) || (c =? 45) || (c =? 95).

(** What the model needs of the primitives. *)
Record Laws (P : Primitives) : Prop := {
  decode_encode : forall s, decode_utf8 (base64url s) = s;
  decode_encode_binary : forall s,
    Forall (fun c => c < 128) s -> decode_binary (base64url s) = s;
  base64url_alphabet : forall s, forallb is_base64url (base64url s) = true;
  base64url_nonempty : forall s, s <> [] -> base64url s <> [];
  hmac_alphabet : forall alg key message,
    forallb is_base64url (hmac alg key message) = true;
  hmac_nonempty : forall alg key message, hmac alg key message <> []
}.

(** The errors [jwt.verify] throws: its own, and the two of the language
    that escape it, the [SyntaxError] of [JSON.parse] on a body that is not
    JSON and the [TypeError] of reading a claim of the payload [null]. *)
Inductive Error : Type :=
| JsonWebTokenError (message : jsstring)
| NotBeforeError
| TokenExpiredError
| BodySyntaxError
| PayloadTypeError.

(** The three failures of the specification. *)
Definition Malformed (e : Error) : Prop :=
  e = JsonWebTokenError (js "jwt malformed")
  \/ e = JsonWebTokenError (js "invalid token")
  \/ e = BodySyntaxError.
Definition SignatureInvalid (e : Error) : Prop :=
  e = JsonWebTokenError (js "invalid signature").
Definition Expired (e : Error) : Prop := e = TokenExpiredError.

(** The session claims [generateToken] is called with. *)
Record Claims : Type := {
  userId : Z;
  username : jsstring;
  role : jsstring
}.

Definition claims_fields (c : Claims) : list (jsstring * JValue) :=
  [(js "userId", JNum (userId c));
   (js "username", JStr (username c));
   (js "role", JStr (role c))].

Definition header : JValue :=
  JObj [(js "alg", JStr (js "HS256")); (js "typ", JStr (js "JWT"))].

(** [Math.floor(Date.now() / 1000)] *)
Definition clock_seconds (now : Z) : Z := (now / 1000)%Z.

(** [x < v] for a number [v]; [None] when [v] is not a number. *)
Definition lt_number (x : Z) (v : JValue) : option bool :=
  match v with
  | JNum n => Some (x <? n)%Z
  | JReal m e => Some (x * 10 ^ (- e) <? m)%Z
  | _ => None
  end.

Definition payload_prop (payload : JValue) (name : jsstring) : option JValue :=
  match payload with
  | JObj fields => obj_get name fields
  | _ => None
  end.

Definition nonempty (s : jsstring) : bool :=
  match s with
  | [] => false
  | _ => true
  end.

(** [JWS_REGEX], [/^[a-zA-Z0-9\-_]+?\.[a-zA-Z0-9\-_]+?\.([a-zA-Z0-9\-_]+)?$/],
    on a token whose three segments are [h], [p] and [signature]. *)
Definition JWS_REGEX (h p signature : jsstring) : bool :=
  nonempty h && forallb is_base64url h
  && nonempty p && forallb is_base64url p
  && forallb is_base64url signature.

(** What decoding a token gives: it throws, it returns [null], or it
    returns the header and the payload. *)
Inductive Decoded : Type :=
| DecodeThrows
| DecodedNull
| Complete (header payload : JValue).

(** [options.algorithms.indexOf(header.alg)] for the HMAC algorithms. *)
Definition algorithm (hd : JValue) : option Alg :=
  match payload_prop hd (js "alg") with
  | Some (JStr name) =>
      if jsstring_eqb name (js "HS256") then Some HS256
      else if jsstring_eqb name (js "HS384") then Some HS384
      else if jsstring_eqb name (js "HS512") then Some HS512
      else None
  | _ => None
  end.

(** The message for a token without signature, verified without a key. *)
Definition unsigned_message : jsstring :=
  js "please specify " ++ 34 :: js "none" ++ 34 :: js " in " ++ 34 :: js "algorithms"
    ++ 34 :: js " to verify unsigned tokens".

Section WithPrimitives.
Context {P : Primitives}.

(** [jwt.sign(payload, secret, { expiresIn })] at the time [now] (in
    milliseconds), [expiresIn] in seconds; [None] when it throws (no
    secret). *)
Definition sign (payload : list (jsstring * JValue)) (secret : jsstring)
    (expiresIn : Z) (now : Z) : option jsstring :=
  match secret with
  | [] => None
  | _ =>
      let iat := clock_seconds now in
      let body := JObj (payload ++ [(js "iat", JNum iat); (js "exp", JNum (iat + expiresIn)%Z)]) in
      let signing_input :=
        base64url (JSON_stringify header) ++ 46 :: base64url (JSON_stringify body) in
      Some (signing_input ++ 46 :: hmac HS256 secret signing_input)
  end.

(** [jws.decode(token, { complete: true })].  The token is valid when it
    matches [JWS_REGEX] and its header, decoded as binary, parses to a
    truthy value.  The body is parsed only under a header whose [typ] is
    ['JWT'], and the [SyntaxError] of that parse is not caught; under any
    other header the body stays the text it decodes to. *)
Definition jws_decode (h p signature : jsstring) : Decoded :=
  let parsed_header := JSON_parse (decode_binary h) in
  if negb (JWS_REGEX h p signature && truthy parsed_header) then DecodedNull
  else
    match parsed_header with
    | None => DecodedNull
    | Some hd =>
        let payload := decode_utf8 p in
        if strict_eq_string (payload_prop hd (js "typ")) (js "JWT")
        then match JSON_parse payload with
             | Some value => Complete hd value
             | None => DecodeThrows
             end
        else Complete hd (JStr payload)
    end.

(** [decode(token, { complete: true })] of [jsonwebtoken]: a payload that is
    a string is parsed once more, and replaced when the result is an object
    or an array. *)
Definition decode (h p signature : jsstring) : Decoded :=
  match jws_decode h p signature with
  | Complete hd (JStr payload) =>
      match JSON_parse payload with
      | Some (JObj fields) => Complete hd (JObj fields)
      | Some (JArr items) => Complete hd (JArr items)
      | _ => Complete hd (JStr payload)
      end
  | decoded => decoded
  end.

(** The time checks on a payload whose signature has been verified: not
    before [nbf], and strictly before [exp]. *)
Definition check_times (payload : JValue) (now : Z) : Error + JValue :=
  let clock := clock_seconds now in
  let check_exp :=
    match payload_prop payload (js "exp") with
    | None => inr payload
    | Some v =>
        match lt_number clock v with
        | None => inl (JsonWebTokenError (js "invalid exp value"))
        | Some true => inr payload
        | Some false => inl TokenExpiredError
        end
    end in
  match payload_prop payload (js "nbf") with
  | None => check_exp
  | Some v =>
      match lt_number clock v with
      | None => inl (JsonWebTokenError (js "invalid nbf value"))
      | Some true => inl NotBeforeError
      | Some false => check_exp
      end
  end.

(** [jwt.verify(token, secret)] at the time [now], for a token and a secret
    that are strings and without options: the payload, or the error thrown.
    An empty [secret] stands for a missing one.  The secret is taken as the
    key of an HMAC: a secret that holds PEM key material, which the library
    would read as a public key, is outside this model.  A signature that
    passed [JWS_REGEX] holds no white space, so [parts[2].trim()] is the
    signature itself. *)
Definition verify (token secret : jsstring) (now : Z) : Error + JValue :=
  match token with
  | [] => inl (JsonWebTokenError (js "jwt must be provided"))
  | _ =>
      match split 46 token with
      | [h; p; signature] =>
          match decode h p signature with
          | DecodeThrows => inl BodySyntaxError
          | DecodedNull => inl (JsonWebTokenError (js "invalid token"))
          | Complete hd payload =>
              let hasSignature := nonempty signature in
              if negb hasSignature && nonempty secret
              then inl (JsonWebTokenError (js "jwt signature is required"))
              else if hasSignature && negb (nonempty secret)
              then inl (JsonWebTokenError (js "secret or public key must be provided"))
              else if negb hasSignature
              then inl (JsonWebTokenError unsigned_message)
              else
                match algorithm hd with
                | None => inl (JsonWebTokenError (js "invalid algorithm"))
                | Some alg =>
                    if negb (jsstring_eqb signature (hmac alg secret (h ++ 46 :: p)))
                    then inl (JsonWebTokenError (js "invalid signature"))
                    else
                      match payload with
                      | JNull => inl PayloadTypeError
                      | _ => check_times payload now
                      end
                end
          end
      | _ => inl (JsonWebTokenError (js "jwt malformed"))
      end
  end.

End WithPrimitives.

(** A small instance of the primitives, to run the model on concrete tokens.
    It satisfies [Laws] and offers no security: a text is encoded unit by
    unit, each as its decimal numeral followed by an underscore, and the tag
    of a message is the encoding of algorithm, key and message. *)
Definition toy_encode (s : jsstring) : jsstring :=
  flat_map (fun c => N_toString c ++ [95]) s.

Fixpoint toy_decode (acc : N) (s : jsstring) : jsstring :=
  match s with
  | [] => []
  | c :: s' =>
      if c =? 95 then acc :: toy_decode 0 s'
      else toy_decode (10 * acc + (c - 48)) s'
  end.

Definition toy : Primitives := {|
  base64url := toy_encode;
  decode_utf8 := toy_decode 0;
  decode_binary := toy_decode 0;
  hmac := fun alg key message => toy_encode (alg_name alg ++ 0 :: key ++ 0 :: message)
|}.

End Jwt.

(** ** Authentication middleware ([src/middleware/auth.js]) *)

Module Auth.
Import Jwt.

(** The process environment the middleware reads.  [JWT_EXPIRES_IN] is kept
    as the number of seconds the library makes of it. *)
Record Env : Type := {
  JWT_SECRET : jsstring;
  JWT_EXPIRES_IN : option Z
}.

(** [process.env.JWT_EXPIRES_IN || '24h'], in seconds. *)
Definition expiresIn (env : Env) : Z := default 86400%Z (JWT_EXPIRES_IN env).

(** A row of [users] as [authenticate] selects it. *)
Record User : Type := {
  id : Z;
  user_username : jsstring;
  user_role : jsstring;
  is_active : bool
}.

(** What a middleware does with a request: it answers with a status and the
    body [{ success: false, message }], or calls [next()]. *)
Inductive Response : Type :=
| Reply (status : Z) (message : jsstring).

Section WithPrimitives.
Context {P : Primitives}.

(** [generateToken(payload)] at the time [now]; [None] when [jwt.sign]
    throws. *)
Definition generateToken (env : Env) (payload : Claims) (now : Z) : option jsstring :=
  sign (claims_fields payload) (JWT_SECRET env) (expiresIn env) now.

(** [verifyToken(token)] at the time [now]; [None] is [null]. *)
Definition verifyToken (env : Env) (token : jsstring) (now : Z) : option JValue :=
  match verify token (JWT_SECRET env) now with
  | inr decoded => Some decoded
  | inl _ => None
  end.

(** [authenticate(req, res, next)].  [authorization] is the request header,
    [getOne] the lookup [SELECT ... FROM users WHERE id = ?] ([None] when
    [success] is false).  The result is the response sent, or the user stored
    in [req.user] before [next()]. *)
Definition authenticate (env : Env) (getOne : option JValue -> option User)
    (now : Z) (authorization : option jsstring) : Response + User :=
  match authorization with
  | None => inl (Reply 401 (js "Access token required"))
  | Some authHeader =>
      if negb (match authHeader with [] => false | _ => true end)
         || negb (startsWith (js "Bearer ") authHeader)
      then inl (Reply 401 (js "Access token required"))
      else
        let token := substring 7 authHeader in
        match verifyToken env token now with
        | None => inl (Reply 401 (js "Invalid or expired token"))
        | Some decoded =>
            if negb (truthy (Some decoded))
            then inl (Reply 401 (js "Invalid or expired token"))
            else
              match getOne (payload_prop decoded (js "userId")) with
              | None => inl (Reply 401 (js "User not found or inactive"))
              | Some user =>
                  if negb (is_active user)
                  then inl (Reply 401 (js "User not found or inactive"))
                  else inr user
              end
        end
  end.

End WithPrimitives.

(** *** Rate limiting *)

Definition windowMs : Z := 15 * 60 * 1000.
Definition maxAttempts : nat := 5.

(** [`${req.ip}_${req.user?.id || 'anonymous'}`] *)
Definition limit_key (ip : jsstring) (user : option User) : jsstring :=
  ip ++ 95 ::
    match user with
    | Some u => if (id u =? 0)%Z then js "anonymous" else Z_toString (id u)
    | None => js "anonymous"
    end.

(** The body of [sensitiveOperationLimit] once [key] and [now] are known.
    [store] is [global.rateLimitStore] (the empty map when it has not been
    created yet).  The result tells whether [next()] was called, [false]
    standing for the 429 response. *)
Definition limit_attempt (key : jsstring) (now : Z) (store : gmap jsstring (list Z))
  : bool * gmap jsstring (list Z) :=
  let userAttempts := default [] (store !! key) in
  let recentAttempts := filter (λ time, (now - time < windowMs)%Z) userAttempts in
  if decide (maxAttempts ≤ length recentAttempts)%nat then (false, store)
  else (true, <[key := recentAttempts ++ [now]]> store).

Definition too_many : Response :=
  Reply 429 (js "Too many attempts. Please try again later.").

(** [sensitiveOperationLimit(req, res, next)] at the time [now]. *)
Definition sensitiveOperationLimit (ip : jsstring) (user : option User) (now : Z)
    (store : gmap jsstring (list Z)) : option Response * gmap jsstring (list Z) :=
  let '(admitted, store') := limit_attempt (limit_key ip user) now store in
  (if admitted then None else Some too_many, store').

(** A run of attempts, oldest first; the answers are in the same order. *)
Fixpoint limit_run (calls : list (jsstring * Z)) (store : gmap jsstring (list Z))
  : list bool * gmap jsstring (list Z) :=
  match calls with
  | [] => ([], store)
  | (key, now) :: calls' =>
      let '(admitted, store') := limit_attempt key now store in
      let '(answers, store'') := limit_run calls' store' in
      (admitted :: answers, store'')
  end.

End Auth.

(** ** The login handler ([POST /api/auth/login] in [src/routes/profiles.js]) *)

Module Login.
Import Jwt Auth.

(** A row of [users] as the handler selects it. *)
Record Account : Type := {
  account_id : Z;
  account_username : jsstring;
  password : jsstring;
  account_role : jsstring;
  posyandu_name : jsstring;
  account_active : bool
}.

Inductive Result : Type :=
| Failed (response : Response)
| LoggedIn (token : jsstring) (user : Account).

Section WithPrimitives.
Context {P : Primitives}.

(** The handler, after validation and the rate limit.  [getOne] is the
    lookup by user name, [comparePassword] is [bcrypt.compare].  The update
    of [last_login] is left out. *)
Definition login (env : Env) (getOne : jsstring -> option Account)
    (comparePassword : jsstring -> jsstring -> bool) (now : Z)
    (username password_given : jsstring) : Result :=
  match getOne username with
  | None => Failed (Reply 401 (js "Invalid credentials"))
  | Some user =>
      if negb (account_active user)
      then Failed (Reply 401 (js "Account is deactivated"))
      else if negb (comparePassword password_given (password user))
      then Failed (Reply 401 (js "Invalid credentials"))
      else
        match generateToken env
                {| userId := account_id user;
                   username := account_username user;
                   role := account_role user |} now with
        | Some token => LoggedIn token user
        | None => Failed (Reply 500 (js "Login failed"))
        end
  end.

End WithPrimitives.

End Login.

(** ** Authorisation and PIN middleware ([src/middleware/auth.js]) *)

Module Access.
Import Auth.

(** [authorize(roles)(req, res, next)]: the response sent, or [None] for
    [next()].  [user] is [req.user]. *)
Definition authorize (roles : list jsstring) (user : option User) : option Response :=
  match user with
  | None => Some (Reply 401 (js "Authentication required"))
  | Some u =>
      if negb (bool_decide (length roles = 0%nat))
         && negb (bool_decide (user_role u ∈ roles))
      then Some (Reply 403 (js "Insufficient permissions"))
      else None
  end.

(** The object [authenticate] stores in [req.user]: the selected row, with
    the columns [id], [username], [role] and [is_active]. *)
Definition user_object (u : User) : JValue :=
  JObj [(js "id", JNum (id u));
        (js "username", JStr (user_username u));
        (js "role", JStr (user_role u));
        (js "is_active", JBool (is_active u))].

(** [a === b].  The two sides never hold the same array or object here (one
    comes from a row, the other from the request), so those differ. *)
Definition strict_equal (a b : option JValue) : bool :=
  match a, b with
  | None, None => true
  | Some JNull, Some JNull => true
  | Some (JBool x), Some (JBool y) => bool_decide (x = y)
  | Some (JNum x), Some (JNum y) => (x =? y)%Z
  | Some (JReal m e), Some (JReal m' e') => (m * 10 ^ (- e') =? m' * 10 ^ (- e))%Z
  | Some (JStr x), Some (JStr y) => jsstring_eqb x y
  | _, _ => false
  end.

(** [validatePIN(req, res, next)]: the response sent, or [None] for
    [next()].  [pin] is [req.body.pin], [user] is [req.user]; [getOne] is the
    lookup [SELECT pin FROM users WHERE id = ?], giving the row.  Reading
    [userId] off a missing [req.user] throws, which the handler answers with
    500. *)
Definition validatePIN (getOne : option JValue -> option JValue)
    (pin : option JValue) (user : option JValue) : option Response :=
  match user with
  | None | Some JNull => Some (Reply 500 (js "PIN validation failed"))
  | Some req_user =>
      let userId := QR.prop req_user (js "userId") in
      if negb (truthy pin) then Some (Reply 400 (js "PIN required"))
      else
        match getOne userId with
        | None => Some (Reply 401 (js "Invalid PIN"))
        | Some row =>
            if negb (strict_equal (QR.prop row (js "pin")) pin)
            then Some (Reply 401 (js "Invalid PIN"))
            else None
        end
  end.

End Access.

(** ** The login route, with its rate limit ([src/routes/profiles.js]) *)

Module LoginRoute.
Import Jwt Auth Login.

Section WithPrimitives.
Context {P : Primitives}.

(** [notEmpty()] of the validator, on a string. *)
Definition notEmpty (value : jsstring) : bool :=
  match value with
  | [] => false
  | _ => true
  end.

(** [validateUserLogin] on a body whose [username] and [password] are
    strings: the response [handleValidationErrors] sends, or [None] for
    [next()]. *)
Definition validateUserLogin (username password_given : jsstring) : option Response :=
  if negb (notEmpty username) || negb (notEmpty password_given)
  then Some (Reply 400 (js "Validation failed"))
  else None.

(** [POST /api/auth/login]: [validateUserLogin], then
    [sensitiveOperationLimit] (no [req.user] is set on this route), then the
    handler. *)
Definition login_route (env : Env) (getOne : jsstring -> option Account)
    (comparePassword : jsstring -> jsstring -> bool)
    (ip : jsstring) (now : Z) (username password_given : jsstring)
    (store : gmap jsstring (list Z)) : Result * gmap jsstring (list Z) :=
  match validateUserLogin username password_given with
  | Some response => (Failed response, store)
  | None =>
      match sensitiveOperationLimit ip None now store with
      | (Some response, store') => (Failed response, store')
      | (None, store') =>
          (login env getOne comparePassword now username password_given, store')
      end
  end.

(** Requests from one address, oldest first: time, user name, password. *)
Fixpoint login_run (env : Env) (getOne : jsstring -> option Account)
    (comparePassword : jsstring -> jsstring -> bool) (ip : jsstring)
    (requests : list (Z * jsstring * jsstring))
    (store : gmap jsstring (list Z)) : list Result :=
  match requests with
  | [] => []
  | (now, username, password_given) :: requests' =>
      let '(result, store') :=
        login_route env getOne comparePassword ip now username password_given store in
      result :: login_run env getOne comparePassword ip requests' store'
  end.

End WithPrimitives.

End LoginRoute.

(** ** Integers in a radix: [Number.prototype.toString] and [parseInt] *)

Module Radix.

(** The digit [d] as text: [0]-[9], then [a]-[z]. *)
Definition radix_digit (d : N) : N := if d <? 10 then 48 + d else 87 + d.

(** The digits of [n] in [radix], most significant first, in front of [acc]. *)
Fixpoint radix_digits (radix : N) (fuel : nat) (n : N) (acc : jsstring) : jsstring :=
  match fuel with
  | O => acc
  | S fuel' =>
      let acc' := radix_digit (n mod radix) :: acc in
      if n <? radix then acc' else radix_digits radix fuel' (n / radix) acc'
  end.

Definition N_toString_radix (radix n : N) : jsstring :=
  radix_digits radix (S (N.to_nat (N.log2 n))) n [].

(** [n.toString(radix)] for an integer [n] and a radix from 2 to 36. *)
Definition Z_toString_radix (radix : N) (n : Z) : jsstring :=
  if (n <? 0)%Z then 45 :: N_toString_radix radix (Z.to_N (- n))
  else N_toString_radix radix (Z.to_N n).

(** The value of a digit, in any case of letter. *)
Definition digit_value (c : N) : option N :=
  if is_digit c then Some (c - 48)
  else if (97 <=? c) && (c <=? 122) then Some (c - 87)
  else if (65 <=? c) && (c <=? 90) then Some (c - 55)
  else None.

(** The values of the longest prefix of digits of [radix], and what follows
    it. *)
Fixpoint span_radix (radix : N) (s : jsstring) : list N * jsstring :=
  match s with
  | [] => ([], [])
  | c :: s' =>
      match digit_value c with
      | Some d =>
          if d <? radix then let '(ds, rest) := span_radix radix s' in (d :: ds, rest)
          else ([], s)
      | None => ([], s)
      end
  end.

Definition radix_value (radix : N) (ds : list N) : N :=
  fold_left (fun acc d => radix * acc + d) ds 0.

(** White space and line terminators, as [parseInt] skips them. *)
Definition is_white_space (c : N) : bool :=
  (c =? 9) || (c =? 10) || (c =? 11) || (c =? 12) || (c =? 13) || (c =? 32)
  || (c =? 160) || (c =? 5760) || ((8192 <=? c) && (c <=? 8202))
  || (c =? 8232) || (c =? 8233) || (c =? 8239) || (c =? 8287)
  || (c =? 12288) || (c =? 65279).

Fixpoint trim_start (s : jsstring) : jsstring :=
  match s with
  | c :: s' => if is_white_space c then trim_start s' else s
  | [] => []
  end.

(** [parseInt(s)] without a radix argument; [None] is [NaN].  The result is
    the exact integer: the rounding of integers above [2^53] is not
    modelled. *)
Definition parseInt (s : jsstring) : option Z :=
  let s1 := trim_start s in
  let '(negative, s2) :=
    match s1 with
    | c :: t => if c =? 45 then (true, t) else if c =? 43 then (false, t) else (false, s1)
    | [] => (false, s1)
    end in
  let '(radix, s3) :=
    match s2 with
    | z :: x :: t =>
        if (z =? 48) && ((x =? 120) || (x =? 88)) then (16, t) else (10, s2)
    | _ => (10, s2)
    end in
  match span_radix radix s3 with
  | ([], _) => None
  | (ds, _) =>
      let value := Z.of_N (radix_value radix ds) in
      Some (if negative : bool then (- value)%Z else value)
  end.

End Radix.

(** ** Printable identifiers and the scan route *)

Module QRId.
Import Radix.

(** [s.substr(start, length)] for non-negative arguments. *)
Definition substr (start length : nat) (s : jsstring) : jsstring :=
  take length (drop start s).

(** [generateQRId(profileId)] for the numeric key [profileId] of a profile
    row, as both callers pass it.  [now] is [Date.now()], [random] is the
    text [Math.random().toString(36)]. *)
Definition generateQRId (profileId : Z) (now : Z) (random : jsstring) : jsstring :=
  let timestamp := Z_toString_radix 36 now in
  let random := substr 2 5 random in
  js "QR" ++ Z_toString profileId ++ 95 :: timestamp ++ 95 :: random.

(** The first part of [POST /api/profiles/scan] ([src/routes/profiles.js]):
    from [req.body.qr_data] (a string, or absent) to the id the profile is
    looked up by; [inl] is the 400 response, [None] an [undefined] id. *)
Definition scan_profile_id (qr_data : option jsstring) : Auth.Response + option JValue :=
  match qr_data with
  | None | Some [] => inl (Auth.Reply 400 (js "QR data is required"))
  | Some qr_data =>
      let legacy :=
        if startsWith (js "QR") qr_data
        then inr (Some (JStr (replace (js "QR") [] qr_data)))
        else inl (Auth.Reply 400 (js "Invalid QR code format")) in
      match JSON_parse qr_data with
      | None => legacy
      | Some JNull => legacy
      | Some qrObj => inr (QR.prop qrObj (js "id"))
      end
  end.

(** The route after [authenticate].  [getOne] fetches the profile by id,
    [getMany] its five latest checkups ([None] when the query fails). *)
Inductive ScanResult : Type :=
| ScanFailed (response : Auth.Response)
| ScanFound (profile : JValue) (recentCheckups : list JValue).

Definition scan (getOne : option JValue -> option JValue)
    (getMany : option JValue -> option (list JValue))
    (qr_data : option jsstring) : ScanResult :=
  match scan_profile_id qr_data with
  | inl response => ScanFailed response
  | inr profileId =>
      match getOne profileId with
      | None => ScanFailed (Auth.Reply 404 (js "Profile not found"))
      | Some profile => ScanFound profile (default [] (getMany profileId))
      end
  end.

End QRId.

(** ** Blood pressure readings ([src/middleware/validation.js]) *)

Module Validation.
Import Radix.

(** [validateBloodPressure(value)] for a string [value]; a comparison with
    [NaN] is false. *)
Definition validateBloodPressure (value : jsstring) : bool :=
  match split 47 value with
  | [part0; part1] =>
      match parseInt part0, parseInt part1 with
      | Some systolic, Some diastolic =>
          (70 <=? systolic)%Z && (systolic <=? 250)%Z
          && (40 <=? diastolic)%Z && (diastolic <=? 150)%Z
          && (diastolic <? systolic)%Z
      | _, _ => false
      end
  | _ => false
  end.

(** [/^\d{2,3}\/\d{2,3}$/.test(s)], the format that [validateCheckupCreation]
    and the update of a checkup require of [tekanan_darah]: the run of
    digits at the head has two or three digits, a slash follows, and the run
    after it has two or three digits and ends the text. *)
Definition blood_pressure_format (s : jsstring) : bool :=
  let '(systolic, rest) := span_digits s in
  (2 <=? length systolic)%nat && (length systolic <=? 3)%nat
  && match rest with
     | c :: rest' =>
         (c =? 47)
         && let '(diastolic, tail) := span_digits rest' in
            (2 <=? length diastolic)%nat && (length diastolic <=? 3)%nat
            && match tail with [] => true | _ :: _ => false end
     | [] => false
     end.

End Validation.

(** ** Pagination of the list routes ([GET /api/profiles], [GET /api/checkups]) *)

Module Pagination.
Import Radix Auth.

(** The integer that a text writes, for the texts the validator's [isInt]
    admits, [/^[-+]?[0-9]+$/]; [None] for any other text. *)
Definition int_text (s : jsstring) : option Z :=
  let '(negative, digits) :=
    match s with
    | c :: t => if c =? 45 then (true, t) else if c =? 43 then (false, t) else (false, s)
    | [] => (false, s)
    end in
  match digits with
  | [] => None
  | _ =>
      if forallb is_digit digits
      then let value := Z.of_N (digits_value 0 digits) in
           Some (if negative : bool then (- value)%Z else value)
      else None
  end.

(** [isInt(s, { min, max })].  The bounds are compared with the text taken
    as a number; the rounding of a long numeral is monotone, so this is the
    comparison of the integer it writes. *)
Definition isInt (min : Z) (max : option Z) (s : jsstring) : bool :=
  match int_text s with
  | Some n =>
      (min <=? n)%Z
      && match max with
         | Some m => (n <=? m)%Z
         | None => true
         end
  | None => false
  end.

(** [.optional().isInt({ min, max })] on a query parameter that is a string
    or absent: an absent parameter is not checked. *)
Definition optional_isInt (min : Z) (max : option Z) (value : option jsstring) : bool :=
  match value with
  | Some s => isInt min max s
  | None => true
  end.

(** [validatePagination] on the [page] and [limit] of the query: the
    response [handleValidationErrors] sends, or [None] for [next()]. *)
Definition validatePagination (page_q limit_q : option jsstring) : option Response :=
  if optional_isInt 1%Z None page_q && optional_isInt 1%Z (Some 100%Z) limit_q
  then None
  else Some (Reply 400 (js "Validation failed")).

(** [parseInt(req.query.name)] for a query parameter that is a string or
    absent ([parseInt(undefined)] is [NaN]). *)
Definition parse_query (value : option jsstring) : option Z :=
  match value with
  | Some s => parseInt s
  | None => None
  end.

(** [v || d] for a number [v]: [NaN] and [0] give way to [d]. *)
Definition or_default (v : option Z) (d : Z) : Z :=
  match v with
  | Some n => if (n =? 0)%Z then d else n
  | None => d
  end.

(** The numbers of the handlers are doubles, which hold the integers up to
    [2^53] in magnitude exactly.  Beyond that a double is a rounding of the
    integer, which this model does not follow: it gives no value there. *)
Definition exact (n : Z) : option Z :=
  if (Z.abs n <=? 2 ^ 53)%Z then Some n else None.

(** [Math.ceil(a / b)] for integers [a] and [b] that doubles hold exactly,
    [b] not zero: the rounding of the quotient does not reach an integer
    that the quotient is not. *)
Definition ceil_div (a b : Z) : Z := (- ((- a) / b))%Z.

Record Page : Type := {
  currentPage : Z;
  totalPages : Z;
  totalRecords : Z;
  limit : Z;
  hasNext : bool;
  hasPrev : bool
}.

(** [OFFSET] of the query, [(page - 1) * limit]; [default_limit] is 10 for
    profiles and 20 for checkups. *)
Definition offset (default_limit : Z) (page_q limit_q : option jsstring) : option Z :=
  page ← exact (or_default (parse_query page_q) 1);
  limit ← exact (or_default (parse_query limit_q) default_limit);
  exact ((page - 1) * limit)%Z.

(** The [pagination] object of the response.  [count] is the total the
    count query gives, [None] when that query fails. *)
Definition pagination (default_limit : Z) (page_q limit_q : option jsstring)
    (count : option Z) : option Page :=
  page ← exact (or_default (parse_query page_q) 1);
  limit ← exact (or_default (parse_query limit_q) default_limit);
  totalRecords ← exact (default 0%Z count);
  let totalPages := ceil_div totalRecords limit in
  Some {| currentPage := page;
          totalPages := totalPages;
          totalRecords := totalRecords;
          limit := limit;
          hasNext := (page <? totalPages)%Z;
          hasPrev := (1 <? page)%Z |}.

End Pagination.

(** ** Statements built for the database ([src/config/database.js]) *)

Module Database.

(** [items.join(sep)] *)
Fixpoint join (sep : jsstring) (items : list jsstring) : jsstring :=
  match items with
  | [] => []
  | [x] => x
  | x :: items' => x ++ sep ++ join sep items'
  end.

(** The statement and the parameters that [insert(table, data)] passes to
    [executeQuery].  [data] lists the properties of the object in the order
    of [Object.keys] (insertion order, for names that are not indices). *)
Definition insert_statement (table : jsstring) (data : list (jsstring * JValue))
  : jsstring * list JValue :=
  let fields := join (js ", ") (map fst data) in
  let placeholders := join (js ", ") (map (fun _ => js "?") (map fst data)) in
  let values := map snd data in
  (js "INSERT INTO " ++ table ++ js " (" ++ fields ++ js ") VALUES ("
     ++ placeholders ++ js ")",
   values).

(** The statement and the parameters of [update(table, data, whereClause,
    whereParams)]. *)
Definition update_statement (table : jsstring) (data : list (jsstring * JValue))
    (whereClause : jsstring) (whereParams : list JValue) : jsstring * list JValue :=
  let setClause := join (js ", ") (map (fun key => key ++ js " = ?") (map fst data)) in
  let values := map snd data ++ whereParams in
  (js "UPDATE " ++ table ++ js " SET " ++ setClause ++ js " WHERE " ++ whereClause,
   values).

(** The statement and the parameters of [deleteRecord(table, whereClause,
    whereParams)]. *)
Definition delete_statement (table whereClause : jsstring) (whereParams : list JValue)
  : jsstring * list JValue :=
  (js "DELETE FROM " ++ table ++ js " WHERE " ++ whereClause, whereParams).

End Database.

(** ** The update of a profile ([PUT /api/profiles/:id]) *)

Module ProfileUpdate.
Import Auth Database.

Definition allowedFields : list jsstring :=
  [js "nama"; js "usia"; js "alamat"; js "no_telepon"; js "kontak_darurat";
   js "riwayat_medis"; js "obat_rutin"; js "alergi"].

(** The [forEach] over the allowed fields: a field whose value in the body is
    not [undefined] is copied into [updateData].  (A [null] value is
    copied.) *)
Fixpoint pick_fields (fields : list jsstring) (body : JValue)
    (updateData : list (jsstring * JValue)) : list (jsstring * JValue) :=
  match fields with
  | [] => updateData
  | field :: fields' =>
      pick_fields fields' body
        match QR.prop body field with
        | Some value => obj_set field value updateData
        | None => updateData
        end
  end.

(** The handler, which runs once [authenticate] and
    [validateProfileUpdate] have called [next()], up to its call of
    [update]: the response sent, or the statement and parameters executed.
    [profileId] is [req.params.id], a string, [body] is [req.body]; reading
    a field of a [null] body throws, which the handler answers with 500. *)
Definition update_profile (profileId : jsstring) (body : JValue)
  : Response + (jsstring * list JValue) :=
  match body with
  | JNull => inl (Reply 500 (js "Failed to update profile"))
  | _ =>
      let updateData := pick_fields allowedFields body [] in
      if (length updateData =? 0)%nat
      then inl (Reply 400 (js "No valid fields to update"))
      else inr (update_statement (js "profiles") updateData (js "id = ?")
                  [JStr profileId])
  end.

End ProfileUpdate.

(** ** Auxiliary definitions *)

(** What may follow a run of digits for the run to be read whole. *)
Definition no_digit_ahead (rest : jsstring) : Prop :=
  match rest with
  | c :: _ => is_digit c = false
  | [] => True
  end.

(** What may follow a numeral for the numeral to end there. *)
Definition number_end (rest : jsstring) : Prop :=
  match rest with
  | c :: _ => is_digit c = false /\ c <> 46 /\ c <> 101 /\ c <> 69
  | [] => True
  end.

(** Values without parts: [null], booleans, integers, strings. *)
Definition atom (v : JValue) : Prop :=
  match v with
  | JNull | JBool _ | JNum _ | JStr _ => True
  | JReal _ _ | JArr _ | JObj _ => False
  end.

(** The text of one property in [JSON.stringify]. *)
Definition member_text (kv : jsstring * JValue) : jsstring :=
  quote (fst kv) ++ 58 :: JSON_stringify (snd kv).

(** The object [createProfileQRData] serialises. *)
Definition qr_fields (profileId : JValue) (profileName timestamp : jsstring)
  : list (jsstring * JValue) :=
  [(js "type", JStr (js "profile"));
   (js "id", profileId);
   (js "name", JStr profileName);
   (js "timestamp", JStr timestamp);
   (js "app", JStr (js "lansia-health"))].

(** The attempts recorded for [key]. *)
Definition attempts (key : jsstring) (store : gmap jsstring (list Z)) : list Z :=
  default [] (store !! key).

(** [time] lies in the window that trails [now]. *)
Definition in_window (now time : Z) : Prop := (now - time < Auth.windowMs)%Z.

#[global] Instance in_window_dec now time : Decision (in_window now time).
Proof. unfold in_window. apply _. Defined.

(** No key holds more attempts than the limit. *)
Definition bounded (store : gmap jsstring (list Z)) : Prop :=
  forall key, (length (attempts key store) <= Auth.maxAttempts)%nat.

(** No recorded attempt is later than [T]. *)
Definition not_after (T : Z) (store : gmap jsstring (list Z)) : Prop :=
  forall key, Forall (fun time => (time <= T)%Z) (attempts key store).

(** The compact form of a token. *)
Definition compact (h p signature : jsstring) : jsstring :=
  h ++ 46 :: p ++ 46 :: signature.

(** The payload of the token [generateToken] issues for [claims] at the
    second [iat], to expire at the second [exp]. *)
Definition issued_payload (claims : Jwt.Claims) (iat exp : Z) : JValue :=
  JObj (Jwt.claims_fields claims ++ [(js "iat", JNum iat); (js "exp", JNum exp)]).

(** A configuration, a user and a token to run the model on. *)
Definition example_env : Auth.Env :=
  {| Auth.JWT_SECRET := js "not-so-secret"; Auth.JWT_EXPIRES_IN := None |}.

Definition example_claims : Jwt.Claims :=
  {| Jwt.userId := 7; Jwt.username := js "kader1"; Jwt.role := js "kader" |}.

Definition example_token : jsstring :=
  default [] (Auth.generateToken (P := Jwt.toy) example_env example_claims 0).

Definition one_day : Z := 24 * 60 * 60 * 1000.

(** Tokens made by hand, signed with the secret of [example_env]: two whose
    body is the text [hello], which is not JSON, under a header that
    declares no type and under the header [jwt.sign] writes; and one signed
    with HMAC-SHA384. *)
Definition signed_token (alg : Jwt.Alg) (hd : JValue) (body : jsstring) : jsstring :=
  let h := Jwt.base64url (Primitives := Jwt.toy) (JSON_stringify hd) in
  let p := Jwt.base64url (Primitives := Jwt.toy) body in
  compact h p
    (Jwt.hmac (Primitives := Jwt.toy) alg (Auth.JWT_SECRET example_env) (h ++ 46 :: p)).

Definition example_plain_token : jsstring :=
  signed_token Jwt.HS256 (JObj [(js "alg", JStr (js "HS256"))]) (js "hello").

Definition example_typed_token : jsstring :=
  signed_token Jwt.HS256 Jwt.header (js "hello").

Definition example_HS384_token : jsstring :=
  signed_token Jwt.HS384
    (JObj [(js "alg", JStr (js "HS384")); (js "typ", JStr (js "JWT"))])
    (JSON_stringify (JObj [(js "userId", JNum 7)])).

Definition example_user : Auth.User :=
  {| Auth.id := 7; Auth.user_username := js "kader1"; Auth.user_role := js "kader";
     Auth.is_active := true |}.

(** A [users] table holding [example_user] only. *)
Definition example_getOne (id : option JValue) : option Auth.User :=
  match id with
  | Some (JNum 7) => Some example_user
  | _ => None
  end.

(** An empty [users] table. *)
Definition no_user (id : option JValue) : option Auth.User := None.

Definition example_account : Login.Account :=
  {| Login.account_id := 7; Login.account_username := js "kader1";
     Login.password := js "$2a$12$hash"; Login.account_role := js "kader";
     Login.posyandu_name := js "Posyandu Melati"; Login.account_active := false |}.

(** A reader's verdict on [s]: it did not run out of fuel, and it consumed
    input when it succeeded ([strict]), or at least gave none back. *)
Definition consumes {A} (strict : bool) (s : jsstring) (r : presult A) : Prop :=
  match r with
  | Parsed _ rest =>
      if strict then (length rest < length s)%nat else (length rest <= length s)%nat
  | SyntaxError => True
  | OutOfFuel => False
  end.

(** The times of the calls on [key] that a run admits, oldest first. *)
Fixpoint admitted_times (key : jsstring) (calls : list (jsstring * Z))
    (store : gmap jsstring (list Z)) : list Z :=
  match calls with
  | [] => []
  | (key', now) :: calls' =>
      let '(admitted, store') := Auth.limit_attempt key' now store in
      (if admitted && bool_decide (key' = key) then [now] else [])
        ++ admitted_times key calls' store'
  end.

(** The answers a run gives to the calls on [key], in order. *)
Fixpoint answers_on (key : jsstring) (calls : list (jsstring * Z))
    (store : gmap jsstring (list Z)) : list bool :=
  match calls with
  | [] => []
  | (key', now) :: calls' =>
      let '(admitted, store') := Auth.limit_attempt key' now store in
      (if bool_decide (key' = key) then [admitted] else [])
        ++ answers_on key calls' store'
  end.

(** The clock does not run backwards: [times] never decrease, from [t0] on. *)
Fixpoint ascending (t0 : Z) (times : list Z) : Prop :=
  match times with
  | [] => True
  | t :: times' => (t0 <= t)%Z /\ ascending t times'
  end.

Definition non_decreasing (times : list Z) : Prop :=
  match times with
  | [] => True
  | t :: times' => ascending t times'
  end.

Definition active_account : Login.Account :=
  {| Login.account_id := 7; Login.account_username := js "kader1";
     Login.password := js "$2a$12$hash"; Login.account_role := js "kader";
     Login.posyandu_name := js "Posyandu Melati"; Login.account_active := true |}.

(** What may follow a run of digits of [radix] for the run to be read
    whole. *)
Definition radix_end (radix : N) (rest : jsstring) : Prop :=
  match rest with
  | c :: _ =>
      match Radix.digit_value c with
      | Some d => radix <= d
      | None => True
      end
  | [] => True
  end.

(** What may follow a decimal numeral for [parseInt] to read it alone:
    nothing, or a unit that is neither a digit nor the [x] of a hexadecimal
    prefix. *)
Definition numeral_end (rest : jsstring) : Prop :=
  match rest with
  | c :: _ => is_digit c = false /\ c <> 120 /\ c <> 88
  | [] => True
  end.

(** The ranges [validateBloodPressure] accepts. *)
Definition reading_in_range (systolic diastolic : Z) : Prop :=
  (70 <= systolic <= 250 /\ 40 <= diastolic <= 150 /\ diastolic < systolic)%Z.

(** The number of placeholders in a statement. *)
Definition placeholders (statement : jsstring) : nat :=
  length (filter (fun c => c = 63) statement).

(** The allowed fields that a body defines, with their values, in the order
    of the allowed fields. *)
Definition defined_fields (fields : list jsstring) (body : JValue)
  : list (jsstring * JValue) :=
  omap (fun field => pair field <$> QR.prop body field) fields.

(** The answers to requests from one address that all fall in one window
    of the limiter, [served] of them having passed the limiter already: a
    request without user name or password is turned away by the validator
    and not counted, the first five of the others reach the handler, the
    rest are answered 429. *)
Fixpoint window_answers {P : Jwt.Primitives} (env : Auth.Env)
    (getOne : jsstring -> option Login.Account)
    (comparePassword : jsstring -> jsstring -> bool)
    (requests : list (Z * jsstring * jsstring)) (served : nat) : list Login.Result :=
  match requests with
  | [] => []
  | (now, username, password_given) :: requests' =>
      match username, password_given with
      | _ :: _, _ :: _ =>
          if (served <? 5)%nat
          then Login.login env getOne comparePassword now username password_given
                 :: window_answers env getOne comparePassword requests' (S served)
          else Login.Failed (Auth.Reply 429 (js "Too many attempts. Please try again later."))
                 :: window_answers env getOne comparePassword requests' served
      | _, _ =>
          Login.Failed (Auth.Reply 400 (js "Validation failed"))
            :: window_answers env getOne comparePassword requests' served
      end
  end.

(** * Properties *)

(** Linear arithmetic with division and remainder by constants. *)
Ltac div_lia := zify; Z.to_euclidean_division_equations; lia.

(** ** Numbers as text *)

Section Decimal.

Lemma is_digit_spec c : is_digit c = true <-> 48 <= c <= 57.
Proof.
  unfold is_digit. rewrite andb_true_iff, !N.leb_le. tauto.
Qed.

Lemma is_digit_false c : is_digit c = false <-> c < 48 \/ 57 < c.
Proof.
  unfold is_digit. rewrite andb_false_iff, !N.leb_gt. tauto.
Qed.

Lemma decimal_digits_acc fuel : forall n acc,
  decimal_digits fuel n acc = decimal_digits fuel n [] ++ acc.
Proof.
  induction fuel as [|fuel IH]; intros n acc; simpl; [done|].
  destruct (n <? 10); [done|].
  rewrite (IH _ (_ :: acc)), (IH _ [_]), <- app_assoc. done.
Qed.

Lemma decimal_digits_step fuel n :
  decimal_digits (S fuel) n [] =
  if n <? 10 then [48 + n] else decimal_digits fuel (n / 10) [] ++ [48 + n mod 10].
Proof.
  simpl. destruct (N.ltb_spec n 10) as [Hlt|Hge].
  - rewrite N.mod_small by done. done.
  - apply decimal_digits_acc.
Qed.

Lemma digits_value_snoc ds : forall acc d,
  digits_value acc (ds ++ [d]) = 10 * digits_value acc ds + (d - 48).
Proof.
  induction ds as [|c ds IH]; intros acc d; simpl; [done|]. apply IH.
Qed.

Lemma decimal_digits_value fuel : forall n,
  n < 2 ^ N.of_nat fuel -> digits_value 0 (decimal_digits fuel n []) = n.
Proof.
  induction fuel as [|fuel IH]; intros n Hn.
  - simpl in *. lia.
  - rewrite decimal_digits_step. destruct (N.ltb_spec n 10) as [Hlt|Hge].
    + simpl. lia.
    + rewrite digits_value_snoc, IH.
      * div_lia.
      * rewrite Nat2N.inj_succ, N.pow_succ_r' in Hn. div_lia.
Qed.

Lemma decimal_digits_all fuel : forall n,
  forallb is_digit (decimal_digits fuel n []) = true.
Proof.
  induction fuel as [|fuel IH]; intros n; [done|].
  rewrite decimal_digits_step. destruct (N.ltb_spec n 10) as [Hlt|Hge].
  - simpl. rewrite andb_true_r. apply is_digit_spec. lia.
  - rewrite forallb_app, IH. simpl. rewrite andb_true_r.
    apply is_digit_spec. div_lia.
Qed.

(** The first digit of a positive number is not [0]. *)
Lemma decimal_digits_head fuel : forall n,
  0 < n -> n < 2 ^ N.of_nat fuel ->
  exists d ds, decimal_digits fuel n [] = d :: ds /\ 49 <= d <= 57.
Proof.
  induction fuel as [|fuel IH]; intros n Hpos Hn.
  - simpl in Hn. lia.
  - rewrite decimal_digits_step. destruct (N.ltb_spec n 10) as [Hlt|Hge].
    + exists (48 + n), []. split; [done|lia].
    + destruct (IH (n / 10)) as (d & ds & Heq & Hd).
      * div_lia.
      * rewrite Nat2N.inj_succ, N.pow_succ_r' in Hn. div_lia.
      * rewrite Heq. exists d, (ds ++ [48 + n mod 10]). done.
Qed.

Lemma N_toString_fuel n : n < 2 ^ N.of_nat (S (N.to_nat (N.log2 n))).
Proof.
  rewrite Nat2N.inj_succ, N2Nat.id.
  destruct (N.eq_dec n 0) as [->|Hn]; [done|].
  apply N.log2_spec. lia.
Qed.

Lemma N_toString_value n : digits_value 0 (N_toString n) = n.
Proof. apply decimal_digits_value, N_toString_fuel. Qed.

Lemma N_toString_all n : forallb is_digit (N_toString n) = true.
Proof. apply decimal_digits_all. Qed.

Lemma N_toString_head n :
  0 < n -> exists d ds, N_toString n = d :: ds /\ 49 <= d <= 57.
Proof. intros Hn. apply decimal_digits_head; [done|apply N_toString_fuel]. Qed.

Lemma span_digits_app ds rest :
  forallb is_digit ds = true -> no_digit_ahead rest ->
  span_digits (ds ++ rest) = (ds, rest).
Proof.
  intros Hds Hrest. induction ds as [|d ds IH]; cbn [app span_digits forallb] in *.
  - destruct rest as [|c rest]; [done|]. cbn [span_digits]. by rewrite Hrest.
  - apply andb_true_iff in Hds as [-> Hds]. by rewrite IH.
Qed.

Lemma N_toString_cons n :
  exists d ds, N_toString n = d :: ds /\ is_digit d = true.
Proof.
  destruct (N.eq_dec n 0) as [->|Hn].
  - by exists 48, [].
  - destruct (N_toString_head n) as (d & ds & Heq & Hd); [lia|].
    exists d, ds. split; [done|]. apply is_digit_spec. lia.
Qed.

Lemma parse_int_part_toString n rest :
  no_digit_ahead rest ->
  parse_int_part (N_toString n ++ rest) = Parsed (N_toString n) rest.
Proof.
  intros Hrest. destruct (N.eq_dec n 0) as [->|Hn]; [done|].
  pose proof (N_toString_all n) as Hall.
  destruct (N_toString_head n) as (d & ds & Heq & Hd); [lia|].
  rewrite Heq in *. cbn [app parse_int_part].
  destruct (N.eqb_spec d 48); [lia|].
  replace (is_digit d) with true by (symmetry; apply is_digit_spec; lia).
  change (d :: ds ++ rest) with ((d :: ds) ++ rest).
  by rewrite span_digits_app.
Qed.

Lemma number_end_no_digit rest : number_end rest -> no_digit_ahead rest.
Proof. destruct rest; simpl; tauto. Qed.

Lemma parse_frac_part_none rest :
  number_end rest -> parse_frac_part rest = Parsed [] rest.
Proof.
  destruct rest as [|c rest]; [done|]. intros (_ & Hc & _). simpl.
  by destruct (N.eqb_spec c 46).
Qed.

Lemma parse_exp_part_none rest :
  number_end rest -> parse_exp_part rest = Parsed 0%Z rest.
Proof.
  destruct rest as [|c rest]; [done|]. intros (_ & _ & He & HE). simpl.
  destruct (N.eqb_spec c 101); [done|]. by destruct (N.eqb_spec c 69).
Qed.

(** Reading back the text of an integer. *)
Lemma parse_number_toString z rest :
  number_end rest -> parse_number (Z_toString z ++ rest) = Parsed (JNum z) rest.
Proof.
  intros Hrest. unfold Z_toString, parse_number.
  destruct (Z.ltb_spec z 0) as [Hneg|Hpos].
  - cbn [app]. rewrite N.eqb_refl.
    rewrite parse_int_part_toString by by apply number_end_no_digit.
    rewrite parse_frac_part_none, parse_exp_part_none by done.
    rewrite app_nil_r, N_toString_value. unfold decimal_number. simpl.
    f_equal. f_equal. lia.
  - destruct (N_toString_cons (Z.to_N z)) as (d & ds & Heq & Hd).
    rewrite Heq. cbn [app].
    destruct (N.eqb_spec d 45) as [->|_]; [done|].
    change (d :: ds ++ rest) with ((d :: ds) ++ rest). rewrite <- Heq.
    rewrite parse_int_part_toString by by apply number_end_no_digit.
    rewrite parse_frac_part_none, parse_exp_part_none by done.
    rewrite app_nil_r, N_toString_value. unfold decimal_number. simpl.
    f_equal. f_equal. lia.
Qed.

End Decimal.

(** ** Strings as JSON text *)

Section Quote.

Lemma hex_value_digit d : d < 16 -> hex_value (hex_digit d) = Some d.
Proof.
  intros Hd. unfold hex_value, hex_digit, is_digit.
  destruct (N.ltb_spec d 10).
  - replace ((48 <=? 48 + d) && (48 + d <=? 57)) with true; [f_equal; lia|].
    symmetry. apply andb_true_iff. rewrite !N.leb_le. lia.
  - replace ((48 <=? 87 + d) && (87 + d <=? 57)) with false.
    + replace ((97 <=? 87 + d) && (87 + d <=? 102)) with true; [f_equal; lia|].
      symmetry. apply andb_true_iff. rewrite !N.leb_le. lia.
    + symmetry. apply andb_false_iff. rewrite !N.leb_gt. lia.
Qed.

Lemma parse_chars_raw c s :
  c <> 34 -> c <> 92 -> 32 <= c ->
  parse_chars (c :: s) =
  match parse_chars s with Parsed us rest => Parsed (c :: us) rest | r => r end.
Proof.
  intros H1 H2 H3. cbn [parse_chars].
  destruct (N.eqb_spec c 34); [done|]. destruct (N.eqb_spec c 92); [done|].
  destruct (N.ltb_spec c 32); [lia|]. done.
Qed.

Lemma parse_chars_unicode c s :
  c < 65536 ->
  parse_chars (unicode_escape c ++ s) =
  match parse_chars s with Parsed us rest => Parsed (c :: us) rest | r => r end.
Proof.
  intros Hc. unfold unicode_escape. cbn [app parse_chars].
  change (92 =? 34) with false. change (92 =? 92) with true.
  change (117 =? 34) with false. change (117 =? 92) with false.
  change (117 =? 47) with false. change (117 =? 98) with false.
  change (117 =? 102) with false. change (117 =? 110) with false.
  change (117 =? 114) with false. change (117 =? 116) with false.
  change (117 =? 117) with true. cbv iota.
  unfold hex4_value. rewrite !hex_value_digit by div_lia.
  replace (4096 * (c / 4096 mod 16) + 256 * (c / 256 mod 16)
           + 16 * (c / 16 mod 16) + c mod 16) with c by div_lia.
  done.
Qed.

Lemma parse_chars_quote_unit c s :
  parse_chars (quote_unit c ++ s) =
  match parse_chars s with Parsed us rest => Parsed (c :: us) rest | r => r end.
Proof.
  unfold quote_unit.
  destruct (N.eqb_spec c 8) as [->|?]; [done|].
  destruct (N.eqb_spec c 9) as [->|?]; [done|].
  destruct (N.eqb_spec c 10) as [->|?]; [done|].
  destruct (N.eqb_spec c 12) as [->|?]; [done|].
  destruct (N.eqb_spec c 13) as [->|?]; [done|].
  destruct (N.eqb_spec c 34) as [->|?]; [done|].
  destruct (N.eqb_spec c 92) as [->|?]; [done|].
  destruct (N.ltb_spec c 32).
  - apply parse_chars_unicode. lia.
  - by apply parse_chars_raw.
Qed.

Lemma surrogate_raw c :
  is_high_surrogate c = true \/ is_low_surrogate c = true ->
  c <> 34 /\ c <> 92 /\ 32 <= c /\ c < 65536.
Proof.
  unfold is_high_surrogate, is_low_surrogate.
  rewrite !andb_true_iff, !N.leb_le. lia.
Qed.

(** Reading back a quoted string, up to its closing quote. *)
Lemma parse_chars_quote_units s rest :
  parse_chars (quote_units s ++ 34 :: rest) = Parsed s rest.
Proof.
  remember (length s) as n eqn:Hn. revert s Hn.
  induction n as [n IH] using lt_wf_ind. intros s Hn.
  destruct s as [|c s]; [done|]. cbn [quote_units].
  destruct (is_high_surrogate c) eqn:Hhigh.
  - destruct (surrogate_raw c) as (? & ? & ? & ?); [by left|].
    destruct s as [|d s].
    + by rewrite parse_chars_unicode.
    + destruct (is_low_surrogate d) eqn:Hlow.
      * destruct (surrogate_raw d) as (? & ? & ? & ?); [by right|].
        cbn [app]. rewrite !parse_chars_raw by done.
        rewrite (IH (length s)); [done| |done]. simpl in Hn. lia.
      * rewrite <- app_assoc, parse_chars_unicode by done.
        rewrite (IH (length (d :: s))); [done| |done]. simpl in *. lia.
  - destruct (is_low_surrogate c) eqn:Hlow.
    + destruct (surrogate_raw c) as (? & ? & ? & ?); [by right|].
      rewrite <- app_assoc, parse_chars_unicode by done.
      rewrite (IH (length s)); [done| |done]. simpl in Hn. lia.
    + rewrite <- app_assoc, parse_chars_quote_unit.
      rewrite (IH (length s)); [done| |done]. simpl in Hn. lia.
Qed.

End Quote.

(** ** Objects of atoms as JSON text *)

Section Roundtrip.

Lemma Z_toString_head z :
  exists c t, Z_toString z = c :: t /\ (c = 45 \/ is_digit c = true).
Proof.
  unfold Z_toString. destruct (z <? 0)%Z.
  - eexists _, _. split; [done|by left].
  - destruct (N_toString_cons (Z.to_N z)) as (d & ds & -> & Hd).
    eexists _, _. split; [done|by right].
Qed.

Lemma quote_app s rest : quote s ++ rest = 34 :: quote_units s ++ 34 :: rest.
Proof. unfold quote. by rewrite <- app_comm_cons, <- app_assoc. Qed.

Lemma parse_value_atom fuel v rest :
  atom v -> number_end rest ->
  parse_value (S fuel) (JSON_stringify v ++ rest) = Parsed v rest.
Proof.
  intros Hv Hrest. destruct v as [|[]|z| | | |]; try done.
  - destruct (Z_toString_head z) as (c & t & Heq & Hc).
    cbn [JSON_stringify parse_value]. rewrite Heq. cbn [app].
    assert (skip_ws (c :: t ++ rest) = c :: t ++ rest) as ->.
    { cbn [skip_ws]. unfold is_ws.
      destruct Hc as [->|Hc%is_digit_spec]; [done|].
      destruct (N.eqb_spec c 32); [lia|]. destruct (N.eqb_spec c 9); [lia|].
      destruct (N.eqb_spec c 10); [lia|]. by destruct (N.eqb_spec c 13); [lia|]. }
    assert (c = 45 \/ 48 <= c <= 57) as Hc'.
    { destruct Hc as [->|Hc%is_digit_spec]; [by left|by right]. }
    destruct (N.eqb_spec c 123); [lia|]. destruct (N.eqb_spec c 91); [lia|].
    destruct (N.eqb_spec c 34); [lia|]. destruct (N.eqb_spec c 110); [lia|].
    destruct (N.eqb_spec c 116); [lia|]. destruct (N.eqb_spec c 102); [lia|].
    change (c :: t ++ rest) with ((c :: t) ++ rest). rewrite <- Heq.
    by apply parse_number_toString.
  - cbn [JSON_stringify]. rewrite quote_app. cbn [parse_value skip_ws].
    change (is_ws 34) with false. cbv iota.
    change (34 =? 123) with false. change (34 =? 91) with false.
    change (34 =? 34) with true. cbv iota.
    by rewrite parse_chars_quote_units.
Qed.

(** One property, read by [parse_members] up to the value's end. *)
Lemma parse_members_step fuel k v acc rest :
  atom v -> number_end rest ->
  parse_members (S (S fuel)) (member_text (k, v) ++ rest) acc =
  match skip_ws rest with
  | c :: rest' =>
      if c =? 44 then parse_members (S fuel) rest' (obj_set k v acc)
      else if c =? 125 then Parsed (JObj (obj_set k v acc)) rest'
      else SyntaxError
  | [] => SyntaxError
  end.
Proof.
  intros Hv Hrest. unfold member_text. cbn [fst snd].
  rewrite <- app_assoc, quote_app. cbn [parse_members skip_ws].
  change (is_ws 34) with false. cbv iota.
  change (34 =? 34) with true. cbv iota.
  rewrite parse_chars_quote_units. cbn [app skip_ws].
  change (is_ws 58) with false. cbv iota.
  change (58 =? 58) with true. cbv iota.
  by rewrite parse_value_atom.
Qed.

Lemma parse_members_text fields : forall fuel acc rest,
  fields <> [] -> Forall (fun kv => atom (snd kv)) fields ->
  (length fields < fuel)%nat ->
  parse_members fuel (join_comma (map member_text fields) ++ 125 :: rest) acc =
  Parsed (JObj (fold_left (fun a kv => obj_set (fst kv) (snd kv) a) fields acc)) rest.
Proof.
  induction fields as [|[k v] fields IH]; intros fuel acc rest Hne Hatoms Hfuel; [done|].
  apply Forall_cons in Hatoms as [Hv Hatoms].
  destruct fuel as [|[|fuel]]; [simpl in Hfuel; lia..|].
  destruct fields as [|kv' fields].
  - cbn [map join_comma fold_left].
    rewrite parse_members_step; [done|done|by simpl].
  - change (join_comma (map member_text ((k, v) :: kv' :: fields)))
      with (member_text (k, v) ++ 44 :: join_comma (map member_text (kv' :: fields))).
    rewrite <- app_assoc. cbn [app].
    rewrite parse_members_step; [|done|by simpl].
    cbn [skip_ws]. change (is_ws 44) with false. cbv iota.
    change (44 =? 44) with true. cbv iota.
    rewrite IH; [done|done|done|]. simpl in *. lia.
Qed.

Lemma join_comma_cons x y items :
  join_comma (x :: y :: items) = x ++ 44 :: join_comma (y :: items).
Proof. done. Qed.

Lemma member_text_head kv : exists t, member_text kv = 34 :: t.
Proof. unfold member_text. rewrite quote_app. by eexists. Qed.

Lemma length_join_comma fields :
  (length fields <= length (join_comma (map member_text fields)))%nat.
Proof.
  induction fields as [|kv [|kv' fields] IH]; [done| |].
  - destruct (member_text_head kv) as [t Ht]. cbn [map join_comma].
    rewrite Ht. simpl. lia.
  - cbn [map] in *. rewrite join_comma_cons, length_app.
    cbn [length] in *. lia.
Qed.

Lemma jsstring_eqb_eq a b : jsstring_eqb a b = true <-> a = b.
Proof. unfold jsstring_eqb. apply bool_decide_eq_true. Qed.

Lemma jsstring_eqb_neq a b : jsstring_eqb a b = false <-> a <> b.
Proof. unfold jsstring_eqb. apply bool_decide_eq_false. Qed.

Lemma obj_set_fresh k v fields :
  k ∉ map fst fields -> obj_set k v fields = fields ++ [(k, v)].
Proof.
  induction fields as [|[k' v'] fields IH]; intros Hk; [done|].
  cbn [map fst] in Hk. apply not_elem_of_cons in Hk as [Hne Hk].
  cbn [obj_set app]. replace (jsstring_eqb k' k) with false.
  - by rewrite IH.
  - symmetry. by apply jsstring_eqb_neq.
Qed.

Lemma obj_set_all fields : forall acc,
  NoDup (map fst (acc ++ fields)) ->
  fold_left (fun a kv => obj_set (fst kv) (snd kv) a) fields acc = acc ++ fields.
Proof.
  induction fields as [|[k v] fields IH]; intros acc Hnd.
  - by rewrite app_nil_r.
  - cbn [fold_left fst snd]. rewrite obj_set_fresh.
    + rewrite IH; rewrite <- app_assoc; done.
    + rewrite map_app in Hnd. apply NoDup_app in Hnd as (_ & Hdis & _).
      intros Hin. apply (Hdis k Hin). cbn [map fst]. left.
Qed.

(** [JSON.parse] reads back what [JSON.stringify] writes for an object of
    atoms under distinct names. *)
Lemma JSON_parse_stringify fields :
  Forall (fun kv => atom (snd kv)) fields -> NoDup (map fst fields) ->
  JSON_parse (JSON_stringify (JObj fields)) = Some (JObj fields).
Proof.
  intros Hatoms Hnd. unfold JSON_parse.
  change (JSON_stringify (JObj fields))
    with (123 :: join_comma (map member_text fields) ++ [125]).
  set (text := 123 :: _).
  replace (2 * length text + 2)%nat with (S (S (2 * length text))) by lia.
  subst text. cbn [parse_value skip_ws].
  change (is_ws 123) with false. cbv iota.
  change (123 =? 123) with true. cbv iota.
  destruct fields as [|kv fields]; [done|].
  assert (exists t, join_comma (map member_text (kv :: fields)) = 34 :: t) as [t Ht].
  { destruct fields as [|kv' fields].
    - apply member_text_head.
    - cbn [map]. rewrite join_comma_cons.
      destruct (member_text_head kv) as [t ->]. by eexists. }
  pose proof (length_join_comma (kv :: fields)) as Hlen.
  rewrite Ht at 1. cbn [app skip_ws]. change (is_ws 34) with false. cbv iota.
  change (34 =? 125) with false. cbv iota.
  rewrite parse_members_text; [|done|done|].
  - rewrite (obj_set_all _ []); done.
  - set (text := join_comma _) in *. cbn [length] in *.
    rewrite length_app. lia.
Qed.

End Roundtrip.

(** ** [JSON.parse] gives a verdict on every text *)

Section Fuel.

Lemma skip_ws_length s : (length (skip_ws s) <= length s)%nat.
Proof.
  induction s as [|c s IH]; [done|]. cbn [skip_ws].
  destruct (is_ws c); simpl; lia.
Qed.

Lemma span_digits_length s : (length (span_digits s).2 <= length s)%nat.
Proof.
  induction s as [|c s IH]; [done|]. cbn [span_digits].
  destruct (is_digit c); [|done].
  destruct (span_digits s) as [ds rest]. simpl in *. lia.
Qed.

Lemma consumes_shift {A B} strict s s' (r : presult A) (f : A -> B) :
  (length s' <= length s)%nat -> consumes strict s' r ->
  consumes strict s match r with
                    | Parsed a rest => Parsed (f a) rest
                    | SyntaxError => SyntaxError
                    | OutOfFuel => OutOfFuel
                    end.
Proof. destruct r, strict; simpl; try done; lia. Qed.

Lemma parse_chars_consumes s : consumes true s (parse_chars s).
Proof.
  remember (length s) as n eqn:Hn. revert s Hn.
  induction n as [n IH] using lt_wf_ind. intros s ->.
  assert (forall s' u, (length s' < length s)%nat ->
            consumes true s match parse_chars s' with
                            | Parsed us rest => Parsed (u :: us) rest
                            | r => r
                            end) as Hrec.
  { intros s' u Hlt. specialize (IH _ Hlt s' eq_refl).
    destruct (parse_chars s'); simpl in *; try done; lia. }
  destruct s as [|c s]; [done|]. cbn [parse_chars].
  destruct (c =? 34); [simpl; lia|].
  destruct (c =? 92).
  - destruct s as [|e s]; [done|]. cbv zeta.
    do 8 (match goal with
          | |- context [if ?b then _ else _] =>
              destruct b; [apply Hrec; simpl; lia|]
          end).
    destruct (e =? 117); [|done].
    destruct s as [|h1 [|h2 [|h3 [|h4 s]]]]; try done.
    destruct (hex4_value h1 h2 h3 h4); [|done]. apply Hrec. simpl. lia.
  - destruct (c <? 32); [done|]. apply Hrec. simpl. lia.
Qed.

Lemma parse_int_part_consumes s : consumes true s (parse_int_part s).
Proof.
  destruct s as [|c s]; [done|]. cbn [parse_int_part].
  destruct (c =? 48); [simpl; lia|].
  destruct (is_digit c) eqn:Hc; [|done].
  pose proof (span_digits_length s) as Hlen.
  cbn [span_digits]. rewrite Hc. destruct (span_digits s) as [ds rest].
  simpl in *. lia.
Qed.

Lemma parse_frac_part_consumes s : consumes false s (parse_frac_part s).
Proof.
  destruct s as [|c s]; [simpl; lia|]. cbn [parse_frac_part].
  destruct (c =? 46); [|simpl; lia].
  pose proof (span_digits_length s) as Hlen.
  destruct (span_digits s) as [[|d ds] rest]; [done|]. simpl in *. lia.
Qed.

Lemma parse_exp_part_consumes s : consumes false s (parse_exp_part s).
Proof.
  destruct s as [|c s]; [simpl; lia|]. cbn [parse_exp_part].
  destruct ((c =? 101) || (c =? 69)); [|simpl; lia].
  assert (forall t, (length t <= length s)%nat ->
            consumes false (c :: s)
              match span_digits t with
              | ([], _) => SyntaxError
              | (d :: ds, rest) =>
                  Parsed (if true then (- Z.of_N (digits_value 0 (d :: ds)))%Z
                          else Z.of_N (digits_value 0 (d :: ds))) rest
              end) as Hspan.
  { intros t Ht. pose proof (span_digits_length t) as Hlen.
    destruct (span_digits t) as [[|d ds] rest]; [done|]. simpl in *. lia. }
  destruct s as [|sign t].
  - done.
  - pose proof (span_digits_length t) as Hlen.
    pose proof (span_digits_length (sign :: t)) as Hlen'.
    destruct (sign =? 45); [|destruct (sign =? 43)].
    + destruct (span_digits t) as [[|d ds] rest]; [done|]. simpl in *. lia.
    + destruct (span_digits t) as [[|d ds] rest]; [done|]. simpl in *. lia.
    + destruct (span_digits (sign :: t)) as [[|d ds] rest]; [done|]. simpl in *. lia.
Qed.

Lemma parse_number_consumes s : consumes true s (parse_number s).
Proof.
  unfold parse_number.
  assert (forall neg s1, (length s1 <= length s)%nat ->
            consumes true s
              match parse_int_part s1 with
              | Parsed ids s2 =>
                  match parse_frac_part s2 with
                  | Parsed fds s3 =>
                      match parse_exp_part s3 with
                      | Parsed x s4 =>
                          let m := Z.of_N (digits_value 0 (ids ++ fds)) in
                          Parsed (decimal_number (if neg : bool then (- m)%Z else m)
                                    (x - Z.of_nat (length fds))) s4
                      | SyntaxError => SyntaxError
                      | OutOfFuel => OutOfFuel
                      end
                  | SyntaxError => SyntaxError
                  | OutOfFuel => OutOfFuel
                  end
              | SyntaxError => SyntaxError
              | OutOfFuel => OutOfFuel
              end) as Hbody.
  { intros neg s1 Hs1.
    pose proof (parse_int_part_consumes s1) as H1.
    destruct (parse_int_part s1) as [ids s2| |]; try done.
    pose proof (parse_frac_part_consumes s2) as H2.
    destruct (parse_frac_part s2) as [fds s3| |]; try done.
    pose proof (parse_exp_part_consumes s3) as H3.
    destruct (parse_exp_part s3) as [x s4| |]; try done.
    simpl in *. lia. }
  destruct s as [|c t]; [done|].
  destruct (c =? 45); [apply (Hbody true t)|apply (Hbody false (c :: t))]; simpl; lia.
Qed.

Lemma parse_keyword_consumes w v c s :
  w <> [] -> consumes true (c :: s) (parse_keyword w v (c :: s)).
Proof.
  intros Hw. unfold parse_keyword. destruct (startsWith w (c :: s)); [|done].
  destruct w as [|a w]; [done|]. cbn [consumes length drop].
  rewrite length_drop. lia.
Qed.

Lemma consumes_weaken {A} strict s s' (r : presult A) :
  (length s' <= length s)%nat -> consumes strict s' r -> consumes strict s r.
Proof. destruct r, strict; simpl; try done; lia. Qed.

(** Fuel above twice the length of the text is never used up. *)
Lemma parse_fuel fuel :
  (forall s, (2 * length s < fuel)%nat -> consumes true s (parse_value fuel s))
  /\ (forall s acc, (2 * length s + 1 < fuel)%nat ->
        consumes true s (parse_elements fuel s acc))
  /\ (forall s acc, (2 * length s + 1 < fuel)%nat ->
        consumes true s (parse_members fuel s acc)).
Proof.
  induction fuel as [|fuel (IHv & IHe & IHm)]; [repeat split; intros; lia|].
  split; [|split].
  - intros s Hfuel. cbn [parse_value].
    pose proof (skip_ws_length s) as Hs.
    destruct (skip_ws s) as [|c s']; [done|]. cbn [length] in Hs.
    pose proof (skip_ws_length s') as Hs'.
    destruct (c =? 123).
    { destruct (skip_ws s') as [|c' rest]; [done|]. cbn [length] in Hs'.
      destruct (c' =? 125); [simpl; lia|].
      apply (consumes_weaken _ _ s'); [lia|]. apply IHm. lia. }
    destruct (c =? 91).
    { destruct (skip_ws s') as [|c' rest]; [done|]. cbn [length] in Hs'.
      destruct (c' =? 93); [simpl; lia|].
      apply (consumes_weaken _ _ s'); [lia|]. apply IHe. lia. }
    destruct (c =? 34).
    { apply (consumes_shift true s s' _ JStr); [lia|]. apply parse_chars_consumes. }
    destruct (c =? 110).
    { apply (consumes_weaken _ _ (c :: s')); [simpl; lia|].
      by apply parse_keyword_consumes. }
    destruct (c =? 116).
    { apply (consumes_weaken _ _ (c :: s')); [simpl; lia|].
      by apply parse_keyword_consumes. }
    destruct (c =? 102).
    { apply (consumes_weaken _ _ (c :: s')); [simpl; lia|].
      by apply parse_keyword_consumes. }
    apply (consumes_weaken _ _ (c :: s')); [simpl; lia|].
    apply parse_number_consumes.
  - intros s acc Hfuel. cbn [parse_elements].
    pose proof (IHv s ltac:(lia)) as Hv.
    destruct (parse_value fuel s) as [v rest| |]; try done. cbn [consumes] in Hv.
    pose proof (skip_ws_length rest) as Hrest.
    destruct (skip_ws rest) as [|c rest']; [done|]. cbn [length] in Hrest.
    destruct (c =? 44).
    { apply (consumes_weaken _ _ rest'); [lia|]. apply IHe. lia. }
    destruct (c =? 93); [simpl; lia|done].
  - intros s acc Hfuel. cbn [parse_members].
    pose proof (skip_ws_length s) as Hs.
    destruct (skip_ws s) as [|q s1]; [done|]. cbn [length] in Hs.
    destruct (q =? 34); [|done].
    pose proof (parse_chars_consumes s1) as Hk.
    destruct (parse_chars s1) as [k s2| |]; try done. cbn [consumes] in Hk.
    pose proof (skip_ws_length s2) as Hs2.
    destruct (skip_ws s2) as [|colon s3]; [done|]. cbn [length] in Hs2.
    destruct (colon =? 58); [|done].
    pose proof (IHv s3 ltac:(lia)) as Hv.
    destruct (parse_value fuel s3) as [v rest| |]; try done. cbn [consumes] in Hv.
    pose proof (skip_ws_length rest) as Hrest.
    destruct (skip_ws rest) as [|c rest']; [done|]. cbn [length] in Hrest.
    destruct (c =? 44).
    { apply (consumes_weaken _ _ rest'); [lia|]. apply IHm. lia. }
    destruct (c =? 125); [simpl; lia|done].
Qed.

(** [JSON_parse] never fails for lack of fuel: [None] is a [SyntaxError]. *)
Lemma parse_value_fuel text :
  parse_value (2 * length text + 2) text <> OutOfFuel.
Proof.
  pose proof (proj1 (parse_fuel (2 * length text + 2)) text ltac:(lia)) as H.
  intros Heq. by rewrite Heq in H.
Qed.

End Fuel.

(** ** The QR codec *)

Section QRFacts.
Import QR.

Lemma parse_value_Q fuel s : parse_value (S fuel) (81 :: s) = SyntaxError.
Proof. reflexivity. Qed.

Lemma JSON_parse_Q s : JSON_parse (81 :: s) = None.
Proof.
  unfold JSON_parse. generalize (length (81 :: s)); intros n.
  replace (2 * n + 2)%nat with (S (S (2 * n))) by lia.
  by rewrite parse_value_Q.
Qed.

Lemma parse_structured_Q s : parse_structured (81 :: s) = None.
Proof. unfold parse_structured. by rewrite JSON_parse_Q. Qed.

Lemma createProfileQRData_fields profileId profileName timestamp :
  createProfileQRData profileId profileName timestamp =
  JSON_stringify (JObj (qr_fields profileId profileName timestamp)).
Proof. reflexivity. Qed.

Lemma qr_fields_NoDup profileId profileName timestamp :
  NoDup (map fst (qr_fields profileId profileName timestamp)).
Proof. apply (bool_decide_unpack _). by vm_compute. Qed.

(** What [JSON.parse] makes of a payload written by [createProfileQRData]. *)
Lemma JSON_parse_createProfileQRData profileId profileName timestamp :
  atom profileId ->
  JSON_parse (createProfileQRData profileId profileName timestamp) =
  Some (JObj (qr_fields profileId profileName timestamp)).
Proof.
  intros Hid. rewrite createProfileQRData_fields.
  apply JSON_parse_stringify; [|apply qr_fields_NoDup].
  repeat constructor. done.
Qed.

Lemma parseQRData_createProfileQRData profileId profileName timestamp :
  atom profileId ->
  parseQRData (createProfileQRData profileId profileName timestamp) =
  if truthy (Some profileId)
  then Structured (JObj (qr_fields profileId profileName timestamp))
  else Invalid (js "Invalid QR code format").
Proof.
  intros Hid. unfold parseQRData, parse_structured.
  rewrite JSON_parse_createProfileQRData by done.
  change (prop _ (js "type")) with (Some (JStr (js "profile"))).
  change (prop _ (js "id")) with (Some profileId).
  change (prop _ (js "app")) with (Some (JStr (js "lansia-health"))).
  change (truthy (Some (JStr (js "profile")))) with true.
  change (strict_eq_string _ _) with true.
  cbn [qr_fields negb orb]. by destruct (truthy (Some profileId)).
Qed.

(** C4, as stated, fails: a profile id of [0] is written into the payload,
    and [parseQRData] rejects the payload it is given back. *)
Lemma decode_encode_id_zero :
  parseQRData (createProfileQRData (JNum 0) (js "Siti") (js "2024-01-01T00:00:00.000Z"))
  = Invalid (js "Invalid QR code format")
  /\ ~ exists data,
      parseQRData (createProfileQRData (JNum 0) (js "Siti") (js "2024-01-01T00:00:00.000Z"))
      = Structured data.
Proof.
  assert (parseQRData
            (createProfileQRData (JNum 0) (js "Siti") (js "2024-01-01T00:00:00.000Z"))
          = Invalid (js "Invalid QR code format")) as Heq by by vm_compute.
  split; [done|]. intros [data Hdata]. by rewrite Heq in Hdata.
Qed.

(** C4 (amended): for every profile id that is a truthy atom (a non-zero
    integer, a non-empty string, [true]) and every profile name,
    [parseQRData (createProfileQRData id name)] is Structured, and the
    decoded object carries the same id and the same name. *)
Theorem decode_encode_truthy_id profileId profileName timestamp :
  atom profileId -> truthy (Some profileId) = true ->
  exists data,
    parseQRData (createProfileQRData profileId profileName timestamp) = Structured data
    /\ data = JObj (qr_fields profileId profileName timestamp)
    /\ prop data (js "id") = Some profileId
    /\ prop data (js "name") = Some (JStr profileName).
Proof.
  intros Hatom Htruthy. eexists. split; [|done].
  by rewrite parseQRData_createProfileQRData, Htruthy.
Qed.

Lemma decode_encode_truthy_id_witness :
  exists data,
    parseQRData (createProfileQRData (JNum 7) (js "Siti") (js "2024-01-01T00:00:00.000Z"))
    = Structured data
    /\ data = JObj (qr_fields (JNum 7) (js "Siti") (js "2024-01-01T00:00:00.000Z"))
    /\ prop data (js "id") = Some (JNum 7)
    /\ prop data (js "name") = Some (JStr (js "Siti")).
Proof.
  apply (decode_encode_truthy_id (JNum 7) (js "Siti") (js "2024-01-01T00:00:00.000Z")).
  - exact I.
  - reflexivity.
Defined.

(** C10: a text that parses as JSON with [app] equal to ["lansia-health"]
    but a falsy [id] or a falsy [type] is Invalid, presence being tested by
    truthiness; hence [parseQRData (createProfileQRData 0 name)] is Invalid
    for every name. *)
Theorem falsy_id_or_type_invalid :
  (forall qrString data,
     JSON_parse qrString = Some data ->
     strict_eq_string (prop data (js "app")) (js "lansia-health") = true ->
     truthy (prop data (js "id")) = false \/ truthy (prop data (js "type")) = false ->
     parseQRData qrString = Invalid (js "Invalid QR code format"))
  /\ (forall profileName timestamp,
        parseQRData (createProfileQRData (JNum 0) profileName timestamp)
        = Invalid (js "Invalid QR code format")).
Proof.
  split.
  - intros qrString data Hparse Happ Hfalsy.
    unfold parseQRData, parse_structured. rewrite Hparse.
    destruct data; try done;
      destruct Hfalsy as [-> | ->]; by rewrite ?orb_true_r.
  - intros profileName timestamp.
    by rewrite parseQRData_createProfileQRData.
Qed.

Lemma falsy_id_or_type_invalid_witness :
  parseQRData
    (JSON_stringify (JObj [(js "type", JStr (js "profile")); (js "id", JStr []);
                           (js "app", JStr (js "lansia-health"))]))
  = Invalid (js "Invalid QR code format").
Proof.
  apply (proj1 falsy_id_or_type_invalid _
           (JObj [(js "type", JStr (js "profile")); (js "id", JStr []);
                  (js "app", JStr (js "lansia-health"))])).
  - vm_compute. reflexivity.
  - reflexivity.
  - left. reflexivity.
Defined.

(** C5: [parseQRData] on ["QR42"], ["{}"] and ["not a payload"]; and any
    text made of ["QR"] and one or more digits is not JSON, and is Legacy
    with the digits as id. *)
Theorem decode_legacy :
  parseQRData (js "QR42") = Legacy (js "42")
  /\ (exists error, parseQRData (js "{}") = Invalid error)
  /\ (exists error, parseQRData (js "not a payload") = Invalid error)
  /\ (forall digits,
        digits <> [] -> forallb is_digit digits = true ->
        parse_structured (js "QR" ++ digits) = None
        /\ parseQRData (js "QR" ++ digits) = Legacy digits).
Proof.
  split; [by vm_compute|]. split; [eexists; by vm_compute|].
  split; [eexists; by vm_compute|].
  intros digits Hne Hdigits.
  change (js "QR" ++ digits) with (81 :: 82 :: digits).
  split; [apply parse_structured_Q|].
  unfold parseQRData. rewrite parse_structured_Q.
  destruct digits as [|d digits]; [done|].
  cbn [legacy_exact forallb] in *.
  change (81 =? 81) with true. change (82 =? 82) with true.
  cbn [andb]. by rewrite Hdigits.
Qed.

Lemma decode_legacy_witness :
  parse_structured (js "QR" ++ js "2024") = None
  /\ parseQRData (js "QR" ++ js "2024") = Legacy (js "2024").
Proof.
  apply (proj2 (proj2 (proj2 decode_legacy)) (js "2024")).
  - discriminate.
  - reflexivity.
Defined.

(** Whatever [parseQRData] accepts, [validateQRFormat] accepts. *)
Lemma legacy_exact_prefix s : legacy_exact s = true -> legacy_prefix s = true.
Proof.
  unfold legacy_exact, legacy_prefix. destruct s as [|q [|r [|d rest]]]; try done.
  by destruct (q =? 81), (r =? 82), (is_digit d).
Qed.

Lemma accepted_validates qrString :
  accepted (parseQRData qrString) = true ->
  validateQRFormat qrString = Some (JBool true).
Proof.
  assert (accepted (if legacy_exact qrString
                    then Legacy (replace (js "QR") [] qrString)
                    else Invalid (js "Invalid QR code data")) = true ->
          Some (JBool (legacy_prefix qrString)) = Some (JBool true)) as Hlegacy.
  { destruct (legacy_exact qrString) eqn:Hexact; [|done].
    by rewrite legacy_exact_prefix. }
  unfold parseQRData, parse_structured, validateQRFormat, validate_structured.
  destruct qrString as [|c qrString]; [done|].
  destruct (JSON_parse (c :: qrString)) as [data|]; [|done].
  destruct (truthy (prop data (js "type"))),
           (truthy (prop data (js "id"))),
           (strict_eq_string (prop data (js "app")) (js "lansia-health"));
    destruct data; done.
Qed.

(** C2 at ["QR42abc"]: [validateQRFormat] returns [true] for a text that
    [parseQRData] rejects.  The two legacy patterns differ: [/^QR\d+$/] in
    [parseQRData], [/^QR\d+/] in [validateQRFormat]. *)
Theorem validate_accepts_rejected_text :
  validateQRFormat (js "QR42abc") = Some (JBool true)
  /\ parseQRData (js "QR42abc") = Invalid (js "Invalid QR code data")
  /\ accepted (parseQRData (js "QR42abc")) = false.
Proof. by vm_compute. Qed.

End QRFacts.

(** ** The rate limiter *)

Section Limiter.
Import Auth.
Open Scope Z_scope.

Lemma filter_all {A} (P : A -> Prop) `{!forall x, Decision (P x)} (l : list A) :
  Forall P l -> filter P l = l.
Proof.
  induction 1 as [|x l Hx _ IH]; [done|]. by rewrite filter_cons_True, IH.
Qed.

Lemma Forall_filter_same {A} (P : A -> Prop) `{!forall x, Decision (P x)} (l : list A) :
  Forall P (filter P l).
Proof. apply Forall_forall. intros x Hx. by apply list_elem_of_filter in Hx as [? _]. Qed.

Lemma filter_full_length {A} (P : A -> Prop) `{!forall x, Decision (P x)} (l : list A) :
  (length l <= length (filter P l))%nat -> filter P l = l.
Proof.
  induction l as [|x l IH]; [done|]. intros Hlen.
  destruct (decide (P x)) as [Hx|Hx].
  - rewrite filter_cons_True in * by done. f_equal. apply IH. simpl in Hlen. lia.
  - rewrite filter_cons_False in Hlen by done.
    pose proof (length_filter P l). simpl in Hlen. lia.
Qed.

Lemma attempts_insert (key : jsstring) (l : list Z) (store : gmap jsstring (list Z)) :
  attempts key (<[key := l]> store) = l.
Proof. unfold attempts. by rewrite lookup_insert_eq. Qed.

Lemma attempts_insert_ne (key key' : jsstring) (l : list Z)
    (store : gmap jsstring (list Z)) :
  key <> key' -> attempts key' (<[key := l]> store) = attempts key' store.
Proof. intros Hne. unfold attempts. by rewrite lookup_insert_ne. Qed.

Lemma limit_attempt_unfold key now store :
  limit_attempt key now store =
  let recent := filter (in_window now) (attempts key store) in
  if decide (maxAttempts <= length recent)%nat then (false, store)
  else (true, <[key := recent ++ [now]]> store).
Proof. reflexivity. Qed.

(** The decision of one call: prune, test, then record or deny. *)
Lemma limit_attempt_spec key now store :
  let recent := filter (in_window now) (attempts key store) in
  ((length recent < maxAttempts)%nat ->
     limit_attempt key now store = (true, <[key := recent ++ [now]]> store))
  /\ ((maxAttempts <= length recent)%nat ->
        limit_attempt key now store = (false, store)).
Proof.
  rewrite limit_attempt_unfold. cbn zeta.
  split; intros Hlen; case_decide; done || lia.
Qed.

Lemma limit_attempt_admit key now store l :
  attempts key store = l -> Forall (in_window now) l -> (length l < maxAttempts)%nat ->
  limit_attempt key now store = (true, <[key := l ++ [now]]> store).
Proof.
  intros Hl Hall Hlen.
  destruct (limit_attempt_spec key now store) as [Hadmit _].
  rewrite Hl, filter_all in Hadmit by done. by apply Hadmit.
Qed.

Lemma limit_attempt_deny key now store l :
  attempts key store = l -> Forall (in_window now) l -> (maxAttempts <= length l)%nat ->
  limit_attempt key now store = (false, store).
Proof.
  intros Hl Hall Hlen.
  destruct (limit_attempt_spec key now store) as [_ Hdeny].
  rewrite Hl, filter_all in Hdeny by done. by apply Hdeny.
Qed.

(** The middleware answers 429 exactly when the attempt is denied. *)
Lemma sensitiveOperationLimit_attempt ip user now store :
  sensitiveOperationLimit ip user now store =
  let outcome := limit_attempt (limit_key ip user) now store in
  (if outcome.1 then None else Some too_many, outcome.2).
Proof.
  unfold sensitiveOperationLimit.
  by destruct (limit_attempt (limit_key ip user) now store).
Qed.

Example sixth_login_attempt_limited :
  let store :=
    (limit_run [(limit_key (js "10.0.0.1") None, 0); (limit_key (js "10.0.0.1") None, 10);
                (limit_key (js "10.0.0.1") None, 20); (limit_key (js "10.0.0.1") None, 30);
                (limit_key (js "10.0.0.1") None, 40)] ∅).2 in
  (sensitiveOperationLimit (js "10.0.0.1") None 50 store).1 = Some too_many.
Proof. by vm_compute. Qed.

(** C3: from a state with no attempt recorded for the key, five calls within
    the window are admitted, the sixth is denied, and a call made once the
    window has elapsed from the first attempt is admitted again; each call
    counts the attempts younger than the window, and records the new one
    exactly when fewer than five remain. *)
Theorem limiter_five_then_deny key store t1 t2 t3 t4 t5 t6 t7 :
  attempts key store = [] ->
  t1 <= t2 <= t3 -> t3 <= t4 <= t5 -> t5 <= t6 ->
  t6 - t1 < windowMs -> windowMs <= t7 - t1 ->
  (limit_run [(key, t1); (key, t2); (key, t3); (key, t4); (key, t5); (key, t6); (key, t7)]
             store).1
  = [true; true; true; true; true; false; true]
  /\ forall key' now store',
       let recent := filter (in_window now) (attempts key' store') in
       limit_attempt key' now store' =
       if decide (length recent < maxAttempts)%nat
       then (true, <[key' := recent ++ [now]]> store')
       else (false, store').
Proof.
  intros Hempty H123 H345 H56 Hin Hout. split.
  - cbn [limit_run].
    rewrite (limit_attempt_admit key t1 store []); [|done|done|unfold maxAttempts; simpl; lia].
    rewrite (limit_attempt_admit key t2 _ [t1]);
      [|apply attempts_insert|repeat constructor; unfold in_window; lia|unfold maxAttempts; simpl; lia].
    rewrite (limit_attempt_admit key t3 _ [t1; t2]);
      [|apply attempts_insert|repeat constructor; unfold in_window; lia|unfold maxAttempts; simpl; lia].
    rewrite (limit_attempt_admit key t4 _ [t1; t2; t3]);
      [|apply attempts_insert|repeat constructor; unfold in_window; lia|unfold maxAttempts; simpl; lia].
    rewrite (limit_attempt_admit key t5 _ [t1; t2; t3; t4]);
      [|apply attempts_insert|repeat constructor; unfold in_window; lia|unfold maxAttempts; simpl; lia].
    rewrite (limit_attempt_deny key t6 _ [t1; t2; t3; t4; t5]);
      [|apply attempts_insert|repeat constructor; unfold in_window; lia|unfold maxAttempts; simpl; lia].
    cbn [app].
    match goal with
    | |- context [limit_attempt key t7 ?st] =>
        destruct (limit_attempt_spec key t7 st) as [Hadmit _]
    end.
    rewrite attempts_insert in Hadmit.
    rewrite filter_cons_False in Hadmit by (unfold in_window; lia).
    rewrite Hadmit; [done|].
    pose proof (length_filter (in_window t7) [t2; t3; t4; t5]) as Hle.
    simpl in Hle. unfold maxAttempts. lia.
  - intros key' now store'. cbn zeta.
    destruct (limit_attempt_spec key' now store') as [Hadmit Hdeny].
    case_decide; [by apply Hadmit|apply Hdeny; lia].
Qed.

Lemma limiter_five_then_deny_witness :
  (limit_run [(js "10.0.0.1_anonymous", 0); (js "10.0.0.1_anonymous", 1000);
              (js "10.0.0.1_anonymous", 2000); (js "10.0.0.1_anonymous", 3000);
              (js "10.0.0.1_anonymous", 4000); (js "10.0.0.1_anonymous", 5000);
              (js "10.0.0.1_anonymous", 900000)] ∅).1
  = [true; true; true; true; true; false; true].
Proof.
  apply (limiter_five_then_deny (js "10.0.0.1_anonymous") ∅
           0 1000 2000 3000 4000 5000 900000).
  - reflexivity.
  - lia.
  - lia.
  - lia.
  - unfold windowMs. lia.
  - unfold windowMs. lia.
Defined.

Lemma limit_run_app calls1 calls2 store :
  limit_run (calls1 ++ calls2) store =
  let '(answers1, store1) := limit_run calls1 store in
  let '(answers2, store2) := limit_run calls2 store1 in
  (answers1 ++ answers2, store2).
Proof.
  revert store. induction calls1 as [|[key now] calls1 IH]; intros store.
  - cbn [app limit_run]. by destruct (limit_run calls2 store).
  - cbn [app limit_run]. destruct (limit_attempt key now store) as [admitted store'].
    rewrite IH. destruct (limit_run calls1 store') as [answers1 store1].
    by destruct (limit_run calls2 store1).
Qed.

Lemma bounded_empty : bounded ∅.
Proof. intros key. unfold attempts. rewrite lookup_empty. simpl. lia. Qed.

Lemma not_after_empty T : not_after T ∅.
Proof. intros key. unfold attempts. by rewrite lookup_empty. Qed.

(** What one call leaves under its own key. *)
Lemma limit_attempt_own_key key now store :
  bounded store ->
  let store' := (limit_attempt key now store).2 in
  Forall (in_window now) (attempts key store')
  /\ (length (attempts key store') <= maxAttempts)%nat.
Proof.
  intros Hb. rewrite limit_attempt_unfold. cbn zeta.
  pose proof (Hb key) as Hkey.
  pose proof (length_filter (in_window now) (attempts key store)) as Hle.
  case_decide as Hfull; cbn [snd].
  - split; [|done].
    rewrite <- (filter_full_length (in_window now) (attempts key store)) by lia.
    apply Forall_filter_same.
  - rewrite attempts_insert. split.
    + apply Forall_app. split; [apply Forall_filter_same|].
      repeat constructor. unfold in_window, windowMs. lia.
    + rewrite length_app. simpl. lia.
Qed.

Lemma limit_attempt_bounded key now store :
  bounded store -> bounded (limit_attempt key now store).2.
Proof.
  intros Hb key'. destruct (decide (key = key')) as [<-|Hne].
  - by apply limit_attempt_own_key.
  - rewrite limit_attempt_unfold. cbn zeta. case_decide; cbn [snd]; [done|].
    by rewrite attempts_insert_ne.
Qed.

Lemma limit_attempt_not_after key now store T :
  now <= T -> not_after T store -> not_after T (limit_attempt key now store).2.
Proof.
  intros Hnow Hna key'. rewrite limit_attempt_unfold. cbn zeta.
  case_decide; cbn [snd]; [done|].
  destruct (decide (key = key')) as [<-|Hne].
  - rewrite attempts_insert. apply Forall_app. split; [|by repeat constructor].
    apply Forall_forall. intros time [_ Hin]%list_elem_of_filter.
    pose proof (Hna key) as Hall. rewrite Forall_forall in Hall. by apply Hall.
  - by rewrite attempts_insert_ne.
Qed.

Lemma limit_run_bounded calls : forall store,
  bounded store -> bounded (limit_run calls store).2.
Proof.
  induction calls as [|[key now] calls IH]; intros store Hb; [done|].
  cbn [limit_run]. pose proof (limit_attempt_bounded key now store Hb) as Hb'.
  destruct (limit_attempt key now store) as [admitted store'].
  specialize (IH store' Hb'). by destruct (limit_run calls store').
Qed.

Lemma limit_run_not_after calls T : forall store,
  Forall (fun call => call.2 <= T) calls ->
  not_after T store -> not_after T (limit_run calls store).2.
Proof.
  induction calls as [|[key now] calls IH]; intros store Hcalls Hna; [done|].
  apply Forall_cons in Hcalls as [Hnow Hcalls]. cbn [limit_run].
  pose proof (limit_attempt_not_after key now store T Hnow Hna) as Hna'.
  destruct (limit_attempt key now store) as [admitted store'].
  specialize (IH store' Hcalls Hna'). by destruct (limit_run calls store').
Qed.

(** C9: in any run of calls from the empty store, when a call on [key] at
    [now] returns, the attempts stored for [key] are younger than the
    window, counted from [now], and at most five (as are those of every
    key); they are not later than [now] when no earlier call was. *)
Theorem limiter_invariant calls key now :
  let store' := (limit_run (calls ++ [(key, now)]) ∅).2 in
  Forall (fun time => now - time < 15 * 60 * 1000) (attempts key store')
  /\ (length (attempts key store') <= 5)%nat
  /\ (forall key', (length (attempts key' store') <= 5)%nat)
  /\ (Forall (fun call => call.2 <= now) calls ->
      Forall (fun time => time <= now) (attempts key store')).
Proof.
  cbn zeta. rewrite limit_run_app.
  pose proof (limit_run_bounded calls ∅ bounded_empty) as Hb.
  pose proof (limit_run_not_after calls now ∅) as Hna.
  destruct (limit_run calls ∅) as [answers store]. cbn [snd] in *.
  cbn [limit_run].
  pose proof (limit_attempt_own_key key now store Hb) as [Hwin Hlen].
  pose proof (limit_attempt_bounded key now store Hb) as Hb'.
  pose proof (limit_attempt_not_after key now store now) as Hna'.
  destruct (limit_attempt key now store) as [admitted store']. cbn [snd] in *.
  split; [done|]. split; [done|]. split; [done|].
  intros Hcalls. apply Hna'; [lia|]. apply Hna; [done|apply not_after_empty].
Qed.

Lemma limiter_invariant_witness :
  Forall (fun time => time <= 2000)
         (attempts (js "10.0.0.1_anonymous")
            (limit_run ([(js "10.0.0.1_anonymous", 0); (js "10.0.0.2_anonymous", 1000)]
                        ++ [(js "10.0.0.1_anonymous", 2000)]) ∅).2).
Proof.
  apply (limiter_invariant
           [(js "10.0.0.1_anonymous", 0); (js "10.0.0.2_anonymous", 1000)]
           (js "10.0.0.1_anonymous") 2000).
  repeat constructor; simpl; lia.
Defined.

End Limiter.

(** ** Tokens *)

Section Tokens.
Import Jwt Auth.

Lemma split_no_sep sep s : sep ∉ s -> split sep s = [s].
Proof.
  induction s as [|c s IH]; intros Hs; [done|].
  apply not_elem_of_cons in Hs as [Hne Hs]. cbn [split].
  destruct (N.eqb_spec c sep); [done|]. by rewrite IH.
Qed.

Lemma split_app sep a rest :
  sep ∉ a -> split sep (a ++ sep :: rest) = a :: split sep rest.
Proof.
  induction a as [|c a IH]; intros Ha.
  - cbn [app split]. by rewrite N.eqb_refl.
  - apply not_elem_of_cons in Ha as [Hne Ha]. cbn [app split].
    destruct (N.eqb_spec c sep); [done|]. by rewrite IH.
Qed.

Lemma split_compact h p signature :
  46 ∉ h -> 46 ∉ p -> 46 ∉ signature ->
  split 46 (compact h p signature) = [h; p; signature].
Proof.
  intros Hh Hp Hs. unfold compact.
  by rewrite !split_app, split_no_sep.
Qed.

Lemma compact_cons h p signature : exists c t, compact h p signature = c :: t.
Proof. unfold compact. destruct h; by eexists _, _. Qed.

Lemma jsstring_eqb_refl a : jsstring_eqb a a = true.
Proof. by apply jsstring_eqb_eq. Qed.

Lemma is_digit_base64url c : is_digit c = true -> is_base64url c = true.
Proof.
  intros Hc%is_digit_spec. unfold is_base64url.
  destruct (N.leb_spec 48 c), (N.leb_spec c 57); lia.
Qed.

Lemma base64url_no_dot s : forallb is_base64url s = true -> 46 ∉ s.
Proof.
  intros Hall Hin. rewrite forallb_forall in Hall.
  by specialize (Hall 46 (proj1 (list_elem_of_In _ _) Hin)).
Qed.

Lemma toy_decode_digits ds : forall acc rest,
  forallb is_digit ds = true ->
  toy_decode acc (ds ++ 95 :: rest) = digits_value acc ds :: toy_decode 0 rest.
Proof.
  induction ds as [|d ds IH]; intros acc rest Hds.
  - cbn [app toy_decode digits_value]. by rewrite N.eqb_refl.
  - cbn [forallb] in Hds. apply andb_true_iff in Hds as [Hd%is_digit_spec Hds].
    cbn [app toy_decode digits_value].
    destruct (N.eqb_spec d 95); [lia|]. by apply IH.
Qed.

Lemma toy_decode_encode s : toy_decode 0 (toy_encode s) = s.
Proof.
  induction s as [|c s IH]; [done|].
  unfold toy_encode. cbn [flat_map]. fold (toy_encode s).
  rewrite <- app_assoc. cbn [app].
  rewrite toy_decode_digits by apply N_toString_all.
  by rewrite N_toString_value, IH.
Qed.

Lemma toy_encode_alphabet s : forallb is_base64url (toy_encode s) = true.
Proof.
  induction s as [|c s IH]; [done|].
  unfold toy_encode. cbn [flat_map]. fold (toy_encode s).
  rewrite !forallb_app, IH. cbn [forallb]. rewrite !andb_true_r.
  apply forallb_forall. intros d Hd. apply is_digit_base64url.
  pose proof (N_toString_all c) as Hall. rewrite forallb_forall in Hall. by apply Hall.
Qed.

Lemma toy_encode_nonempty s : s <> [] -> toy_encode s <> [].
Proof.
  destruct s as [|c s]; [done|]. intros _.
  unfold toy_encode. cbn [flat_map].
  destruct (N_toString_cons c) as (d & ds & -> & _). done.
Qed.

Lemma toy_laws : Laws toy.
Proof.
  split.
  - apply toy_decode_encode.
  - intros s _. apply toy_decode_encode.
  - apply toy_encode_alphabet.
  - apply toy_encode_nonempty.
  - intros alg key message. apply toy_encode_alphabet.
  - intros alg key message. apply toy_encode_nonempty. by destruct alg.
Qed.

Context {P : Primitives} (HP : Laws P).

(** [jwt.verify] on a token of three segments. *)
Lemma verify_compact h p signature secret now :
  46 ∉ h -> 46 ∉ p -> 46 ∉ signature ->
  verify (compact h p signature) secret now =
  match decode h p signature with
  | DecodeThrows => inl BodySyntaxError
  | DecodedNull => inl (JsonWebTokenError (js "invalid token"))
  | Complete hd payload =>
      if negb (nonempty signature) && nonempty secret
      then inl (JsonWebTokenError (js "jwt signature is required"))
      else if nonempty signature && negb (nonempty secret)
      then inl (JsonWebTokenError (js "secret or public key must be provided"))
      else if negb (nonempty signature)
      then inl (JsonWebTokenError unsigned_message)
      else
        match algorithm hd with
        | None => inl (JsonWebTokenError (js "invalid algorithm"))
        | Some alg =>
            if negb (jsstring_eqb signature (hmac alg secret (h ++ 46 :: p)))
            then inl (JsonWebTokenError (js "invalid signature"))
            else
              match payload with
              | JNull => inl PayloadTypeError
              | _ => check_times payload now
              end
        end
  end.
Proof.
  intros Hh Hp Hs. unfold verify. rewrite split_compact by done.
  by destruct (compact_cons h p signature) as (c & t & ->).
Qed.

(** A token that [JWS_REGEX] matches has three segments. *)
Lemma JWS_REGEX_segments h p signature :
  JWS_REGEX h p signature = true ->
  h <> [] /\ p <> [] /\ (46 ∉ h) /\ (46 ∉ p) /\ (46 ∉ signature).
Proof.
  unfold JWS_REGEX. rewrite !andb_true_iff.
  intros [[[[Hh Hha] Hp] Hpa] Hsa].
  split; [by destruct h|]. split; [by destruct p|].
  auto using base64url_no_dot.
Qed.

(** What [decode] returns was matched by [JWS_REGEX]. *)
Lemma decode_Complete h p signature hd payload :
  decode h p signature = Complete hd payload -> JWS_REGEX h p signature = true.
Proof.
  unfold decode, jws_decode.
  destruct (JWS_REGEX h p signature); [done|]. by cbn [andb negb].
Qed.

Lemma stringify_object_nonempty fields : JSON_stringify (JObj fields) <> [].
Proof. done. Qed.

(** Decoding what [jwt.sign] writes for [claims]. *)
Lemma decode_issued claims iat exp signature :
  forallb is_base64url signature = true ->
  decode (base64url (JSON_stringify header))
    (base64url (JSON_stringify (issued_payload claims iat exp))) signature
  = Complete header (issued_payload claims iat exp).
Proof.
  intros Hsignature. unfold decode, jws_decode.
  rewrite (decode_encode_binary P HP)
    by (apply (bool_decide_unpack _); by vm_compute).
  rewrite (decode_encode P HP).
  assert (JWS_REGEX (base64url (JSON_stringify header))
            (base64url (JSON_stringify (issued_payload claims iat exp))) signature
          = true) as ->.
  { unfold JWS_REGEX. rewrite !(base64url_alphabet P HP), Hsignature.
    pose proof (base64url_nonempty P HP _ (stringify_object_nonempty
                  [(js "alg", JStr (js "HS256")); (js "typ", JStr (js "JWT"))])) as Hh.
    pose proof (base64url_nonempty P HP _ (stringify_object_nonempty
                  (claims_fields claims ++ [(js "iat", JNum iat); (js "exp", JNum exp)])))
      as Hp.
    fold header in Hh. fold (issued_payload claims iat exp) in Hp.
    destruct (base64url (JSON_stringify header)); [done|].
    by destruct (base64url (JSON_stringify (issued_payload claims iat exp))). }
  change (JSON_parse (JSON_stringify header)) with (Some header).
  change (truthy (Some header)) with true.
  change (strict_eq_string (payload_prop header (js "typ")) (js "JWT")) with true.
  cbn [andb negb].
  unfold issued_payload. rewrite JSON_parse_stringify; [done| |].
  - repeat constructor.
  - apply (bool_decide_unpack _). by vm_compute.
Qed.

Lemma sign_compact payload secret ttl now :
  secret <> [] ->
  let body := JObj (payload ++ [(js "iat", JNum (clock_seconds now));
                                (js "exp", JNum (clock_seconds now + ttl)%Z)]) in
  let h := base64url (JSON_stringify header) in
  let p := base64url (JSON_stringify body) in
  sign payload secret ttl now = Some (compact h p (hmac HS256 secret (h ++ 46 :: p))).
Proof.
  intros Hsecret. cbn zeta. unfold sign, compact.
  destruct secret; [done|]. by rewrite <- app_assoc.
Qed.

Lemma check_times_issued claims iat exp now :
  check_times (issued_payload claims iat exp) now =
  if (clock_seconds now <? exp)%Z then inr (issued_payload claims iat exp)
  else inl TokenExpiredError.
Proof.
  unfold check_times.
  change (payload_prop (issued_payload claims iat exp) (js "nbf")) with (@None JValue).
  change (payload_prop (issued_payload claims iat exp) (js "exp")) with (Some (JNum exp)).
  cbn [lt_number]. by destruct (clock_seconds now <? exp)%Z.
Qed.

(** Verifying a token that [generateToken] issued: only the clock decides. *)
Lemma verify_generateToken env claims now now' :
  JWT_SECRET env <> [] ->
  exists token,
    generateToken env claims now = Some token
    /\ verify token (JWT_SECRET env) now' =
       let iat := clock_seconds now in
       let exp := (iat + expiresIn env)%Z in
       if (clock_seconds now' <? exp)%Z then inr (issued_payload claims iat exp)
       else inl TokenExpiredError.
Proof.
  intros Hsecret. unfold generateToken. eexists. split.
  - by apply sign_compact.
  - cbn zeta. rewrite verify_compact;
      [|apply base64url_no_dot; apply (base64url_alphabet P HP)..
       |apply base64url_no_dot; apply (hmac_alphabet P HP)].
    pose proof (decode_issued claims (clock_seconds now)
                  (clock_seconds now + expiresIn env) _
                  (hmac_alphabet P HP HS256 (JWT_SECRET env)
                     (base64url (JSON_stringify header) ++ 46 ::
                      base64url (JSON_stringify
                                   (issued_payload claims (clock_seconds now)
                                      (clock_seconds now + expiresIn env))))))
      as Hdecode.
    unfold issued_payload in Hdecode at 1 2. rewrite Hdecode.
    pose proof (hmac_nonempty P HP HS256 (JWT_SECRET env)
                  (base64url (JSON_stringify header) ++ 46 ::
                   base64url (JSON_stringify
                                (issued_payload claims (clock_seconds now)
                                   (clock_seconds now + expiresIn env))))) as Htag.
    unfold issued_payload in Htag at 1.
    destruct (hmac HS256 _ _) as [|t tag] eqn:Hhmac; [done|].
    destruct (JWT_SECRET env) as [|c secret] eqn:Hs; [done|].
    cbn [nonempty negb andb].
    change (algorithm header) with (Some HS256).
    cbv iota. rewrite Hhmac, jsstring_eqb_refl. cbn [negb].
    rewrite check_times_issued. unfold issued_payload. done.
Qed.

(** C6: a token issued for [claims] and verified before its expiry has
    elapsed is accepted, and the decoded payload holds the claims
    unchanged (next to [iat] and [exp]). *)
Theorem verify_issue env claims now now' :
  JWT_SECRET env <> [] ->
  (0 < expiresIn env)%Z ->
  (clock_seconds now' < clock_seconds now + expiresIn env)%Z ->
  exists token decoded,
    generateToken env claims now = Some token
    /\ verifyToken env token now' = Some decoded
    /\ payload_prop decoded (js "userId") = Some (JNum (userId claims))
    /\ payload_prop decoded (js "username") = Some (JStr (username claims))
    /\ payload_prop decoded (js "role") = Some (JStr (role claims))
    /\ decoded = issued_payload claims (clock_seconds now)
                   (clock_seconds now + expiresIn env).
Proof.
  intros Hsecret Httl Hclock.
  destruct (verify_generateToken env claims now now' Hsecret) as (token & Hgen & Hver).
  exists token. eexists. split; [done|]. split.
  - unfold verifyToken. rewrite Hver. cbn zeta.
    by destruct (Z.ltb_spec (clock_seconds now') (clock_seconds now + expiresIn env)); [|lia].
  - done.
Qed.

(** C1 (amended): [verifyToken] answers [null] to every failure of
    [jwt.verify].  The library tells the causes apart -- a wrong segment
    count, a body that is not base64url or that does not decode to JSON
    under a header of type [JWT], a signature that does not verify, the
    elapsed expiry of a validly signed token -- and [verifyToken] maps each
    of them to the same [null]; a token verified after its ttl has elapsed
    fails in the library as expired, not as malformed or badly signed.
    Under a header that does not declare the type [JWT], a body that is not
    JSON is no failure: when the signature verifies, the library returns the
    body as a string, and so does [verifyToken]. *)
Theorem verifyToken_null_on_failure env :
  JWT_SECRET env <> [] ->
  (forall token now,
     verifyToken env token now = None <->
     exists e, verify token (JWT_SECRET env) now = inl e)
  /\ (forall token now,
        token <> [] -> length (split 46 token) <> 3%nat ->
        exists e,
          verify token (JWT_SECRET env) now = inl e /\ Malformed e
          /\ verifyToken env token now = None)
  /\ (forall h p signature now,
        46 ∉ h -> 46 ∉ p -> 46 ∉ signature ->
        (p = [] \/ forallb is_base64url p = false
         \/ exists hd,
              JSON_parse (decode_binary h) = Some hd
              /\ strict_eq_string (payload_prop hd (js "typ")) (js "JWT") = true
              /\ JSON_parse (decode_utf8 p) = None) ->
        exists e,
          verify (compact h p signature) (JWT_SECRET env) now = inl e /\ Malformed e
          /\ verifyToken env (compact h p signature) now = None)
  /\ (forall h p signature hd payload alg now,
        decode h p signature = Complete hd payload ->
        signature <> [] ->
        algorithm hd = Some alg ->
        signature <> hmac alg (JWT_SECRET env) (h ++ 46 :: p) ->
        exists e,
          verify (compact h p signature) (JWT_SECRET env) now = inl e
          /\ SignatureInvalid e
          /\ verifyToken env (compact h p signature) now = None)
  /\ (forall h p hd alg text now,
        let signature := hmac alg (JWT_SECRET env) (h ++ 46 :: p) in
        decode h p signature = Complete hd (JStr text) ->
        algorithm hd = Some alg ->
        verify (compact h p signature) (JWT_SECRET env) now = inr (JStr text)
        /\ verifyToken env (compact h p signature) now = Some (JStr text))
  /\ (forall claims now now',
        (clock_seconds now + expiresIn env <= clock_seconds now')%Z ->
        exists token e,
          generateToken env claims now = Some token
          /\ verify token (JWT_SECRET env) now' = inl e /\ Expired e
          /\ ~ SignatureInvalid e /\ ~ Malformed e
          /\ verifyToken env token now' = None).
Proof.
  intros Hsecret.
  assert (forall token now e,
            verify token (JWT_SECRET env) now = inl e ->
            verifyToken env token now = None) as Hnull.
  { intros token now e He. unfold verifyToken. by rewrite He. }
  assert (nonempty (JWT_SECRET env) = true) as Hkey
    by by destruct (JWT_SECRET env).
  split; [|split; [|split; [|split; [|split]]]].
  - intros token now. unfold verifyToken.
    destruct (verify token (JWT_SECRET env) now) as [e|decoded].
    + split; [by eexists|done].
    + split; [done|]. by intros [e He].
  - intros token now Hne Hlen.
    assert (verify token (JWT_SECRET env) now
            = inl (JsonWebTokenError (js "jwt malformed"))) as He.
    { unfold verify. destruct token as [|c token]; [done|].
      destruct (split 46 (c :: token)) as [|s1 [|s2 [|s3 [|s4 segs]]]]; done. }
    eexists. split; [done|]. split; [by left|by eapply Hnull].
  - intros h p signature now Hh Hp Hs Hbody.
    assert (decode h p signature = DecodedNull \/ decode h p signature = DecodeThrows)
      as Hdecode.
    { unfold decode, jws_decode.
      destruct Hbody as [->|[Hchars|(hd & -> & Htyp & Hparse)]].
      - left. unfold JWS_REGEX. cbn [nonempty]. by rewrite !andb_false_r.
      - left. unfold JWS_REGEX. rewrite Hchars. by rewrite !andb_false_r.
      - rewrite Htyp, Hparse.
        destruct (negb (JWS_REGEX h p signature && truthy (Some hd))); auto. }
    assert (exists e, verify (compact h p signature) (JWT_SECRET env) now = inl e
                      /\ Malformed e) as (e & He & Hmal).
    { rewrite verify_compact by done.
      destruct Hdecode as [-> | ->]; eexists; (split; [done|]).
      - right. by left.
      - right. by right. }
    exists e. split; [done|]. split; [done|by eapply Hnull].
  - intros h p signature hd payload alg now Hdecode Hsig Halg Htag.
    destruct (JWS_REGEX_segments h p signature (decode_Complete _ _ _ _ _ Hdecode))
      as (_ & _ & Hh & Hp & Hs).
    assert (verify (compact h p signature) (JWT_SECRET env) now
            = inl (JsonWebTokenError (js "invalid signature"))) as He.
    { rewrite verify_compact by done. rewrite Hdecode, Hkey, Halg.
      assert (nonempty signature = true) as -> by by destruct signature.
      cbn [negb andb]. by apply jsstring_eqb_neq in Htag as ->. }
    eexists. split; [done|]. split; [done|by eapply Hnull].
  - intros h p hd alg text now signature Hdecode Halg.
    destruct (JWS_REGEX_segments h p signature (decode_Complete _ _ _ _ _ Hdecode))
      as (_ & _ & Hh & Hp & Hs).
    assert (verify (compact h p signature) (JWT_SECRET env) now = inr (JStr text))
      as Hverify.
    { rewrite verify_compact by done. rewrite Hdecode, Hkey, Halg.
      assert (nonempty signature = true) as ->.
      { pose proof (hmac_nonempty P HP alg (JWT_SECRET env) (h ++ 46 :: p)).
        subst signature. by destruct (hmac alg _ _). }
      cbn [negb andb]. subst signature. by rewrite jsstring_eqb_refl. }
    split; [done|]. unfold verifyToken. by rewrite Hverify.
  - intros claims now now' Hclock.
    destruct (verify_generateToken env claims now now' Hsecret) as (token & Hgen & Hver).
    assert (verify token (JWT_SECRET env) now' = inl TokenExpiredError) as He.
    { rewrite Hver. cbn zeta.
      by destruct (Z.ltb_spec (clock_seconds now')
                     (clock_seconds now + expiresIn env)); [lia|]. }
    exists token, TokenExpiredError. split; [done|]. split; [done|].
    split; [done|]. split; [by intros ?|].
    split; [by intros [?|[?|?]]|by eapply Hnull].
Qed.

End Tokens.

Section TokenExamples.
Import Jwt Auth.

Lemma verify_issue_witness :
  exists token decoded,
    generateToken (P := toy) example_env example_claims 0 = Some token
    /\ verifyToken (P := toy) example_env token (one_day - 1) = Some decoded
    /\ payload_prop decoded (js "userId") = Some (JNum 7)
    /\ payload_prop decoded (js "username") = Some (JStr (js "kader1"))
    /\ payload_prop decoded (js "role") = Some (JStr (js "kader"))
    /\ decoded = issued_payload example_claims 0 86400.
Proof.
  apply (verify_issue toy_laws example_env example_claims 0 (one_day - 1)).
  - discriminate.
  - reflexivity.
  - reflexivity.
Defined.

(** C1, as stated, fails: an expired token, a token with a wrong segment
    count, a token whose body is not base64url and a token with a bad
    signature fail in the library in different ways, and [verifyToken]
    returns the same [null] for all. *)
Lemma verifyToken_same_null :
  generateToken (P := toy) example_env example_claims 0 = Some example_token
  /\ verify (P := toy) example_token (JWT_SECRET example_env) one_day
     = inl TokenExpiredError
  /\ verify (P := toy) (js "abc") (JWT_SECRET example_env) 0
     = inl (JsonWebTokenError (js "jwt malformed"))
  /\ verify (P := toy) (js "abc.d!f.ghi") (JWT_SECRET example_env) 0
     = inl (JsonWebTokenError (js "invalid token"))
  /\ verify (P := toy) (example_token ++ js "0") (JWT_SECRET example_env) 0
     = inl (JsonWebTokenError (js "invalid signature"))
  /\ verifyToken (P := toy) example_env example_token one_day = None
  /\ verifyToken (P := toy) example_env (js "abc") 0 = None
  /\ verifyToken (P := toy) example_env (js "abc.d!f.ghi") 0 = None
  /\ verifyToken (P := toy) example_env (example_token ++ js "0") 0 = None.
Proof. by vm_compute. Qed.

(** A body that is not JSON: returned as a string under a header without
    type, a [SyntaxError] under the header [jwt.sign] writes. *)
Example verify_plain_body :
  verify (P := toy) example_plain_token (JWT_SECRET example_env) 0
  = inr (JStr (js "hello"))
  /\ verifyToken (P := toy) example_env example_plain_token 0 = Some (JStr (js "hello"))
  /\ verify (P := toy) example_typed_token (JWT_SECRET example_env) 0
     = inl BodySyntaxError
  /\ verifyToken (P := toy) example_env example_typed_token 0 = None.
Proof. by vm_compute. Qed.

(** A token signed with HMAC-SHA384 verifies under the same secret. *)
Example verify_HS384 :
  verify (P := toy) example_HS384_token (JWT_SECRET example_env) 0
  = inr (JObj [(js "userId", JNum 7)]).
Proof. by vm_compute. Qed.

Lemma verifyToken_null_on_failure_witness :
  exists token e,
    generateToken (P := toy) example_env example_claims 0 = Some token
    /\ verify (P := toy) token (JWT_SECRET example_env) one_day = inl e /\ Expired e
    /\ ~ SignatureInvalid e /\ ~ Malformed e
    /\ verifyToken (P := toy) example_env token one_day = None.
Proof.
  apply (proj2 (proj2 (proj2 (proj2 (proj2
           (verifyToken_null_on_failure toy_laws example_env ltac:(discriminate))))))
           example_claims 0%Z one_day).
  vm_compute. discriminate.
Defined.

End TokenExamples.

(** ** The authentication gate and the login handler *)

Section Gate.
Import Jwt Auth Login.
Context {P : Primitives}.

Lemma startsWith_split p : forall s,
  startsWith p s = true -> s = p ++ drop (length p) s.
Proof.
  induction p as [|a p IH]; intros s Hs; [done|].
  destruct s as [|b s]; [done|]. cbn [startsWith] in Hs.
  apply andb_true_iff in Hs as [Hab%N.eqb_eq Hs]. subst b.
  cbn [app length drop]. f_equal. by apply IH.
Qed.

Lemma authenticate_bearer env getOne now token :
  authenticate env getOne now (Some (js "Bearer " ++ token)) =
  match verifyToken env token now with
  | None => inl (Reply 401 (js "Invalid or expired token"))
  | Some decoded =>
      if negb (truthy (Some decoded))
      then inl (Reply 401 (js "Invalid or expired token"))
      else
        match getOne (payload_prop decoded (js "userId")) with
        | None => inl (Reply 401 (js "User not found or inactive"))
        | Some user =>
            if negb (is_active user)
            then inl (Reply 401 (js "User not found or inactive"))
            else inr user
        end
  end.
Proof. reflexivity. Qed.

Lemma authenticate_no_bearer env getOne now authorization :
  (authorization = None
   \/ exists authHeader,
        authorization = Some authHeader
        /\ forall token, authHeader <> js "Bearer " ++ token) ->
  authenticate env getOne now authorization
  = inl (Reply 401 (js "Access token required")).
Proof.
  intros [->|(authHeader & -> & Hne)]; [done|]. unfold authenticate.
  destruct (startsWith (js "Bearer ") authHeader) eqn:Hstart.
  - apply startsWith_split in Hstart. by destruct (Hne _ Hstart).
  - by rewrite orb_true_r.
Qed.

(** A payload that is falsy is not an object, and has no [userId]. *)
Lemma falsy_no_userId decoded :
  truthy (Some decoded) = false -> payload_prop decoded (js "userId") = None.
Proof. by destruct decoded. Qed.

(** C7: the decision procedure of [authenticate], in order: no Bearer
    header, then a token that does not verify, then a user that is unknown
    or inactive are each answered with 401; otherwise the looked-up user is
    attached to the request.  The lookup finds no user for an undefined
    id. *)
Theorem authenticate_decision env getOne now authorization :
  getOne None = None ->
  ((authorization = None
    \/ exists authHeader,
         authorization = Some authHeader
         /\ forall token, authHeader <> js "Bearer " ++ token) ->
   authenticate env getOne now authorization
   = inl (Reply 401 (js "Access token required")))
  /\ (forall token,
        authorization = Some (js "Bearer " ++ token) ->
        verifyToken env token now = None ->
        authenticate env getOne now authorization
        = inl (Reply 401 (js "Invalid or expired token")))
  /\ (forall token decoded,
        authorization = Some (js "Bearer " ++ token) ->
        verifyToken env token now = Some decoded ->
        (getOne (payload_prop decoded (js "userId")) = None
         \/ exists user,
              getOne (payload_prop decoded (js "userId")) = Some user
              /\ is_active user = false) ->
        exists message,
          authenticate env getOne now authorization = inl (Reply 401 message))
  /\ (forall token decoded user,
        authorization = Some (js "Bearer " ++ token) ->
        verifyToken env token now = Some decoded ->
        getOne (payload_prop decoded (js "userId")) = Some user ->
        is_active user = true ->
        authenticate env getOne now authorization = inr user).
Proof.
  intros Hundefined. split; [apply authenticate_no_bearer|].
  split; [|split].
  - intros token -> Hverify. by rewrite authenticate_bearer, Hverify.
  - intros token decoded -> Hverify Hlookup.
    rewrite authenticate_bearer, Hverify.
    destruct (truthy (Some decoded)); cbn [negb]; [|by eexists].
    destruct Hlookup as [->|(user & -> & ->)]; by eexists.
  - intros token decoded user -> Hverify Hlookup Hactive.
    rewrite authenticate_bearer, Hverify.
    destruct (truthy (Some decoded)) eqn:Htruthy; cbn [negb].
    + by rewrite Hlookup, Hactive.
    + apply falsy_no_userId in Htruthy. congruence.
Qed.

(** C8 (amended): every authentication failure is answered with status
    401, and the message names the step that failed, not the cause within
    the step.  [authenticate] has three messages: one for a missing or
    non-Bearer header, one for every token that does not verify, whatever
    the library's error, one for an unknown and for an inactive user alike.
    The login handler answers an unknown user and a wrong password with the
    same message, and an inactive account with another. *)
Theorem auth_failure_401 env now :
  (forall getOne authorization response,
     authenticate env getOne now authorization = inl response ->
     exists message,
       response = Reply 401 message
       /\ (message = js "Access token required"
           \/ message = js "Invalid or expired token"
           \/ message = js "User not found or inactive"))
  /\ (forall getOne token e,
        verify token (JWT_SECRET env) now = inl e ->
        authenticate env getOne now (Some (js "Bearer " ++ token))
        = inl (Reply 401 (js "Invalid or expired token")))
  /\ (forall getOne token decoded,
        verifyToken env token now = Some decoded ->
        truthy (Some decoded) = true ->
        (getOne (payload_prop decoded (js "userId")) = None
         \/ exists user,
              getOne (payload_prop decoded (js "userId")) = Some user
              /\ is_active user = false) ->
        authenticate env getOne now (Some (js "Bearer " ++ token))
        = inl (Reply 401 (js "User not found or inactive")))
  /\ (forall getOne comparePassword username password_given,
        (getOne username = None ->
         login env getOne comparePassword now username password_given
         = Failed (Reply 401 (js "Invalid credentials")))
        /\ (forall user,
              getOne username = Some user -> account_active user = true ->
              comparePassword password_given (password user) = false ->
              login env getOne comparePassword now username password_given
              = Failed (Reply 401 (js "Invalid credentials")))
        /\ (forall user,
              getOne username = Some user -> account_active user = false ->
              login env getOne comparePassword now username password_given
              = Failed (Reply 401 (js "Account is deactivated")))).
Proof.
  split; [|split; [|split]].
  - intros getOne authorization response. unfold authenticate.
    repeat case_match; intros [= <-]; eexists; (split; [done|]); tauto.
  - intros getOne token e He. rewrite authenticate_bearer.
    unfold verifyToken. by rewrite He.
  - intros getOne token decoded Hverify Htruthy Hlookup.
    rewrite authenticate_bearer, Hverify, Htruthy. cbn [negb].
    by destruct Hlookup as [->|(user & -> & ->)].
  - intros getOne comparePassword username password_given. unfold login.
    split; [by intros ->|]. split.
    + by intros user -> -> ->.
    + by intros user -> ->.
Qed.

End Gate.

Section GateExamples.
Import Jwt Auth Login.

Lemma authenticate_decision_witness :
  authenticate (P := toy) example_env example_getOne 0
    (Some (js "Bearer " ++ example_token))
  = inr example_user.
Proof.
  apply (proj2 (proj2 (proj2
           (authenticate_decision (P := toy) example_env example_getOne 0%Z
              (Some (js "Bearer " ++ example_token)) eq_refl)))
           example_token (issued_payload example_claims 0 86400) example_user).
  - reflexivity.
  - vm_compute. reflexivity.
  - reflexivity.
  - reflexivity.
Defined.

(** C8, as stated, fails: the same token is answered with one message when
    its user is unknown and with another once it has expired. *)
Lemma auth_messages_differ :
  authenticate (P := toy) example_env no_user 0 (Some (js "Bearer " ++ example_token))
  = inl (Reply 401 (js "User not found or inactive"))
  /\ authenticate (P := toy) example_env no_user one_day
       (Some (js "Bearer " ++ example_token))
     = inl (Reply 401 (js "Invalid or expired token"))
  /\ js "User not found or inactive" <> js "Invalid or expired token".
Proof. split; [by vm_compute|]. split; [by vm_compute|]. by vm_compute. Qed.

Lemma auth_failure_401_witness :
  login (P := toy) example_env (fun _ => Some example_account) (fun _ _ => true) 0
    (js "kader1") (js "secret")
  = Failed (Reply 401 (js "Account is deactivated")).
Proof.
  apply (proj2 (proj2 (proj2 (proj2 (proj2
           (auth_failure_401 (P := toy) example_env 0%Z)))
           (fun _ => Some example_account) (fun _ _ => true)
           (js "kader1") (js "secret")))
           example_account).
  - reflexivity.
  - reflexivity.
Defined.

End GateExamples.

(** ** The rate limiter as a sliding window *)

Section SlidingWindow.
Import Auth.
Open Scope Z_scope.

Lemma ascending_weaken t0 t times : t0 <= t -> ascending t times -> ascending t0 times.
Proof.
  destruct times as [|t' times]; [done|]. cbn [ascending].
  intros Hle [Hle' Hrest]. split; [lia|done].
Qed.

Lemma filter_window_twice t0 now (l : list Z) :
  t0 <= now ->
  filter (in_window now) (filter (in_window t0) l) = filter (in_window now) l.
Proof.
  intros Hle. induction l as [|x l IH]; [done|].
  destruct (decide (in_window t0 x)) as [Hx|Hx].
  - rewrite (filter_cons_True (in_window t0)) by done.
    destruct (decide (in_window now x)) as [Hn|Hn].
    + rewrite !(filter_cons_True (in_window now)) by done. by rewrite IH.
    + rewrite !(filter_cons_False (in_window now)) by done. done.
  - rewrite (filter_cons_False (in_window t0)) by done.
    rewrite (filter_cons_False (in_window now)); [done|].
    unfold in_window in *. lia.
Qed.

Lemma limit_run_cons key now calls store :
  limit_run ((key, now) :: calls) store =
  let first := limit_attempt key now store in
  let rest := limit_run calls first.2 in
  (first.1 :: rest.1, rest.2).
Proof.
  cbn [limit_run]. cbn zeta.
  destruct (limit_attempt key now store) as [admitted store']. cbn [fst snd].
  by destruct (limit_run calls store').
Qed.

(** What a call leaves under a key, by cases. *)
Lemma limit_attempt_attempts key key' now store :
  attempts key' (limit_attempt key now store).2 =
  if (limit_attempt key now store).1 && bool_decide (key = key')
  then filter (in_window now) (attempts key' store) ++ [now]
  else attempts key' store.
Proof.
  rewrite limit_attempt_unfold. cbn zeta.
  case_decide; cbn [fst snd andb]; [done|].
  case_bool_decide as Hkey.
  - subst key'. by rewrite attempts_insert.
  - by rewrite attempts_insert_ne.
Qed.

Section OneKey.
Variable key : jsstring.
Variable now : Z.

(** The state of [key] is the admitted history seen through a window. *)
Lemma sliding_window_run calls : forall store history t0,
  attempts key store = filter (in_window t0) history ->
  ascending t0 (map snd (calls ++ [(key, now)])) ->
  (limit_attempt key now (limit_run calls store).2).1 =
  bool_decide (length (filter (in_window now)
                         (history ++ admitted_times key calls store)) < maxAttempts)%nat.
Proof.
  induction calls as [|[key' t] calls IH]; intros store history t0 Hstate Hclock.
  - cbn [app map snd ascending limit_run admitted_times] in *.
    destruct Hclock as [Hle _]. rewrite app_nil_r, limit_attempt_unfold. cbn zeta.
    rewrite Hstate, filter_window_twice by done.
    case_decide; cbn [fst]; symmetry;
      [apply bool_decide_eq_false|apply bool_decide_eq_true]; lia.
  - cbn [app map snd ascending] in Hclock. destruct Hclock as [Hle Hclock].
    rewrite limit_run_cons. cbn zeta. cbn [snd admitted_times].
    pose proof (limit_attempt_attempts key' key t store) as Hnext.
    destruct (limit_attempt key' t store) as [admitted store']. cbn [fst snd] in *.
    destruct (admitted && bool_decide (key' = key)) eqn:Hcase.
    + rewrite (IH store' (history ++ [t]) t); [by rewrite <- app_assoc| |done].
      rewrite Hnext, Hstate, filter_window_twice by done.
      rewrite filter_app, filter_cons_True; [done|].
      unfold in_window, windowMs. lia.
    + rewrite (IH store' history t0); [done|by rewrite Hnext|].
      by apply (ascending_weaken t0 t).
Qed.

End OneKey.

(** X1: along a clock that does not run backwards, the limiter admits a
    call exactly when fewer than five calls on the same key were admitted
    in the fifteen minutes before it: pruning on each call and dropping the
    denied calls loses nothing that the count needs. *)
Theorem limiter_sliding_window calls key now :
  non_decreasing (map snd (calls ++ [(key, now)])) ->
  (limit_attempt key now (limit_run calls ∅).2).1 =
  bool_decide (length (filter (fun time : Z => (now - time < 15 * 60 * 1000)%Z)
                         (admitted_times key calls ∅)) < 5)%nat.
Proof.
  intros Hclock.
  destruct (map snd (calls ++ [(key, now)])) as [|t0 times] eqn:Htimes.
  { by destruct calls. }
  rewrite (sliding_window_run key now calls ∅ [] t0); [done|done|].
  rewrite Htimes. cbn [ascending]. split; [lia|done].
Qed.

Lemma limiter_sliding_window_witness :
  (limit_attempt (js "10.0.0.1_anonymous") 900000
     (limit_run [(js "10.0.0.1_anonymous", 0); (js "10.0.0.2_anonymous", 5)] ∅).2).1 =
  bool_decide (length (filter (fun time : Z => (900000 - time < 15 * 60 * 1000)%Z)
                         (admitted_times (js "10.0.0.1_anonymous")
                            [(js "10.0.0.1_anonymous", 0%Z); (js "10.0.0.2_anonymous", 5%Z)]
                            ∅)) < 5)%nat.
Proof.
  apply (limiter_sliding_window
           [(js "10.0.0.1_anonymous", 0); (js "10.0.0.2_anonymous", 5)]
           (js "10.0.0.1_anonymous") 900000).
  simpl. lia.
Defined.

(** One call, seen from a key: the answer and what it leaves depend on the
    attempts of that key only. *)
Lemma limit_attempt_local key now store1 store2 :
  attempts key store1 = attempts key store2 ->
  (limit_attempt key now store1).1 = (limit_attempt key now store2).1
  /\ attempts key (limit_attempt key now store1).2
     = attempts key (limit_attempt key now store2).2.
Proof.
  intros Heq. rewrite !limit_attempt_attempts, !limit_attempt_unfold. cbn zeta.
  rewrite Heq. by case_decide.
Qed.

Lemma limiter_isolation_run key calls : forall store1 store2,
  attempts key store1 = attempts key store2 ->
  answers_on key calls store1
  = (limit_run (filter (fun call => call.1 = key) calls) store2).1
  /\ attempts key (limit_run calls store1).2
     = attempts key (limit_run (filter (fun call => call.1 = key) calls) store2).2.
Proof.
  induction calls as [|[key' t] calls IH]; intros store1 store2 Heq; [done|].
  rewrite limit_run_cons. cbn zeta. cbn [snd answers_on].
  destruct (decide (key' = key)) as [->|Hne].
  - rewrite filter_cons_True by done. rewrite limit_run_cons. cbn zeta. cbn [fst snd].
    destruct (limit_attempt_local key t store1 store2 Heq) as [Hans Hnext].
    destruct (limit_attempt key t store1) as [a1 s1].
    destruct (limit_attempt key t store2) as [a2 s2]. cbn [fst snd] in *.
    destruct (IH s1 s2 Hnext) as [IHans IHstate].
    rewrite bool_decide_eq_true_2 by done. cbn [app]. by rewrite Hans, IHans.
  - rewrite filter_cons_False by done.
    pose proof (limit_attempt_attempts key' key t store1) as Hnext.
    destruct (limit_attempt key' t store1) as [a1 s1]. cbn [fst snd] in *.
    rewrite bool_decide_eq_false_2 in * by done. rewrite andb_false_r in Hnext.
    cbn [app]. apply IH. by rewrite Hnext.
Qed.

(** X2: keys do not interfere: in any run, the answers given to the calls
    on a key, and the attempts left under it, are those of the run made of
    that key's calls alone. *)
Theorem limiter_isolation key calls store :
  answers_on key calls store
  = (limit_run (filter (fun call => call.1 = key) calls) store).1
  /\ attempts key (limit_run calls store).2
     = attempts key (limit_run (filter (fun call => call.1 = key) calls) store).2.
Proof. by apply limiter_isolation_run. Qed.

End SlidingWindow.

(** ** Roles, PINs and the login route *)

Section AccessFacts.
Import Jwt Auth Login Access LoginRoute.
Context {P : Primitives} (HP : Laws P).

Lemma generateToken_secret env claims now token :
  generateToken env claims now = Some token -> JWT_SECRET env <> [].
Proof. unfold generateToken, sign. by destruct (JWT_SECRET env). Qed.

(** A token that [generateToken] issued, presented before it expires by a
    user the lookup finds active, is let through with the row found. *)
Lemma authenticate_issued env claims now now' token getOne u :
  generateToken env claims now = Some token ->
  (clock_seconds now' < clock_seconds now + expiresIn env)%Z ->
  getOne (Some (JNum (userId claims))) = Some u -> is_active u = true ->
  authenticate env getOne now' (Some (js "Bearer " ++ token)) = inr u.
Proof.
  intros Hgen Hclock Hlookup Hactive.
  pose proof (generateToken_secret _ _ _ _ Hgen) as Hsecret.
  destruct (verify_generateToken HP env claims now now' Hsecret) as (token' & Hgen' & Hver).
  rewrite Hgen in Hgen'. injection Hgen' as <-.
  rewrite authenticate_bearer. unfold verifyToken. rewrite Hver. cbn zeta.
  destruct (Z.ltb_spec (clock_seconds now') (clock_seconds now + expiresIn env)); [|lia].
  change (truthy (Some (issued_payload claims (clock_seconds now)
                          (clock_seconds now + expiresIn env)))) with true.
  change (payload_prop (issued_payload claims (clock_seconds now)
                          (clock_seconds now + expiresIn env)) (js "userId"))
    with (Some (JNum (userId claims))).
  cbn [negb]. by rewrite Hlookup, Hactive.
Qed.

(** X3: behind [authenticate], [authorize(roles)] decides on the role stored
    in the user's row, not on the role written in the token: a valid token,
    whatever role it claims, passes exactly when [roles] is empty or holds
    the stored role, and is answered 403 otherwise. *)
Theorem authorize_stored_role env claims now now' token getOne u roles :
  generateToken env claims now = Some token ->
  (clock_seconds now' < clock_seconds now + expiresIn env)%Z ->
  getOne (Some (JNum (userId claims))) = Some u -> is_active u = true ->
  authenticate env getOne now' (Some (js "Bearer " ++ token)) = inr u
  /\ (authorize roles (Some u) = None <-> roles = [] \/ user_role u ∈ roles)
  /\ (authorize roles (Some u) <> None ->
      authorize roles (Some u) = Some (Reply 403 (js "Insufficient permissions"))).
Proof.
  intros Hgen Hclock Hlookup Hactive.
  split; [by eapply authenticate_issued|].
  unfold authorize. destruct roles as [|r roles].
  - cbn [length]. rewrite bool_decide_eq_true_2 by done. cbn [negb andb].
    split; [tauto|done].
  - cbn [length]. rewrite bool_decide_eq_false_2 by done. cbn [negb andb].
    case_bool_decide as Hin; cbn [negb].
    + split; [tauto|done].
    + split; [|done]. split; [done|]. by intros [?|?].
Qed.

(** X4: [validatePIN] reads [req.user.userId], a property that the object
    [authenticate] stores in [req.user] does not have.  Behind
    [authenticate] it therefore never calls [next()]: it answers 400 to a
    missing PIN and 401 to every PIN, the lookup finding no user for an
    undefined id. *)
Theorem validatePIN_behind_authenticate getOne pin u :
  getOne None = None ->
  validatePIN getOne pin (Some (user_object u)) =
  Some (if truthy pin then Reply 401 (js "Invalid PIN")
        else Reply 400 (js "PIN required")).
Proof.
  intros Hundefined. unfold validatePIN.
  change (QR.prop (user_object u) (js "userId")) with (@None JValue).
  change (user_object u) with
    (JObj [(js "id", JNum (id u)); (js "username", JStr (user_username u));
           (js "role", JStr (user_role u)); (js "is_active", JBool (is_active u))]).
  cbv iota. destruct (truthy pin); cbn [negb]; [|done]. by rewrite Hundefined.
Qed.

Lemma login_route_limit env getOne comparePassword ip now username password_given store :
  login_route env getOne comparePassword ip now username password_given store =
  match validateUserLogin username password_given with
  | Some response => (Failed response, store)
  | None =>
      let outcome := limit_attempt (limit_key ip None) now store in
      (if outcome.1 then login env getOne comparePassword now username password_given
       else Failed too_many, outcome.2)
  end.
Proof.
  unfold login_route. destruct (validateUserLogin username password_given); [done|].
  rewrite sensitiveOperationLimit_attempt. cbn zeta.
  by destruct (limit_attempt (limit_key ip None) now store) as [[] store'].
Qed.

(** The route over requests that fall in the window starting at [t0], from
    a store whose attempts for the address were all made in that window. *)
Lemma login_run_window env getOne comparePassword ip t0 requests :
  forall store,
  Forall (fun time => (t0 <= time < t0 + windowMs)%Z) (attempts (limit_key ip None) store) ->
  Forall (fun request : Z * jsstring * jsstring =>
            (t0 <= request.1.1 < t0 + windowMs)%Z) requests ->
  login_run env getOne comparePassword ip requests store
  = window_answers env getOne comparePassword requests
      (length (attempts (limit_key ip None) store)).
Proof.
  induction requests as [|[[now username] password_given] requests IH];
    intros store Hstore Hrequests; [done|].
  apply Forall_cons in Hrequests as [Hnow Hrequests]. cbn beta in Hnow.
  cbn [fst] in Hnow.
  cbn [login_run window_answers]. rewrite login_route_limit.
  unfold validateUserLogin.
  destruct username as [|u username].
  { cbn [notEmpty negb orb]. f_equal. by apply IH. }
  destruct password_given as [|c password_given].
  { cbn [notEmpty negb orb]. f_equal. by apply IH. }
  cbn [notEmpty negb orb]. cbn zeta.
  assert (Forall (in_window now) (attempts (limit_key ip None) store)) as Hrecent.
  { eapply Forall_impl; [exact Hstore|]. intros time Htime. cbn beta in Htime.
    unfold in_window. lia. }
  destruct (Nat.ltb_spec (length (attempts (limit_key ip None) store)) 5) as [Hlt|Hge].
  - rewrite (limit_attempt_admit _ now store _ eq_refl Hrecent)
      by (unfold maxAttempts; lia).
    cbn [fst snd]. f_equal. rewrite IH; [|rewrite attempts_insert|done].
    + rewrite attempts_insert, length_app. cbn [length]. f_equal. lia.
    + apply Forall_app. split; [done|]. by apply Forall_singleton.
  - rewrite (limit_attempt_deny _ now store _ eq_refl Hrecent)
      by (unfold maxAttempts; lia).
    cbn [fst snd]. f_equal. by apply IH.
Qed.

(** X5: the login route limits the requests of an address that pass
    [validateUserLogin], whoever logs in and whether or not the login
    succeeds.  Of the requests from one address within fifteen minutes,
    starting with no attempt recorded, those without a user name or a
    password are answered 400 and not counted; of the others the first five
    reach the handler and every later one is answered 429. *)
Theorem login_sixth_limited env getOne comparePassword ip store t0 requests :
  attempts (limit_key ip None) store = [] ->
  Forall (fun request : Z * jsstring * jsstring =>
            (t0 <= request.1.1 < t0 + windowMs)%Z) requests ->
  login_run env getOne comparePassword ip requests store
  = window_answers env getOne comparePassword requests 0.
Proof.
  intros Hempty Hrequests.
  rewrite (login_run_window env getOne comparePassword ip t0 requests store);
    [by rewrite Hempty| |done].
  rewrite Hempty. constructor.
Qed.

(** X6: the token a successful login returns opens the authentication gate:
    presented before it expires, with the account still found active under
    the id the login read, [authenticate] lets the request through with that
    row. *)
Theorem login_token_authenticates env getAccount comparePassword now username
    password_given token account getUser u now' :
  login env getAccount comparePassword now username password_given
  = LoggedIn token account ->
  (clock_seconds now' < clock_seconds now + expiresIn env)%Z ->
  getUser (Some (JNum (account_id account))) = Some u -> is_active u = true ->
  getAccount username = Some account
  /\ authenticate env getUser now' (Some (js "Bearer " ++ token)) = inr u.
Proof.
  unfold login. intros Hlogin Hclock Hlookup Hactive.
  destruct (getAccount username) as [user|]; [|done].
  destruct (account_active user); cbn [negb] in Hlogin; [|done].
  destruct (comparePassword password_given (password user)); cbn [negb] in Hlogin; [|done].
  destruct (generateToken env _ now) as [token'|] eqn:Hgen; [|done].
  injection Hlogin as -> ->. split; [done|].
  by eapply (authenticate_issued env _ now now' token getUser u Hgen).
Qed.

End AccessFacts.

Section AccessExamples.
Import Jwt Auth Login Access LoginRoute.

Lemma authorize_stored_role_witness :
  authenticate (P := toy) example_env example_getOne 1000
    (Some (js "Bearer " ++ example_token)) = inr example_user
  /\ (authorize [js "admin"] (Some example_user) = None <->
      [js "admin"] = [] \/ user_role example_user ∈ [js "admin"])
  /\ (authorize [js "admin"] (Some example_user) <> None ->
      authorize [js "admin"] (Some example_user)
      = Some (Reply 403 (js "Insufficient permissions"))).
Proof.
  apply (authorize_stored_role toy_laws example_env example_claims 0 1000
           example_token example_getOne example_user [js "admin"]).
  - reflexivity.
  - reflexivity.
  - reflexivity.
  - reflexivity.
Defined.

Lemma validatePIN_behind_authenticate_witness :
  validatePIN (fun _ => None) (Some (JStr (js "654321"))) (Some (user_object example_user))
  = Some (if truthy (Some (JStr (js "654321"))) then Reply 401 (js "Invalid PIN")
          else Reply 400 (js "PIN required")).
Proof.
  apply (validatePIN_behind_authenticate (fun _ => None) (Some (JStr (js "654321")))
           example_user).
  reflexivity.
Defined.

Lemma login_sixth_limited_witness :
  login_run (P := toy) example_env (fun _ => Some active_account) (fun _ _ => true)
    (js "10.0.0.1")
    [(0%Z, js "kader1", js "a"); (1%Z, js "kader1", js "b"); (2%Z, js "kader2", []);
     (3%Z, js "kader2", js "d"); (4%Z, js "kader1", js "e"); (5%Z, js "kader1", js "f");
     (6%Z, js "kader1", js "g")]
    ∅
  = [login (P := toy) example_env (fun _ => Some active_account) (fun _ _ => true)
       0 (js "kader1") (js "a");
     login (P := toy) example_env (fun _ => Some active_account) (fun _ _ => true)
       1 (js "kader1") (js "b");
     Failed (Reply 400 (js "Validation failed"));
     login (P := toy) example_env (fun _ => Some active_account) (fun _ _ => true)
       3 (js "kader2") (js "d");
     login (P := toy) example_env (fun _ => Some active_account) (fun _ _ => true)
       4 (js "kader1") (js "e");
     login (P := toy) example_env (fun _ => Some active_account) (fun _ _ => true)
       5 (js "kader1") (js "f");
     Failed (Reply 429 (js "Too many attempts. Please try again later."))].
Proof.
  apply (login_sixth_limited (P := toy) example_env (fun _ => Some active_account)
           (fun _ _ => true) (js "10.0.0.1") ∅ 0%Z).
  - reflexivity.
  - unfold windowMs. repeat constructor; cbn [fst]; lia.
Defined.

Lemma login_token_authenticates_witness :
  (fun _ : jsstring => Some active_account) (js "kader1") = Some active_account
  /\ authenticate (P := toy) example_env example_getOne 1000
       (Some (js "Bearer " ++ example_token)) = inr example_user.
Proof.
  apply (login_token_authenticates toy_laws example_env (fun _ => Some active_account)
           (fun _ _ => true) 0 (js "kader1") (js "secret") example_token active_account
           example_getOne example_user 1000).
  - vm_compute. reflexivity.
  - reflexivity.
  - reflexivity.
  - reflexivity.
Defined.

End AccessExamples.

(** ** Integers in a radix *)

Section RadixFacts.
Import Radix.

Lemma digit_value_radix_digit d : d < 36 -> digit_value (radix_digit d) = Some d.
Proof.
  intros Hd. unfold digit_value, radix_digit, is_digit.
  destruct (N.ltb_spec d 10).
  - replace ((48 <=? 48 + d) && (48 + d <=? 57)) with true; [f_equal; lia|].
    symmetry. apply andb_true_iff. rewrite !N.leb_le. lia.
  - replace ((48 <=? 87 + d) && (87 + d <=? 57)) with false.
    + replace ((97 <=? 87 + d) && (87 + d <=? 122)) with true; [f_equal; lia|].
      symmetry. apply andb_true_iff. rewrite !N.leb_le. lia.
    + symmetry. apply andb_false_iff. rewrite !N.leb_gt. lia.
Qed.

(** A digit is a numeral or a lower-case letter. *)
Lemma radix_digit_range d :
  d < 36 -> 48 <= radix_digit d <= 57 \/ 97 <= radix_digit d <= 122.
Proof. intros Hd. unfold radix_digit. destruct (N.ltb_spec d 10); lia. Qed.

Lemma radix_digits_acc radix fuel : forall n acc,
  radix_digits radix fuel n acc = radix_digits radix fuel n [] ++ acc.
Proof.
  induction fuel as [|fuel IH]; intros n acc; simpl; [done|].
  destruct (n <? radix); [done|].
  rewrite (IH _ (_ :: acc)), (IH _ [_]), <- app_assoc. done.
Qed.

Lemma radix_value_snoc radix ds d :
  radix_value radix (ds ++ [d]) = radix * radix_value radix ds + d.
Proof. unfold radix_value. by rewrite fold_left_app. Qed.

(** The text of a number is the text of its digits, which are below the
    radix and have the number as value. *)
Lemma radix_digits_values radix fuel : forall n,
  2 <= radix -> n < 2 ^ N.of_nat fuel ->
  exists ds,
    radix_digits radix fuel n [] = map radix_digit ds
    /\ Forall (fun d => d < radix) ds
    /\ radix_value radix ds = n
    /\ (0 < fuel -> ds <> [])%nat.
Proof.
  induction fuel as [|fuel IH]; intros n Hradix Hn.
  - exists []. simpl in *. split; [done|]. split; [constructor|].
    split; [unfold radix_value; simpl; lia|lia].
  - cbn [radix_digits]. destruct (N.ltb_spec n radix) as [Hlt|Hge].
    + exists [n]. rewrite N.mod_small by done. split; [done|].
      split; [by repeat constructor|]. split; [unfold radix_value; simpl; lia|done].
    + destruct (IH (n / radix) Hradix) as (ds & Htext & Hall & Hvalue & _).
      { rewrite Nat2N.inj_succ, N.pow_succ_r' in Hn.
        assert (n / radix <= n / 2) by (apply N.div_le_compat_l; lia).
        div_lia. }
      exists (ds ++ [n mod radix]).
      rewrite radix_digits_acc, Htext, map_app. split; [done|]. split; [|split].
      * apply Forall_app. split; [done|]. repeat constructor. apply N.mod_lt. lia.
      * rewrite radix_value_snoc, Hvalue.
        pose proof (N.div_mod n radix ltac:(lia)). lia.
      * by destruct ds.
Qed.

Lemma N_toString_radix_values radix n :
  2 <= radix ->
  exists ds,
    N_toString_radix radix n = map radix_digit ds
    /\ Forall (fun d => d < radix) ds
    /\ radix_value radix ds = n /\ ds <> [].
Proof.
  intros Hradix. unfold N_toString_radix.
  destruct (radix_digits_values radix (S (N.to_nat (N.log2 n))) n Hradix
              (N_toString_fuel n)) as (ds & ? & ? & ? & Hne).
  exists ds. split; [done|]. split; [done|]. split; [done|]. apply Hne. lia.
Qed.

Lemma span_radix_digits radix ds rest :
  radix <= 36 -> Forall (fun d => d < radix) ds -> radix_end radix rest ->
  span_radix radix (map radix_digit ds ++ rest) = (ds, rest).
Proof.
  intros Hradix Hds Hrest. induction Hds as [|d ds Hd _ IH].
  - destruct rest as [|c rest]; [done|]. cbn [map app span_radix].
    unfold radix_end in Hrest. destruct (digit_value c) as [v|]; [|done].
    by destruct (N.ltb_spec v radix); [lia|].
  - cbn [map app span_radix]. rewrite digit_value_radix_digit by lia.
    destruct (N.ltb_spec d radix); [|lia]. by rewrite IH.
Qed.

(** Reading back the text of a natural number in its radix. *)
Lemma span_radix_toString radix n rest :
  2 <= radix <= 36 -> radix_end radix rest ->
  exists ds,
    span_radix radix (N_toString_radix radix n ++ rest) = (ds, rest)
    /\ radix_value radix ds = n /\ ds <> [].
Proof.
  intros [Hlo Hhi] Hrest.
  destruct (N_toString_radix_values radix n Hlo) as (ds & -> & Hall & Hvalue & Hne).
  exists ds. by rewrite span_radix_digits.
Qed.

Lemma N_toString_radix_inj radix n1 n2 :
  2 <= radix <= 36 -> N_toString_radix radix n1 = N_toString_radix radix n2 -> n1 = n2.
Proof.
  intros Hradix Heq.
  destruct (span_radix_toString radix n1 [] Hradix I) as (ds1 & H1 & <- & _).
  destruct (span_radix_toString radix n2 [] Hradix I) as (ds2 & H2 & <- & _).
  rewrite Heq, H2 in H1. by injection H1 as ->.
Qed.

Lemma N_toString_radix_chars radix n c :
  2 <= radix <= 36 -> c ∈ N_toString_radix radix n ->
  48 <= c <= 57 \/ 97 <= c <= 122.
Proof.
  intros [Hlo Hhi] Hc.
  destruct (N_toString_radix_values radix n Hlo) as (ds & Heq & Hall & _).
  rewrite Heq in Hc. apply list_elem_of_fmap in Hc as (d & -> & Hd).
  rewrite Forall_forall in Hall. apply radix_digit_range.
  specialize (Hall d Hd). lia.
Qed.

Lemma Z_toString_radix_chars radix z c :
  2 <= radix <= 36 -> c ∈ Z_toString_radix radix z ->
  c = 45 \/ 48 <= c <= 57 \/ 97 <= c <= 122.
Proof.
  intros Hradix. unfold Z_toString_radix. destruct (z <? 0)%Z.
  - intros [->|Hc]%elem_of_cons; [by left|].
    right. by eapply N_toString_radix_chars.
  - intros Hc. right. by eapply N_toString_radix_chars.
Qed.

Lemma Z_toString_radix_inj radix z1 z2 :
  2 <= radix <= 36 -> Z_toString_radix radix z1 = Z_toString_radix radix z2 -> z1 = z2.
Proof.
  intros Hradix. unfold Z_toString_radix.
  assert (forall n, 45 ∉ N_toString_radix radix n) as Hminus.
  { intros n Hin. apply (N_toString_radix_chars radix n 45 Hradix) in Hin. lia. }
  assert (forall n t, N_toString_radix radix n <> 45 :: t) as Hhead.
  { intros n t Heq. apply (Hminus n). rewrite Heq. left. }
  destruct (Z.ltb_spec z1 0), (Z.ltb_spec z2 0); intros Heq.
  - injection Heq as Heq. apply N_toString_radix_inj in Heq; [lia|done].
  - symmetry in Heq. by apply Hhead in Heq.
  - by apply Hhead in Heq.
  - apply N_toString_radix_inj in Heq; [lia|done].
Qed.

Lemma N_toString_chars n c : c ∈ N_toString n -> 48 <= c <= 57.
Proof.
  intros Hc. pose proof (N_toString_all n) as Hall.
  rewrite forallb_forall in Hall. apply is_digit_spec, Hall.
  by apply list_elem_of_In.
Qed.

Lemma Z_toString_chars z c : c ∈ Z_toString z -> c = 45 \/ 48 <= c <= 57.
Proof.
  unfold Z_toString. destruct (z <? 0)%Z.
  - intros [->|Hc]%elem_of_cons; [by left|]. right. by eapply N_toString_chars.
  - intros Hc. right. by eapply N_toString_chars.
Qed.

Lemma N_toString_inj n1 n2 : N_toString n1 = N_toString n2 -> n1 = n2.
Proof.
  intros Heq. by rewrite <- (N_toString_value n1), <- (N_toString_value n2), Heq.
Qed.

Lemma Z_toString_inj z1 z2 : Z_toString z1 = Z_toString z2 -> z1 = z2.
Proof.
  unfold Z_toString.
  assert (forall n t, N_toString n <> 45 :: t) as Hhead.
  { intros n t Heq. assert (45 ∈ N_toString n) as Hin by (rewrite Heq; left).
    apply N_toString_chars in Hin. lia. }
  destruct (Z.ltb_spec z1 0), (Z.ltb_spec z2 0); intros Heq.
  - injection Heq as Heq. apply N_toString_inj in Heq. lia.
  - symmetry in Heq. by apply Hhead in Heq.
  - by apply Hhead in Heq.
  - apply N_toString_inj in Heq. lia.
Qed.

End RadixFacts.

(** ** Printable identifiers and the scan route *)

Section QRIdFacts.
Import QR Radix QRId.

Lemma generateQRId_unfold profileId now random :
  generateQRId profileId now random =
  81 :: 82 :: Z_toString profileId
    ++ 95 :: Z_toString_radix 36 now ++ 95 :: substr 2 5 random.
Proof. reflexivity. Qed.

Lemma forallb_is_digit_underscore ds rest :
  forallb is_digit (ds ++ 95 :: rest) = false.
Proof. rewrite forallb_app. cbn [forallb]. apply andb_false_r. Qed.

(** X7: the printable identifier of a profile is not a payload that
    [parseQRData] decodes, although [validateQRFormat] accepts it: for every
    non-negative profile id, [validateQRFormat (generateQRId id)] is [true]
    and [parseQRData (generateQRId id)] is the error 'Invalid QR code
    data'. *)
Theorem generated_id_validates_not_decodes profileId now random :
  (0 <= profileId)%Z ->
  validateQRFormat (generateQRId profileId now random) = Some (JBool true)
  /\ parseQRData (generateQRId profileId now random)
     = Invalid (js "Invalid QR code data").
Proof.
  intros Hid. rewrite generateQRId_unfold.
  assert (exists d ds, Z_toString profileId = d :: ds /\ is_digit d = true)
    as (d & ds & Heq & Hd).
  { unfold Z_toString. destruct (Z.ltb_spec profileId 0); [lia|].
    apply N_toString_cons. }
  rewrite Heq. cbn [app]. split.
  - unfold validateQRFormat, validate_structured. rewrite JSON_parse_Q.
    cbn [legacy_prefix]. by rewrite Hd.
  - unfold parseQRData. rewrite parse_structured_Q. cbn [legacy_exact].
    by rewrite forallb_is_digit_underscore, andb_false_r.
Qed.

Lemma generated_id_validates_not_decodes_witness :
  validateQRFormat (generateQRId 12 1700000000000 (js "0.4fzyo82mvyr")) = Some (JBool true)
  /\ parseQRData (generateQRId 12 1700000000000 (js "0.4fzyo82mvyr"))
     = Invalid (js "Invalid QR code data").
Proof.
  apply (generated_id_validates_not_decodes 12 1700000000000 (js "0.4fzyo82mvyr")).
  lia.
Defined.

Lemma app_separator_inj (sep : N) (a1 a2 b1 b2 : jsstring) :
  sep ∉ a1 -> sep ∉ a2 -> a1 ++ sep :: b1 = a2 ++ sep :: b2 -> a1 = a2 /\ b1 = b2.
Proof.
  revert a2. induction a1 as [|x a1 IH]; intros [|y a2] H1 H2 Heq.
  - by injection Heq as ->.
  - injection Heq as <- _. by destruct H2; left.
  - injection Heq as -> _. by destruct H1; left.
  - injection Heq as -> Heq. apply not_elem_of_cons in H1 as [_ H1].
    apply not_elem_of_cons in H2 as [_ H2].
    destruct (IH a2 H1 H2 Heq) as [-> ->]. done.
Qed.

(** X8: [generateQRId] gives different identifiers to different profiles,
    and to one profile at different milliseconds: the identifier determines
    the profile id, the time and the random part it was made from. *)
Theorem generateQRId_injective id1 now1 random1 id2 now2 random2 :
  generateQRId id1 now1 random1 = generateQRId id2 now2 random2 ->
  id1 = id2 /\ now1 = now2 /\ substr 2 5 random1 = substr 2 5 random2.
Proof.
  rewrite !generateQRId_unfold. intros Heq. injection Heq as Heq.
  apply app_separator_inj in Heq as [Hid Heq].
  - apply Z_toString_inj in Hid as ->.
    apply app_separator_inj in Heq as [Hnow Hrandom].
    + apply Z_toString_radix_inj in Hnow as ->; [done|lia].
    + intros Hin. apply Z_toString_radix_chars in Hin; lia.
    + intros Hin. apply Z_toString_radix_chars in Hin; lia.
  - intros Hin. apply Z_toString_chars in Hin. lia.
  - intros Hin. apply Z_toString_chars in Hin. lia.
Qed.

Lemma generateQRId_injective_witness :
  12%Z = 12%Z /\ 1700000000000%Z = 1700000000000%Z
  /\ substr 2 5 (js "0.4fzyo82mvyr") = substr 2 5 (js "0.4fzyoXXXXXX").
Proof.
  apply (generateQRId_injective 12 1700000000000 (js "0.4fzyo82mvyr")
           12 1700000000000 (js "0.4fzyoXXXXXX")).
  reflexivity.
Defined.

Lemma legacy_exact_startsWith s : legacy_exact s = true -> startsWith (js "QR") s = true.
Proof.
  unfold legacy_exact. destruct s as [|q [|r [|d rest]]]; try done.
  intros H. apply andb_true_iff in H as [H _]. apply andb_true_iff in H as [H _].
  apply andb_true_iff in H as [->%N.eqb_eq ->%N.eqb_eq]. reflexivity.
Qed.

(** X9: the scan route looks a profile up by the id that [parseQRData]
    extracts, whenever [parseQRData] accepts the text: the [id] property of a
    Structured payload, the digits of a Legacy one (as a string). *)
Theorem scan_agrees_with_parseQRData qr_data :
  (forall data, parseQRData qr_data = Structured data ->
     scan_profile_id (Some qr_data) = inr (prop data (js "id"))
     /\ truthy (prop data (js "id")) = true)
  /\ (forall legacy_id, parseQRData qr_data = Legacy legacy_id ->
        scan_profile_id (Some qr_data) = inr (Some (JStr legacy_id))).
Proof.
  assert (forall s : jsstring,
            let outcome := if legacy_exact s then Legacy (replace (js "QR") [] s)
                           else Invalid (js "Invalid QR code data") in
            (forall data, outcome <> Structured data)
            /\ (forall legacy_id, outcome = Legacy legacy_id ->
                  (if startsWith (js "QR") s
                   then inr (Some (JStr (replace (js "QR") [] s)))
                   else inl (Auth.Reply 400 (js "Invalid QR code format")))
                  = (inr (Some (JStr legacy_id)) : Auth.Response + option JValue)))
    as Hlegacy.
  { intros s. cbn zeta. destruct (legacy_exact s) eqn:Hexact; [|done].
    split; [done|]. intros legacy_id [= <-].
    by rewrite (legacy_exact_startsWith _ Hexact). }
  unfold parseQRData, parse_structured, scan_profile_id.
  destruct qr_data as [|c qr_data]; [done|].
  specialize (Hlegacy (c :: qr_data)). cbn zeta in Hlegacy.
  destruct Hlegacy as [Hnot Hlegacy].
  destruct (JSON_parse (c :: qr_data)) as [data|];
    [|split; [intros data' Heq; by destruct (Hnot data')|exact Hlegacy]].
  destruct data;
    try (split; [intros data' Heq; by destruct (Hnot data')|exact Hlegacy]);
    (destruct (negb _ || negb _ || negb _) eqn:Hcond; [done|];
     apply orb_false_iff in Hcond as [Hcond _];
     apply orb_false_iff in Hcond as [_ Hid%negb_false_iff];
     split; [by intros data' [= <-]|done]).
Qed.

Lemma scan_agrees_with_parseQRData_witness :
  scan_profile_id (Some (js "QR42")) = inr (Some (JStr (js "42"))).
Proof.
  apply (proj2 (scan_agrees_with_parseQRData (js "QR42")) (js "42")).
  vm_compute. reflexivity.
Defined.

(** X10: the scan route reads back the id of every payload that
    [createProfileQRData] writes, a falsy id such as [0] included (where
    [parseQRData] rejects the payload). *)
Theorem scan_reads_created_payload profileId profileName timestamp :
  atom profileId ->
  scan_profile_id (Some (createProfileQRData profileId profileName timestamp))
  = inr (Some profileId).
Proof.
  intros Hatom. unfold scan_profile_id.
  rewrite JSON_parse_createProfileQRData by done.
  rewrite createProfileQRData_fields.
  change (JSON_stringify (JObj (qr_fields profileId profileName timestamp)))
    with (123 :: join_comma (map member_text (qr_fields profileId profileName timestamp))
              ++ [125]).
  reflexivity.
Qed.

Lemma scan_reads_created_payload_witness :
  scan_profile_id (Some (createProfileQRData (JNum 0) (js "Siti") (js "2024-01-01")))
  = inr (Some (JNum 0)).
Proof.
  apply (scan_reads_created_payload (JNum 0) (js "Siti") (js "2024-01-01")).
  exact I.
Defined.

End QRIdFacts.

(** ** [parseInt] on decimal numerals *)

Section ParseIntFacts.
Import Radix.

Lemma digit_value_decimal c :
  is_digit c = true -> digit_value c = Some (c - 48) /\ c - 48 < 10.
Proof.
  intros Hc. unfold digit_value. rewrite Hc. split; [done|].
  apply is_digit_spec in Hc. lia.
Qed.

Lemma radix_end_decimal rest : no_digit_ahead rest -> radix_end 10 rest.
Proof.
  destruct rest as [|c rest]; [done|]. cbn [no_digit_ahead radix_end].
  intros Hc. unfold digit_value. rewrite Hc.
  destruct (N.leb_spec 97 c), (N.leb_spec c 122); cbn [andb]; try lia;
    destruct (N.leb_spec 65 c), (N.leb_spec c 90); cbn [andb]; try lia; done.
Qed.

Lemma span_radix_decimal ds rest :
  forallb is_digit ds = true -> no_digit_ahead rest ->
  span_radix 10 (ds ++ rest) = (map (fun c => c - 48) ds, rest).
Proof.
  intros Hds Hrest. induction ds as [|d ds IH].
  - pose proof (radix_end_decimal rest Hrest) as Hend.
    destruct rest as [|c rest]; [done|]. cbn [app map span_radix].
    cbn [radix_end] in Hend. destruct (digit_value c) as [v|]; [|done].
    by destruct (N.ltb_spec v 10); [lia|].
  - cbn [forallb] in Hds. apply andb_true_iff in Hds as [Hd Hds].
    destruct (digit_value_decimal d Hd) as [Hv Hlt].
    cbn [app map span_radix]. rewrite Hv.
    destruct (N.ltb_spec (d - 48) 10); [|lia]. by rewrite IH.
Qed.

Lemma radix_value_decimal ds :
  radix_value 10 (map (fun c => c - 48) ds) = digits_value 0 ds.
Proof.
  unfold radix_value. generalize 0. induction ds as [|d ds IH]; intros acc; [done|].
  cbn [map fold_left digits_value]. apply IH.
Qed.

Lemma is_white_space_digit c : 43 <= c <= 57 -> is_white_space c = false.
Proof.
  intros Hc. unfold is_white_space.
  repeat match goal with
         | |- context [N.eqb c ?k] => destruct (N.eqb_spec c k); [lia|]
         end.
  destruct (N.leb_spec 8192 c); [lia|]. done.
Qed.

(** [parseInt] on a run of decimal digits and what follows it. *)
Lemma parseInt_digits d ds rest :
  forallb is_digit (d :: ds) = true ->
  no_digit_ahead rest ->
  (ds = [] -> numeral_end rest) ->
  parseInt (d :: ds ++ rest) = Some (Z.of_N (digits_value 0 (d :: ds))).
Proof.
  intros Hall Hrest Hx.
  pose proof Hall as Hall'. cbn [forallb] in Hall'.
  apply andb_true_iff in Hall' as [Hd Hds]. pose proof Hd as Hd'.
  apply is_digit_spec in Hd'.
  unfold parseInt. cbn [trim_start]. rewrite is_white_space_digit by lia.
  destruct (N.eqb_spec d 45); [lia|]. destruct (N.eqb_spec d 43); [lia|].
  assert (match d :: ds ++ rest with
          | z :: x :: t =>
              if (z =? 48) && ((x =? 120) || (x =? 88)) then (16, t)
              else (10, d :: ds ++ rest)
          | _ => (10, d :: ds ++ rest)
          end = (10, d :: ds ++ rest)) as ->.
  { destruct ds as [|x ds].
    - specialize (Hx eq_refl). destruct rest as [|x rest]; [done|].
      cbn [app]. destruct Hx as (_ & H120 & H88).
      destruct (N.eqb_spec x 120); [done|]. destruct (N.eqb_spec x 88); [done|].
      by rewrite andb_false_r.
    - cbn [app]. cbn [forallb] in Hds. apply andb_true_iff in Hds as [Hx' _].
      apply is_digit_spec in Hx'.
      destruct (N.eqb_spec x 120); [lia|]. destruct (N.eqb_spec x 88); [lia|].
      by rewrite andb_false_r. }
  change (d :: ds ++ rest) with ((d :: ds) ++ rest).
  rewrite span_radix_decimal by done. cbn [map].
  change (d - 48 :: map (fun c => c - 48) ds) with (map (fun c => c - 48) (d :: ds)).
  by rewrite radix_value_decimal.
Qed.

Lemma numeral_end_no_digit rest : numeral_end rest -> no_digit_ahead rest.
Proof. destruct rest; simpl; tauto. Qed.

(** [parseInt] reads back the text of an integer, whatever follows it short
    of a digit or an [x]. *)
Lemma parseInt_toString z rest :
  numeral_end rest -> parseInt (Z_toString z ++ rest) = Some z.
Proof.
  intros Hrest. pose proof (numeral_end_no_digit rest Hrest) as Hnd.
  unfold Z_toString. destruct (Z.ltb_spec z 0) as [Hneg|Hpos].
  - destruct (N_toString_cons (Z.to_N (- z))) as (d & ds & Heq & Hd).
    pose proof (N_toString_all (Z.to_N (- z))) as Hall.
    pose proof (N_toString_value (Z.to_N (- z))) as Hvalue.
    rewrite Heq in *.
    assert (parseInt (d :: ds ++ rest) = Some (Z.of_N (digits_value 0 (d :: ds))))
      as Hparse by by apply parseInt_digits.
    revert Hparse. unfold parseInt. cbn [app trim_start].
    change (is_white_space 45) with false. cbv iota.
    change (45 =? 45) with true. cbv iota.
    apply is_digit_spec in Hd. rewrite is_white_space_digit by lia.
    destruct (N.eqb_spec d 45); [lia|]. destruct (N.eqb_spec d 43); [lia|].
    destruct (match d :: ds ++ rest with
              | z0 :: x :: t =>
                  if (z0 =? 48) && ((x =? 120) || (x =? 88)) then (16, t)
                  else (10, d :: ds ++ rest)
              | _ => (10, d :: ds ++ rest)
              end) as [radix s3].
    destruct (span_radix radix s3) as [[|v vs] tail]; [done|].
    intros [= Hv]. f_equal. cbn [digits_value] in Hvalue. rewrite Hv, Hvalue. lia.
  - destruct (N_toString_cons (Z.to_N z)) as (d & ds & Heq & Hd).
    pose proof (N_toString_all (Z.to_N z)) as Hall.
    pose proof (N_toString_value (Z.to_N z)) as Hvalue.
    rewrite Heq in *. cbn [app].
    rewrite parseInt_digits by done. f_equal. rewrite Hvalue. lia.
Qed.

End ParseIntFacts.

(** ** Blood pressure readings and pagination *)

Section ReadingFacts.
Import Radix Validation Pagination.

Lemma parseInt_toString_alone z : parseInt (Z_toString z) = Some z.
Proof. rewrite <- (app_nil_r (Z_toString z)). by apply parseInt_toString. Qed.

Lemma parseInt_digits_alone d ds :
  forallb is_digit (d :: ds) = true ->
  parseInt (d :: ds) = Some (Z.of_N (digits_value 0 (d :: ds))).
Proof.
  intros Hall. rewrite <- (app_nil_r ds) at 1. by apply parseInt_digits.
Qed.

Lemma range_check systolic diastolic :
  (70 <=? systolic)%Z && (systolic <=? 250)%Z
  && (40 <=? diastolic)%Z && (diastolic <=? 150)%Z && (diastolic <? systolic)%Z = true
  <-> reading_in_range systolic diastolic.
Proof.
  unfold reading_in_range.
  rewrite !andb_true_iff, !Z.leb_le, Z.ltb_lt. tauto.
Qed.

Lemma Z_toString_no_slash z : 47 ∉ Z_toString z.
Proof. intros Hin. apply Z_toString_chars in Hin. lia. Qed.

Lemma validateBloodPressure_parts part0 part1 :
  47 ∉ part0 -> 47 ∉ part1 ->
  validateBloodPressure (part0 ++ 47 :: part1) =
  match parseInt part0, parseInt part1 with
  | Some systolic, Some diastolic =>
      (70 <=? systolic)%Z && (systolic <=? 250)%Z
      && (40 <=? diastolic)%Z && (diastolic <=? 150)%Z
      && (diastolic <? systolic)%Z
  | _, _ => false
  end.
Proof.
  intros H0 H1. unfold validateBloodPressure.
  by rewrite split_app, split_no_sep.
Qed.

(** X11: [validateBloodPressure] accepts the reading [systolic/diastolic],
    written as two integers, exactly when the systolic value is from 70 to
    250, the diastolic from 40 to 150, and the systolic is the larger. *)
Theorem validateBloodPressure_reading systolic diastolic :
  validateBloodPressure (Z_toString systolic ++ 47 :: Z_toString diastolic) = true
  <-> reading_in_range systolic diastolic.
Proof.
  rewrite validateBloodPressure_parts by apply Z_toString_no_slash.
  rewrite !parseInt_toString_alone. apply range_check.
Qed.

(** X12: [validateBloodPressure] reads its two numbers with [parseInt], so
    it ignores any text after each number that holds no slash and starts
    with neither a digit nor an [x]: with or without such text the answer is
    the same. *)
Theorem validateBloodPressure_ignores_suffix systolic diastolic unit0 unit1 :
  47 ∉ unit0 -> 47 ∉ unit1 -> numeral_end unit0 -> numeral_end unit1 ->
  validateBloodPressure
    ((Z_toString systolic ++ unit0) ++ 47 :: Z_toString diastolic ++ unit1)
  = validateBloodPressure (Z_toString systolic ++ 47 :: Z_toString diastolic).
Proof.
  intros H0 H1 Hend0 Hend1.
  rewrite !validateBloodPressure_parts;
    try apply Z_toString_no_slash;
    try (intros Hin; apply elem_of_app in Hin as [Hin|Hin];
         [by apply Z_toString_no_slash in Hin|done]).
  by rewrite !parseInt_toString, !parseInt_toString_alone.
Qed.

Lemma validateBloodPressure_ignores_suffix_witness :
  validateBloodPressure ((Z_toString 120 ++ js " mmHg") ++ 47 :: Z_toString 80 ++ js "!")
  = validateBloodPressure (Z_toString 120 ++ 47 :: Z_toString 80).
Proof.
  apply (validateBloodPressure_ignores_suffix 120 80 (js " mmHg") (js "!")).
  - vm_compute. intros Hin. by repeat (apply elem_of_cons in Hin as [Hin|Hin]; [done|]);
      apply elem_of_nil in Hin.
  - vm_compute. intros Hin. by repeat (apply elem_of_cons in Hin as [Hin|Hin]; [done|]);
      apply elem_of_nil in Hin.
  - vm_compute. repeat split; discriminate.
  - vm_compute. repeat split; discriminate.
Defined.

Lemma span_digits_spec s :
  let '(ds, rest) := span_digits s in
  s = ds ++ rest /\ forallb is_digit ds = true /\ no_digit_ahead rest.
Proof.
  induction s as [|c s IH]; [done|]. cbn [span_digits].
  destruct (is_digit c) eqn:Hc; [|by cbn].
  destruct (span_digits s) as [ds rest]. destruct IH as (-> & Hall & Hrest).
  cbn [app forallb]. by rewrite Hc.
Qed.

(** X13: a text in the format the checkup routes require,
    [/^\d{2,3}\/\d{2,3}$/], is two runs of two or three digits around a
    slash; [validateBloodPressure] accepts such a text exactly when the two
    numbers are in range, so the format alone lets readings such as 99/99
    through. *)
Theorem blood_pressure_format_reading s :
  blood_pressure_format s = true ->
  exists systolic diastolic,
    s = systolic ++ 47 :: diastolic
    /\ forallb is_digit systolic = true /\ forallb is_digit diastolic = true
    /\ (2 <= length systolic <= 3)%nat /\ (2 <= length diastolic <= 3)%nat
    /\ (validateBloodPressure s = true <->
        reading_in_range (Z.of_N (digits_value 0 systolic))
                         (Z.of_N (digits_value 0 diastolic))).
Proof.
  unfold blood_pressure_format. pose proof (span_digits_spec s) as Hspan.
  destruct (span_digits s) as [ds1 rest]. destruct Hspan as (-> & Hall1 & Hrest1).
  intros H. apply andb_true_iff in H as [Hlen1 H].
  apply andb_true_iff in Hlen1 as [Hlo1%Nat.leb_le Hhi1%Nat.leb_le].
  destruct rest as [|c rest]; [done|]. apply andb_true_iff in H as [->%N.eqb_eq H].
  pose proof (span_digits_spec rest) as Hspan.
  destruct (span_digits rest) as [ds2 tail]. destruct Hspan as (-> & Hall2 & _).
  apply andb_true_iff in H as [Hlen2 Htail].
  apply andb_true_iff in Hlen2 as [Hlo2%Nat.leb_le Hhi2%Nat.leb_le].
  destruct tail as [|? ?]; [|done]. rewrite app_nil_r.
  exists ds1, ds2. do 5 (split; [done|]).
  assert (forall ds, forallb is_digit ds = true -> 47 ∉ ds) as Hslash.
  { intros ds Hds Hin. rewrite forallb_forall in Hds.
    apply list_elem_of_In, Hds, is_digit_spec in Hin. lia. }
  rewrite validateBloodPressure_parts by by apply Hslash.
  destruct ds1 as [|d1 ds1]; [simpl in Hlo1; lia|].
  destruct ds2 as [|d2 ds2]; [simpl in Hlo2; lia|].
  rewrite !parseInt_digits_alone by done. apply range_check.
Qed.

Lemma blood_pressure_format_reading_witness :
  exists systolic diastolic,
    js "99/99" = systolic ++ 47 :: diastolic
    /\ forallb is_digit systolic = true /\ forallb is_digit diastolic = true
    /\ (2 <= length systolic <= 3)%nat /\ (2 <= length diastolic <= 3)%nat
    /\ (validateBloodPressure (js "99/99") = true <->
        reading_in_range (Z.of_N (digits_value 0 systolic))
                         (Z.of_N (digits_value 0 diastolic))).
Proof.
  apply (blood_pressure_format_reading (js "99/99")). reflexivity.
Defined.

End ReadingFacts.

Section PaginationFacts.
Import Radix Auth Pagination.
Open Scope Z_scope.

Lemma ceil_div_spec a b :
  0 < b -> (ceil_div a b - 1) * b < a <= ceil_div a b * b.
Proof.
  intros Hb. unfold ceil_div.
  pose proof (Z.div_mod (- a) b ltac:(lia)) as Hdiv.
  pose proof (Z.mod_pos_bound (- a) b Hb) as Hmod. nia.
Qed.

(** A run of digits writes a number below the power of ten of its length. *)
Lemma digits_value_bound ds :
  forallb is_digit ds = true ->
  (digits_value 0 ds < 10 ^ N.of_nat (length ds))%N.
Proof.
  induction ds as [|d ds IH] using rev_ind; intros Hds; [done|].
  rewrite forallb_app in Hds. apply andb_true_iff in Hds as [Hds Hd].
  cbn [forallb] in Hd. rewrite andb_true_r in Hd. apply is_digit_spec in Hd.
  rewrite digits_value_snoc, length_app. cbn [length].
  replace (N.of_nat (length ds + 1)) with (N.succ (N.of_nat (length ds))) by lia.
  rewrite N.pow_succ_r'. specialize (IH Hds). lia.
Qed.

(** [parseInt] under a sign. *)
Lemma parseInt_signed d ds :
  forallb is_digit (d :: ds) = true ->
  parseInt (45%N :: d :: ds) = Some (- Z.of_N (digits_value 0%N (d :: ds)))
  /\ parseInt (43%N :: d :: ds) = Some (Z.of_N (digits_value 0%N (d :: ds))).
Proof.
  intros Hall. pose proof (parseInt_digits_alone d ds Hall) as Hparse.
  cbn [forallb] in Hall. apply andb_true_iff in Hall as [Hd%is_digit_spec _].
  revert Hparse. unfold parseInt. cbn [trim_start].
  change (is_white_space 45%N) with false. change (is_white_space 43%N) with false.
  cbv iota. change (45 =? 45)%N with true. change (43 =? 45)%N with false.
  change (43 =? 43)%N with true. cbv iota.
  rewrite is_white_space_digit by lia.
  destruct (N.eqb_spec d 45%N); [lia|]. destruct (N.eqb_spec d 43%N); [lia|].
  destruct (match d :: ds with
            | z0 :: x :: t =>
                if (z0 =? 48)%N && ((x =? 120)%N || (x =? 88)%N) then (16%N, t)
                else (10%N, d :: ds)
            | _ => (10%N, d :: ds)
            end) as [radix s3].
  destruct (span_radix radix s3) as [[|v vs] tail]; [done|].
  intros [= ->]. done.
Qed.

(** [parseInt] reads every text that [isInt] admits as the integer it
    writes. *)
Lemma parseInt_int_text s n : int_text s = Some n -> parseInt s = Some n.
Proof.
  unfold int_text. destruct s as [|c s]; [done|].
  destruct (N.eqb_spec c 45%N) as [->|Hminus].
  - destruct s as [|d ds]; [done|].
    destruct (forallb is_digit (d :: ds)) eqn:Hall; [|done].
    intros [= <-]. by apply parseInt_signed.
  - destruct (N.eqb_spec c 43%N) as [->|Hplus].
    + destruct s as [|d ds]; [done|].
      destruct (forallb is_digit (d :: ds)) eqn:Hall; [|done].
      intros [= <-]. by apply parseInt_signed.
    + destruct (forallb is_digit (c :: s)) eqn:Hall; [|done].
      intros [= <-]. by apply parseInt_digits_alone.
Qed.

(** A text of [isInt] writes an integer below the power of ten of its
    length. *)
Lemma int_text_bound s n :
  int_text s = Some n -> Z.abs n < 10 ^ Z.of_nat (length s).
Proof.
  assert (forall ds, forallb is_digit ds = true ->
                     Z.of_N (digits_value 0%N ds) < 10 ^ Z.of_nat (length ds)) as Hbound.
  { intros ds Hds. pose proof (digits_value_bound ds Hds) as Hlt.
    apply N2Z.inj_lt in Hlt. rewrite N2Z.inj_pow, nat_N_Z in Hlt. exact Hlt. }
  assert (forall k, 10 ^ Z.of_nat k <= 10 ^ Z.of_nat (S k)) as Hmono.
  { intros k. apply Z.pow_le_mono_r; lia. }
  unfold int_text. destruct s as [|c s]; [done|].
  destruct (N.eqb_spec c 45%N) as [->|Hminus].
  - destruct s as [|d ds]; [done|].
    destruct (forallb is_digit (d :: ds)) eqn:Hall; [|done].
    intros Heq. apply (inj Some) in Heq. subst n. specialize (Hbound _ Hall). specialize (Hmono (length (d :: ds))).
    change (length (45%N :: d :: ds)) with (S (length (d :: ds))). lia.
  - destruct (N.eqb_spec c 43%N) as [->|Hplus].
    + destruct s as [|d ds]; [done|].
      destruct (forallb is_digit (d :: ds)) eqn:Hall; [|done].
      intros Heq. apply (inj Some) in Heq. subst n. specialize (Hbound _ Hall). specialize (Hmono (length (d :: ds))).
      change (length (43%N :: d :: ds)) with (S (length (d :: ds))). lia.
    + destruct (forallb is_digit (c :: s)) eqn:Hall; [|done].
      intros Heq. apply (inj Some) in Heq. subst n. specialize (Hbound _ Hall). lia.
Qed.

(** What [validatePagination] lets through: each parameter is absent, or a
    text of [isInt] within the bounds. *)
Lemma validatePagination_next page_q limit_q :
  validatePagination page_q limit_q = None ->
  (page_q = None \/ exists s page, page_q = Some s /\ int_text s = Some page /\ 1 <= page)
  /\ (limit_q = None
      \/ exists s limit, limit_q = Some s /\ int_text s = Some limit /\ 1 <= limit <= 100).
Proof.
  unfold validatePagination.
  destruct (optional_isInt 1 None page_q) eqn:Hpage; [|done].
  destruct (optional_isInt 1 (Some 100) limit_q) eqn:Hlimit; [|done].
  intros _. split.
  - destruct page_q as [s|]; [|by left]. right. cbn [optional_isInt] in Hpage.
    unfold isInt in Hpage. destruct (int_text s) as [page|] eqn:Htext; [|done].
    exists s, page. rewrite andb_true_r in Hpage. apply Z.leb_le in Hpage. done.
  - destruct limit_q as [s|]; [|by left]. right. cbn [optional_isInt] in Hlimit.
    unfold isInt in Hlimit. destruct (int_text s) as [limit|] eqn:Htext; [|done].
    exists s, limit. apply andb_true_iff in Hlimit as [?%Z.leb_le ?%Z.leb_le]. done.
Qed.

(** X14: behind [validatePagination] the list routes never fall back on a
    default for a parameter that is present, and never page with a
    non-positive number: the page is the integer the parameter writes (1
    when absent) and the limit likewise (the route's default when absent),
    from 1 to 100.  For a page parameter of at most 13 characters and a
    count that a double holds exactly, the routes skip the records of the
    earlier pages, report the least number of pages that holds all records
    (none when the count query fails), and set [hasNext] exactly when
    records remain after the current page and [hasPrev] exactly when the
    page is not the first. *)
Theorem pagination_validated default_limit page_q limit_q count :
  1 <= default_limit <= 100 ->
  validatePagination page_q limit_q = None ->
  (forall s, page_q = Some s -> (length s <= 13)%nat) ->
  (forall total, count = Some total -> 0 <= total <= 2 ^ 53) ->
  exists page limit result,
    match page_q with
    | Some s => int_text s = Some page
    | None => page = 1
    end
    /\ match limit_q with
       | Some s => int_text s = Some limit
       | None => limit = default_limit
       end
    /\ 1 <= page /\ 1 <= limit <= 100
    /\ offset default_limit page_q limit_q = Some ((page - 1) * limit)
    /\ pagination default_limit page_q limit_q count = Some result
    /\ currentPage result = page
    /\ Pagination.limit result = limit
    /\ totalRecords result = default 0 count
    /\ (totalPages result - 1) * limit < totalRecords result <= totalPages result * limit
    /\ (hasNext result = true <-> page * limit < totalRecords result)
    /\ (hasPrev result = true <-> 1 < page).
Proof.
  intros Hdefault Hnext Hshort Hcount.
  destruct (validatePagination_next page_q limit_q Hnext) as [Hpage Hlimit].
  set (page := or_default (parse_query page_q) 1).
  set (limit := or_default (parse_query limit_q) default_limit).
  set (total := default 0 count).
  assert (match page_q with
          | Some s => int_text s = Some page
          | None => page = 1
          end /\ 1 <= page < 10 ^ 13) as [Hpage_q Hpage_range].
  { subst page. destruct Hpage as [->|(s & n & -> & Hn & Hpos)].
    { cbn [parse_query or_default]. split; [done|lia]. }
    cbn [parse_query]. rewrite (parseInt_int_text s n Hn). cbn [or_default].
    destruct (Z.eqb_spec n 0); [lia|]. split; [done|]. split; [done|].
    pose proof (int_text_bound s n Hn) as Hbound.
    specialize (Hshort s eq_refl).
    assert (10 ^ Z.of_nat (length s) <= 10 ^ 13)
      by (apply Z.pow_le_mono_r; lia).
    lia. }
  assert (match limit_q with
          | Some s => int_text s = Some limit
          | None => limit = default_limit
          end /\ 1 <= limit <= 100) as [Hlimit_q Hlimit_range].
  { subst limit. destruct Hlimit as [->|(s & n & -> & Hn & Hrange)].
    { cbn [parse_query or_default]. split; [done|lia]. }
    cbn [parse_query]. rewrite (parseInt_int_text s n Hn). cbn [or_default].
    destruct (Z.eqb_spec n 0); [lia|]. done. }
  assert (0 <= total <= 2 ^ 53) as Htotal.
  { subst total. destruct count as [t|]; [by apply Hcount|]. cbn [default]. lia. }
  assert (forall n, Z.abs n <= 2 ^ 53 -> exact n = Some n) as Hexact.
  { intros n Hn. unfold exact. by destruct (Z.leb_spec (Z.abs n) (2 ^ 53)); [|lia]. }
  assert (exact page = Some page) as Hexact_page by (apply Hexact; lia).
  assert (exact limit = Some limit) as Hexact_limit by (apply Hexact; lia).
  assert (exact total = Some total) as Hexact_total by (apply Hexact; lia).
  assert (exact ((page - 1) * limit) = Some ((page - 1) * limit)) as Hexact_offset.
  { apply Hexact. assert (0 <= (page - 1) * limit <= 10 ^ 13 * 100) by nia. lia. }
  pose proof (ceil_div_spec total limit ltac:(lia)) as Hceil.
  exists page, limit,
    {| currentPage := page;
       totalPages := ceil_div total limit;
       totalRecords := total;
       Pagination.limit := limit;
       hasNext := page <? ceil_div total limit;
       hasPrev := 1 <? page |}.
  split; [done|]. split; [done|]. split; [lia|]. split; [done|].
  split.
  { unfold offset. fold page limit. rewrite Hexact_page. cbn [mbind option_bind].
    rewrite Hexact_limit. cbn [mbind option_bind]. done. }
  split.
  { unfold pagination. fold page limit total. rewrite Hexact_page.
    cbn [mbind option_bind]. rewrite Hexact_limit. cbn [mbind option_bind].
    rewrite Hexact_total. cbn [mbind option_bind]. done. }
  cbn [currentPage Pagination.limit totalRecords totalPages hasNext hasPrev].
  split; [done|]. split; [done|]. split; [done|]. split; [lia|].
  rewrite !Z.ltb_lt. split; [|done].
  set (pages := ceil_div total limit) in *. split; intros H.
  - assert (page * limit <= (pages - 1) * limit)
      by (apply Z.mul_le_mono_nonneg_r; lia). lia.
  - apply (Z.mul_lt_mono_pos_r limit); lia.
Qed.

Lemma pagination_validated_witness :
  exists page limit result,
    int_text (js "+3") = Some page
    /\ limit = 10
    /\ 1 <= page /\ 1 <= limit <= 100
    /\ offset 10 (Some (js "+3")) None = Some ((page - 1) * limit)
    /\ pagination 10 (Some (js "+3")) None (Some 25) = Some result
    /\ currentPage result = page
    /\ Pagination.limit result = limit
    /\ totalRecords result = default 0 (Some 25)
    /\ (totalPages result - 1) * limit < totalRecords result <= totalPages result * limit
    /\ (hasNext result = true <-> page * limit < totalRecords result)
    /\ (hasPrev result = true <-> 1 < page).
Proof.
  apply (pagination_validated 10 (Some (js "+3")) None (Some 25)).
  - lia.
  - reflexivity.
  - intros s [= <-]. vm_compute. lia.
  - intros total [= <-]. lia.
Defined.

End PaginationFacts.

(** * Statements sent to the database *)

Section StatementFacts.
Import Auth Database ProfileUpdate.

Lemma placeholders_app (a b : jsstring) :
  placeholders (a ++ b) = (placeholders a + placeholders b)%nat.
Proof. unfold placeholders. by rewrite filter_app, length_app. Qed.

Ltac count_marks :=
  repeat match goal with
         | |- context [placeholders (js ?text)] =>
             let n := eval vm_compute in (placeholders (js text)) in
             change (placeholders (js text)) with n
         end.

Lemma placeholders_join_marks {A} (keys : list A) :
  placeholders (join (js ", ") (map (fun _ => js "?") keys)) = length keys.
Proof.
  induction keys as [|k [|k' keys] IH]; [done|done|].
  change (map _ (k :: k' :: keys))
    with (js "?" :: map (fun _ : A => js "?") (k' :: keys)).
  change (join (js ", ") (js "?" :: map (fun _ : A => js "?") (k' :: keys)))
    with (js "?" ++ js ", " ++ join (js ", ") (map (fun _ : A => js "?") (k' :: keys))).
  rewrite !placeholders_app, IH. count_marks. cbn [length]. lia.
Qed.

Lemma placeholders_join_names (keys : list jsstring) :
  Forall (fun key => placeholders key = 0%nat) keys ->
  placeholders (join (js ", ") keys) = 0%nat.
Proof.
  induction keys as [|k [|k' keys] IH]; intros Hkeys; [done| |].
  - by apply Forall_inv in Hkeys.
  - change (join (js ", ") (k :: k' :: keys))
      with (k ++ js ", " ++ join (js ", ") (k' :: keys)).
    rewrite !placeholders_app, IH by by eapply Forall_inv_tail.
    apply Forall_inv in Hkeys. rewrite Hkeys. count_marks. lia.
Qed.

Lemma placeholders_join_set (keys : list jsstring) :
  Forall (fun key => placeholders key = 0%nat) keys ->
  placeholders (join (js ", ") (map (fun key => key ++ js " = ?") keys)) = length keys.
Proof.
  induction keys as [|k [|k' keys] IH]; intros Hkeys; [done| |].
  - apply Forall_inv in Hkeys. cbn [map join]. rewrite placeholders_app, Hkeys.
    count_marks. cbn [length]. lia.
  - change (map _ (k :: k' :: keys))
      with ((k ++ js " = ?") :: map (fun key => key ++ js " = ?") (k' :: keys)).
    change (join (js ", ") ((k ++ js " = ?") :: map (fun key => key ++ js " = ?") (k' :: keys)))
      with ((k ++ js " = ?") ++ js ", "
              ++ join (js ", ") (map (fun key => key ++ js " = ?") (k' :: keys))).
    rewrite !placeholders_app, IH by by eapply Forall_inv_tail.
    apply Forall_inv in Hkeys. rewrite Hkeys. count_marks. cbn [length]. lia.
Qed.

Lemma update_statement_marks table data whereClause whereParams :
  placeholders table = 0%nat ->
  Forall (fun key => placeholders key = 0%nat) (map fst data) ->
  placeholders whereClause = length whereParams ->
  placeholders (update_statement table data whereClause whereParams).1
  = length (update_statement table data whereClause whereParams).2.
Proof.
  intros Htable Hkeys Hwhere. unfold update_statement. cbn [fst snd].
  rewrite !placeholders_app, Htable, placeholders_join_set, Hwhere by done.
  rewrite length_app, !length_map. count_marks. lia.
Qed.

(** X16 ([insert]): when neither the table name nor a property name of the
    data holds a question mark, the statement built by [insert] has exactly
    one placeholder for each parameter it is executed with, the parameters
    being the values of the data in the order of its properties. *)
Theorem insert_statement_placeholders table data :
  placeholders table = 0%nat ->
  Forall (fun key => placeholders key = 0%nat) (map fst data) ->
  (insert_statement table data).2 = map snd data /\
  placeholders (insert_statement table data).1
  = length (insert_statement table data).2.
Proof.
  intros Htable Hkeys. split; [done|]. unfold insert_statement. cbn [fst snd].
  rewrite !placeholders_app, Htable, placeholders_join_names by done.
  rewrite placeholders_join_marks, !length_map. count_marks. lia.
Qed.

Lemma insert_statement_placeholders_witness :
  let data := [(js "profile_id", JNum 7); (js "tekanan_darah", JStr (js "120/80"));
               (js "catatan", JNull)] in
  (insert_statement (js "checkups") data).2 = map snd data /\
  placeholders (insert_statement (js "checkups") data).1
  = length (insert_statement (js "checkups") data).2.
Proof.
  apply insert_statement_placeholders; [reflexivity|].
  repeat constructor.
Defined.

(** X17 ([update]): when neither the table name nor a property name of the
    data holds a question mark and the where clause has one placeholder for
    each of its parameters, the statement built by [update] has exactly one
    placeholder for each parameter it is executed with: the values of the
    data, then the parameters of the where clause. *)
Theorem update_statement_placeholders table data whereClause whereParams :
  placeholders table = 0%nat ->
  Forall (fun key => placeholders key = 0%nat) (map fst data) ->
  placeholders whereClause = length whereParams ->
  (update_statement table data whereClause whereParams).2
  = map snd data ++ whereParams /\
  placeholders (update_statement table data whereClause whereParams).1
  = length (update_statement table data whereClause whereParams).2.
Proof.
  intros Htable Hkeys Hwhere. split; [done|]. by apply update_statement_marks.
Qed.

Lemma update_statement_placeholders_witness :
  let data := [(js "nama", JStr (js "Siti")); (js "usia", JNum 70)] in
  (update_statement (js "profiles") data (js "id = ?") [JNum 3]).2
  = map snd data ++ [JNum 3] /\
  placeholders (update_statement (js "profiles") data (js "id = ?") [JNum 3]).1
  = length (update_statement (js "profiles") data (js "id = ?") [JNum 3]).2.
Proof.
  apply update_statement_placeholders; [reflexivity| |reflexivity].
  repeat constructor.
Defined.

Lemma defined_fields_cons field fields body :
  defined_fields (field :: fields) body
  = match QR.prop body field with
    | Some value => (field, value) :: defined_fields fields body
    | None => defined_fields fields body
    end.
Proof. unfold defined_fields. simpl. by destruct (QR.prop body field). Qed.

Lemma pick_fields_defined body : forall fields updateData,
  NoDup fields ->
  (forall field, field ∈ fields -> field ∉ map fst updateData) ->
  pick_fields fields body updateData = updateData ++ defined_fields fields body.
Proof.
  induction fields as [|field fields IH]; intros updateData Hnd Hfresh.
  - cbn [pick_fields defined_fields omap]. by rewrite app_nil_r.
  - apply NoDup_cons in Hnd as [Hnotin Hnd].
    cbn [pick_fields]. rewrite defined_fields_cons.
    destruct (QR.prop body field) as [value|] eqn:Hvalue.
    + rewrite IH; [|done|].
      * rewrite obj_set_fresh by (apply Hfresh; left).
        by rewrite <- app_assoc.
      * intros field' Hin. rewrite obj_set_fresh by (apply Hfresh; left).
        rewrite map_app. cbn [map fst]. intros [Hold|Hnew%list_elem_of_singleton]%elem_of_app.
        -- by apply (Hfresh field'); [right|].
        -- by subst.
    + apply IH; [done|]. intros field' Hin. apply Hfresh. by right.
Qed.

Lemma defined_fields_keys fields body :
  map fst (defined_fields fields body)
  = filter (fun field => is_Some (QR.prop body field)) fields.
Proof.
  induction fields as [|field fields IH]; [done|].
  rewrite defined_fields_cons, filter_cons.
  destruct (QR.prop body field) as [value|] eqn:Hvalue.
  - rewrite decide_True by done. cbn [map fst]. by rewrite IH.
  - rewrite decide_False by (by intros [? ?]). done.
Qed.

Lemma defined_fields_values fields body :
  map snd (defined_fields fields body) = omap (QR.prop body) fields.
Proof.
  induction fields as [|field fields IH]; [done|].
  rewrite defined_fields_cons.
  change (omap (QR.prop body) (field :: fields))
    with (match QR.prop body field with
          | Some value => value :: omap (QR.prop body) fields
          | None => omap (QR.prop body) fields
          end).
  rewrite <- IH. by destruct (QR.prop body field).
Qed.

Lemma allowedFields_NoDup : NoDup allowedFields.
Proof. apply (bool_decide_unpack _). by vm_compute. Qed.

Lemma allowedFields_plain : Forall (fun key => placeholders key = 0%nat) allowedFields.
Proof. repeat constructor. Qed.

Lemma picked_allowed body :
  pick_fields allowedFields body [] = defined_fields allowedFields body.
Proof.
  rewrite pick_fields_defined; [done|apply allowedFields_NoDup|].
  intros field _. cbn [map]. apply not_elem_of_nil.
Qed.

(** X18 ([PUT /api/profiles/:id]): whatever the body holds, a statement the
    handler executes sets only allowed columns, each at most once and in the
    order of the allowed list: exactly those the body defines ([null]
    included).  The body's values and the profile id are passed as
    parameters and never enter the statement's text, which has one
    placeholder for each parameter. *)
Theorem update_profile_allowed_columns profileId body statement params :
  update_profile profileId body = inr (statement, params) ->
  let columns := filter (fun field => is_Some (QR.prop body field)) allowedFields in
  columns <> [] /\
  statement = js "UPDATE profiles SET "
                ++ join (js ", ") (map (fun key => key ++ js " = ?") columns)
                ++ js " WHERE id = ?" /\
  params = omap (QR.prop body) allowedFields ++ [JStr profileId] /\
  placeholders statement = length params.
Proof.
  intros Hrun columns. unfold update_profile in Hrun.
  assert (Hpicked : (if (length (pick_fields allowedFields body []) =? 0)%nat
                     then inl (Reply 400 (js "No valid fields to update"))
                     else inr (update_statement (js "profiles")
                                 (pick_fields allowedFields body []) (js "id = ?")
                                 [JStr profileId]))
                    = (inr (statement, params) : Response + (jsstring * list JValue))).
  { by destruct body. }
  clear Hrun. rewrite picked_allowed in Hpicked.
  destruct (length (defined_fields allowedFields body) =? 0)%nat eqn:Hlen; [done|].
  apply Nat.eqb_neq in Hlen.
  assert (Hcolumns : map fst (defined_fields allowedFields body) = columns)
    by apply defined_fields_keys.
  pose proof (update_statement_marks (js "profiles") (defined_fields allowedFields body)
                (js "id = ?") [JStr profileId]) as Hmarks.
  assert (Hpair : update_statement (js "profiles") (defined_fields allowedFields body)
                    (js "id = ?") [JStr profileId] = (statement, params))
    by congruence.
  clear Hpicked. rewrite Hpair in Hmarks. cbn [fst snd] in Hmarks.
  unfold update_statement in Hpair. rewrite Hcolumns, defined_fields_values in Hpair.
  split; [|split; [|split]].
  - intros Hnone. apply Hlen. by rewrite <- (length_map fst), Hcolumns, Hnone.
  - by injection Hpair as <- _.
  - by injection Hpair as _ <-.
  - apply Hmarks; [done| |done].
    rewrite Hcolumns. apply Forall_forall. intros key [_ Hkey]%list_elem_of_filter.
    by apply (proj1 (Forall_forall _ _) allowedFields_plain).
Qed.

Lemma update_profile_allowed_columns_witness :
  let body := JObj [(js "role", JStr (js "admin")); (js "usia", JNum 70);
                    (js "nama", JNull)] in
  let statement := js "UPDATE profiles SET nama = ?, usia = ? WHERE id = ?" in
  let params := [JNull; JNum 70; JStr (js "3")] in
  update_profile (js "3") body = inr (statement, params) /\
  placeholders statement = length params.
Proof.
  intros body statement params.
  assert (Hrun : update_profile (js "3") body = inr (statement, params))
    by by vm_compute.
  split; [done|].
  apply (update_profile_allowed_columns (js "3") body statement params Hrun).
Defined.

(** X19 (the handler of [PUT /api/profiles/:id], which runs once
    [authenticate] and [validateProfileUpdate] have let the request
    through): on the body it receives, the handler answers 400 'No valid
    fields to update' exactly when the body is not [null] and defines none
    of the allowed fields, and 500 exactly when the body is [null]; so it
    calls [update] exactly when the body is not [null] and defines an
    allowed field. *)
Theorem update_profile_no_fields profileId body :
  (update_profile profileId body = inl (Reply 400 (js "No valid fields to update"))
   <-> body <> JNull /\
       forall field, field ∈ allowedFields -> QR.prop body field = None)
  /\ (update_profile profileId body = inl (Reply 500 (js "Failed to update profile"))
      <-> body = JNull)
  /\ ((exists statement params,
         update_profile profileId body = inr (statement, params))
      <-> body <> JNull /\
          exists field, field ∈ allowedFields /\ is_Some (QR.prop body field)).
Proof.
  assert (Hnone : defined_fields allowedFields body = []
                  <-> forall field, field ∈ allowedFields -> QR.prop body field = None).
  { rewrite <- (Forall_forall (fun field => QR.prop body field = None)).
    generalize allowedFields. intros fields.
    induction fields as [|field fields IH]; [by split|].
    rewrite defined_fields_cons, Forall_cons.
    destruct (QR.prop body field) as [value|].
    - split; [done|by intros [? _]].
    - rewrite IH. by split; [|intros [_ ?]]. }
  assert (Hsome : defined_fields allowedFields body <> []
                  <-> exists field, field ∈ allowedFields
                                    /\ is_Some (QR.prop body field)).
  { rewrite Hnone. split.
    - intros Hnot.
      destruct (decide (Exists (fun field => is_Some (QR.prop body field))
                          allowedFields)) as [Hex|Hex].
      + by apply Exists_exists in Hex.
      + exfalso. apply Hnot. intros field Hin.
        destruct (QR.prop body field) as [value|] eqn:Hvalue; [|done].
        exfalso. apply Hex, Exists_exists. exists field. by rewrite Hvalue.
    - intros (field & Hin & Hvalue) Hall. rewrite (Hall field Hin) in Hvalue.
      by destruct Hvalue. }
  assert (Hrun : body <> JNull ->
                 update_profile profileId body
                 = if (length (defined_fields allowedFields body) =? 0)%nat
                   then inl (Reply 400 (js "No valid fields to update"))
                   else inr (update_statement (js "profiles")
                               (defined_fields allowedFields body) (js "id = ?")
                               [JStr profileId])).
  { intros Hbody. rewrite <- picked_allowed. by destruct body. }
  rewrite <- Hnone, <- Hsome.
  assert (Hcases : body = JNull \/ body <> JNull) by (destruct body; auto).
  destruct Hcases as [->|Hbody].
  - split; [|split]; (split; [|by intros; try tauto]).
    + done.
    + done.
    + by intros (statement & params & Hreply).
  - rewrite Hrun by done.
    destruct (defined_fields allowedFields body) as [|pair data] eqn:Hdata;
      cbn [length Nat.eqb].
    + split; [done|]. split; [done|].
      split; [by intros (? & ? & ?)|by intros [_ ?]].
    + split; [|split].
      * split; [done|by intros [_ ?]].
      * done.
      * split; [done|]. intros _. by eexists _, _.
Qed.

End StatementFacts.
